(** * Acquisition and frame synchronisation of the lgplot CCD viewer

    A shallow embedding of [lgplot/src/connection.cpp] (serial and UDP
    receiver threads, channel start/stop), of the [AppState] constructor in
    [app_state.h], of [freeze_frame], [detect_peaks] and the project
    functions of [ui_panels.cpp] and of [log_message] in [console.cpp],
    followed by the properties checked against them.

    Conventions.
    - A [uint8_t] is a [byte]; [uint16_t]/[uint32_t] values are [Z] with the
      wrap-around written out; array indices are [nat].
    - A sample is stored by the program as [float]; every value written is
      the conversion of a [uint16_t], which [float] represents exactly, so a
      sample is modelled by that integer.
    - An access [v[i]] outside the vector is undefined behaviour: array
      reads and writes are checked and the embedding returns [None] there.
    - A [std::string] or C string is a [list byte]. *)

From Stdlib Require Import ZArith Lia QArith Sorted.
From Stdlib.Strings Require Import Byte.
From Stdlib Require String.
From stdpp Require Import base tactics option list.

Local Open Scope Z_scope.
Local Open Scope nat_scope.

(** ** config.h *)

Definition UDP_PORT : Z := 8080.
Definition CCD_PIXEL_COUNT : nat := 3694.
Definition USB_FRAME_START : byte := x11.
Definition USB_PIXEL_START : byte := xa5.
Definition USB_PIXEL_END : byte := x5a.

Inductive ConnectionMode := ModeNone | ModeUDP | ModeUSB.

(** ** Machine integers and vectors *)

Definition byte_val (b : byte) : Z := Z.of_N (Byte.to_N b).

(** Text is a [list byte]; [txt] writes one as a literal. *)
Import String.StringSyntax.
Delimit Scope string_scope with string.
Definition txt (s : String.string) : list byte := String.list_byte_of_string s.
Arguments txt s%_string.

Definition wrap16 (z : Z) : Z := z mod 2 ^ 16.
Definition wrap32 (z : Z) : Z := z mod 2 ^ 32.

(** [uint16_t v = low | (high << 8)] (integer promotion, then truncation). *)
Definition le16 (low high : byte) : Z :=
  wrap16 (Z.lor (byte_val low) (Z.shiftl (byte_val high) 8)).

(** A little-endian [uint32_t] read from four consecutive bytes. *)
Definition le32 (b0 b1 b2 b3 : byte) : Z :=
  wrap32 (Z.lor (byte_val b0)
         (Z.lor (Z.shiftl (byte_val b1) 8)
         (Z.lor (Z.shiftl (byte_val b2) 16) (Z.shiftl (byte_val b3) 24)))).

(** [v[i] = x]; out of range is undefined behaviour. *)
Definition vec_write {A} (v : list A) (i : nat) (x : A) : option (list A) :=
  if decide (i < length v) then Some (<[i := x]> v) else None.

(** ** app_state.h: the shared application state

    Only the fields the receiver threads, the channel management and the
    freeze operation touch.  [receiver_thread] is [Some k] while the
    [std::thread] object is joinable and runs the receiver of kind [k].
    [serial_handle] and [udp_socket] are [None] for [INVALID_HANDLE_VALUE]
    and [INVALID_SOCKET]. *)

Record AppState := mkApp {
  spectrum_data : list Z;
  snapshot_data : list Z;
  is_frozen : bool;
  connection_mode : ConnectionMode;
  receiver_running : bool;
  receiver_thread : option ConnectionMode;
  udp_socket : option Z;
  serial_handle : option Z;
  packets_received : Z;
  last_sequence : Z;
  packets_per_second : Q
}.

(** [AppState::AppState()] together with the default member initialisers. *)
Definition app_init : AppState :=
  {| spectrum_data := replicate CCD_PIXEL_COUNT 0%Z;
     snapshot_data := replicate CCD_PIXEL_COUNT 0%Z;
     is_frozen := false;
     connection_mode := ModeNone;
     receiver_running := false;
     receiver_thread := None;
     udp_socket := None;
     serial_handle := None;
     packets_received := 0%Z;
     last_sequence := 0%Z;
     packets_per_second := 0%Q |}.

Definition set_spectrum_data (v : list Z) (g : AppState) : AppState :=
  mkApp v (snapshot_data g) (is_frozen g) (connection_mode g)
        (receiver_running g) (receiver_thread g) (udp_socket g)
        (serial_handle g) (packets_received g) (last_sequence g)
        (packets_per_second g).

Definition set_packets_received (n : Z) (g : AppState) : AppState :=
  mkApp (spectrum_data g) (snapshot_data g) (is_frozen g) (connection_mode g)
        (receiver_running g) (receiver_thread g) (udp_socket g)
        (serial_handle g) n (last_sequence g) (packets_per_second g).

Definition set_last_sequence (n : Z) (g : AppState) : AppState :=
  mkApp (spectrum_data g) (snapshot_data g) (is_frozen g) (connection_mode g)
        (receiver_running g) (receiver_thread g) (udp_socket g)
        (serial_handle g) (packets_received g) n (packets_per_second g).

Definition set_packets_per_second (r : Q) (g : AppState) : AppState :=
  mkApp (spectrum_data g) (snapshot_data g) (is_frozen g) (connection_mode g)
        (receiver_running g) (receiver_thread g) (udp_socket g)
        (serial_handle g) (packets_received g) (last_sequence g) r.

Definition set_connection_mode (m : ConnectionMode) (g : AppState) : AppState :=
  mkApp (spectrum_data g) (snapshot_data g) (is_frozen g) m
        (receiver_running g) (receiver_thread g) (udp_socket g)
        (serial_handle g) (packets_received g) (last_sequence g)
        (packets_per_second g).

Definition set_receiver_running (b : bool) (g : AppState) : AppState :=
  mkApp (spectrum_data g) (snapshot_data g) (is_frozen g) (connection_mode g)
        b (receiver_thread g) (udp_socket g)
        (serial_handle g) (packets_received g) (last_sequence g)
        (packets_per_second g).

Definition set_receiver_thread (t : option ConnectionMode) (g : AppState)
  : AppState :=
  mkApp (spectrum_data g) (snapshot_data g) (is_frozen g) (connection_mode g)
        (receiver_running g) t (udp_socket g)
        (serial_handle g) (packets_received g) (last_sequence g)
        (packets_per_second g).

Definition set_udp_socket (s : option Z) (g : AppState) : AppState :=
  mkApp (spectrum_data g) (snapshot_data g) (is_frozen g) (connection_mode g)
        (receiver_running g) (receiver_thread g) s
        (serial_handle g) (packets_received g) (last_sequence g)
        (packets_per_second g).

Definition set_serial_handle (h : option Z) (g : AppState) : AppState :=
  mkApp (spectrum_data g) (snapshot_data g) (is_frozen g) (connection_mode g)
        (receiver_running g) (receiver_thread g) (udp_socket g)
        h (packets_received g) (last_sequence g)
        (packets_per_second g).

(** [freeze_frame]: the copy taken under [data_mutex] (peak detection and
    logging, which follow it, do not touch the sample arrays). *)
Definition freeze_frame (g : AppState) : AppState :=
  mkApp (spectrum_data g) (spectrum_data g) true (connection_mode g)
        (receiver_running g) (receiver_thread g) (udp_socket g)
        (serial_handle g) (packets_received g) (last_sequence g)
        (packets_per_second g).

(** ** The statistics block shared by both receiver loops

    [now] and [last_stats_time] are [steady_clock] readings in nanoseconds;
    [duration_cast<milliseconds>] truncates.  The rate is computed by the
    program in [float]; the embedding keeps the exact quotient. *)

Definition elapsed_ms (now last : Z) : Z := Z.quot (now - last) 1000000.

Definition rate_of (count elapsed : Z) : Q :=
  (inject_Z (count * 1000) / inject_Z elapsed)%Q.

(** ** Events a loop iteration emits

    [FrameComplete n] is the line [log_message("Frame complete: %d pixels",
    pixel_index)].  [Discarded k] is ghost: [k] bytes left the serial window
    without being decoded as a pixel record or read as a frame-start
    marker; no program variable counts them and no state depends on it. *)

Inductive Event :=
| FrameComplete (n : nat)
| Discarded (k : nat).

Definition discard (k : nat) : list Event :=
  match k with 0 => [] | _ => [Discarded k] end.

Definition frames_of (evs : list Event) : list nat :=
  omap (fun e => match e with FrameComplete n => Some n | _ => None end) evs.

Definition discarded_of (evs : list Event) : nat :=
  foldr (fun e acc => match e with Discarded k => k + acc | _ => acc end) 0 evs.

(** ** usb_receiver_thread *)

Module Serial.

(** The locals of [usb_receiver_thread].  [buffer] holds the
    [buffer_pos] bytes currently in the 16384-byte window. *)
Record Local := mkLocal {
  buffer : list byte;
  pixel_index : nat;
  receiving_frame : bool;
  temp_pixels : list Z;
  last_stats_time : Z;
  packets_since_last : Z;
  pixels_this_frame : Z
}.

Definition BUFFER_SIZE : nat := 128 * 128.  (* 16384 *)

Definition local_init (now : Z) : Local :=
  {| buffer := [];
     pixel_index := 0;
     receiving_frame := false;
     temp_pixels := replicate CCD_PIXEL_COUNT 0%Z;
     last_stats_time := now;
     packets_since_last := 0%Z;
     pixels_this_frame := 0%Z |}.

Definition set_buffer (b : list byte) (l : Local) : Local :=
  mkLocal b (pixel_index l) (receiving_frame l) (temp_pixels l)
          (last_stats_time l) (packets_since_last l) (pixels_this_frame l).

(** Lines 104-109: [for (i = 0; i < pixel_index && i < CCD_PIXEL_COUNT; i++)
    spectrum_data[i] = temp_pixels[i]], by its trip count. *)
Fixpoint copy_loop (todo i : nat) (temp spectrum : list Z) : option (list Z) :=
  match todo with
  | 0 => Some spectrum
  | S todo' =>
      v ← temp !! i;
      spectrum' ← vec_write spectrum i v;
      copy_loop todo' (S i) temp spectrum'
  end.

Definition publish (l : Local) (g : AppState) : option AppState :=
  spectrum' ← copy_loop (min (pixel_index l) CCD_PIXEL_COUNT) 0
                        (temp_pixels l) (spectrum_data g);
  Some (set_packets_received (wrap32 (packets_received g + 1))
          (set_spectrum_data spectrum' g)).

(** Lines 128-131: the index of the first pixel-start byte in the window
    (the window length when there is none). *)
Fixpoint find_start (buf : list byte) : nat :=
  match buf with
  | [] => 0
  | b :: rest => if Byte.eqb b USB_PIXEL_START then 0 else S (find_start rest)
  end.

(** Lines 146-150: the index guard and the store into [temp_pixels]. *)
Definition store_pixel (v : Z) (l : Local) : option Local :=
  if decide (pixel_index l < CCD_PIXEL_COUNT) then
    temp' ← vec_write (temp_pixels l) (pixel_index l) v;
    Some (mkLocal (buffer l) (S (pixel_index l)) (receiving_frame l) temp'
                  (last_stats_time l) (packets_since_last l)
                  (wrap32 (pixels_this_frame l + 1)))
  else Some l.

(** Lines 127-158: [while (buffer_pos >= 4)].  Every iteration that does
    not leave the loop removes at least one byte, so the window length
    bounds the number of iterations; [drain] starts the loop with one more
    than that. *)
Fixpoint drain_loop (fuel : nat) (l : Local) : option (Local * list Event) :=
  match fuel with
  | 0 => None
  | S fuel' =>
      if decide (4 <= length (buffer l)) then
        let start := find_start (buffer l) in
        let buf := drop start (buffer l) in
        if decide (length buf < 4) then
          Some (set_buffer buf l, discard start)
        else
          match buf with
          | b0 :: b1 :: b2 :: b3 :: rest =>
              if Byte.eqb b0 USB_PIXEL_START && Byte.eqb b3 USB_PIXEL_END then
                l' ← store_pixel (le16 b1 b2) l;
                '(l'', evs) ← drain_loop fuel' (set_buffer rest l');
                Some (l'', discard start ++ evs)
              else
                '(l'', evs) ←
                  drain_loop fuel' (set_buffer (b1 :: b2 :: b3 :: rest) l);
                Some (l'', discard start ++ Discarded 1 :: evs)
          | _ => None
          end
      else Some (l, [])
  end.

Definition drain (l : Local) : option (Local * list Event) :=
  drain_loop (S (length (buffer l))) l.

(** Lines 160-169. *)
Definition stats_tick (now : Z) (l : Local) (g : AppState) : Local * AppState :=
  let elapsed := elapsed_ms now (last_stats_time l) in
  if decide (1000 <= elapsed)%Z then
    (mkLocal (buffer l) (pixel_index l) (receiving_frame l) (temp_pixels l)
             now 0%Z (pixels_this_frame l),
     set_last_sequence (pixels_this_frame l)
       (set_packets_per_second (rate_of (packets_since_last l) elapsed) g))
  else (l, g).

(** What [ReadFile] delivered in one iteration. *)
Inductive Read :=
| NoByte            (* failure or [bytes_read == 0]: [Sleep(1); continue] *)
| GotByte (b : byte).

(** One iteration of [while (g_app.receiver_running)], lines 89-169. *)
Definition iteration (r : Read) (now : Z) (l : Local) (g : AppState)
  : option (Local * AppState * list Event) :=
  match r with
  | NoByte => Some (l, g, [])
  | GotByte b =>
      let l1 := if decide (length (buffer l) < BUFFER_SIZE)
                then set_buffer (buffer l ++ [b]) l else l in
      if Byte.eqb b USB_FRAME_START then
        '(g2, l2, evs) ←
          (if receiving_frame l1 && bool_decide (0 < pixel_index l1) then
             g' ← publish l1 g;
             Some (g',
                   mkLocal (buffer l1) (pixel_index l1) (receiving_frame l1)
                           (temp_pixels l1) (last_stats_time l1)
                           (wrap32 (packets_since_last l1 + 1))
                           (pixels_this_frame l1),
                   [FrameComplete (pixel_index l1)])
           else Some (g, l1, []));
        Some (mkLocal [] 0 true (temp_pixels l2) (last_stats_time l2)
                      (packets_since_last l2) 0%Z,
              g2, evs ++ discard (length (buffer l)))
      else if negb (receiving_frame l1) then
        Some (set_buffer [] l1, g, discard (length (buffer l1)))
      else
        '(l2, evs) ← drain l1;
        let '(l3, g3) := stats_tick now l2 g in
        Some (l3, g3, evs)
  end.

(** The loop over what the port and the clock deliver. *)
Fixpoint run (inputs : list (Read * Z)) (l : Local) (g : AppState)
  : option (Local * AppState * list Event) :=
  match inputs with
  | [] => Some (l, g, [])
  | (r, now) :: rest =>
      '(l1, g1, evs1) ← iteration r now l g;
      '(l2, g2, evs2) ← run rest l1 g1;
      Some (l2, g2, evs1 ++ evs2)
  end.

(** [usb_receiver_thread] from its first line: the locals of lines 77-86,
    then one iteration per input, for as long as [receiver_running] was
    read true. *)
Definition usb_receiver_thread (start : Z) (inputs : list (Read * Z))
    (g : AppState) : option (Local * AppState * list Event) :=
  run inputs (local_init start) g.

Definition bytes_of (inputs : list (Read * Z)) : list byte :=
  omap (fun i => match fst i with GotByte b => Some b | NoByte => None end) inputs.

(** The same loop when every read delivers a byte and the clock stands
    at 0. *)
Definition feed (bs : list byte) (l : Local) (g : AppState) :=
  run (map (fun b => (GotByte b, 0%Z)) bs) l g.

(** The samples assembled so far in the frame in progress. *)
Definition decoded (l : Local) : list Z :=
  take (pixel_index l) (temp_pixels l).

(** The state with the statistics window restarted at clock 0. *)
Definition at_clock0 (l : Local) : Local :=
  mkLocal (buffer l) (pixel_index l) (receiving_frame l) (temp_pixels l)
          0%Z (packets_since_last l) (pixels_this_frame l).

(** The fields framing depends on and acts on: everything but the
    statistics. *)
Definition framing (l : Local) :=
  (buffer l, pixel_index l, receiving_frame l, temp_pixels l).

Definition core (l : Local) (g : AppState) :=
  (framing l, spectrum_data g, packets_received g).

(** Two outcomes that agree on those fields and on the events. *)
Definition sim_local (x y : option (Local * list Event)) : Prop :=
  match x, y with
  | Some (l, e), Some (l0, e0) => framing l = framing l0 /\ e = e0
  | None, None => True
  | _, _ => False
  end.

Definition sim (x y : option (Local * AppState * list Event)) : Prop :=
  match x, y with
  | Some (l, g, e), Some (l0, g0, e0) => core l g = core l0 g0 /\ e = e0
  | None, None => True
  | _, _ => False
  end.

(** The bounds the loop maintains. *)
Definition wf (l : Local) (g : AppState) : Prop :=
  length (temp_pixels l) = CCD_PIXEL_COUNT /\
  length (spectrum_data g) = CCD_PIXEL_COUNT /\
  pixel_index l <= CCD_PIXEL_COUNT /\
  length (buffer l) < 4.

(** The wire format: a pixel record, a frame body, and the sample a record
    stands for. *)
Definition record_bytes (r : byte * byte) : list byte :=
  [USB_PIXEL_START; fst r; snd r; USB_PIXEL_END].

Definition encode (recs : list (byte * byte)) : list byte :=
  flat_map record_bytes recs.

Definition sample (r : byte * byte) : Z :=
  Z.lor (byte_val (fst r)) (Z.shiftl (byte_val (snd r)) 8).

Definition clean (r : byte * byte) : Prop :=
  fst r <> USB_FRAME_START /\ snd r <> USB_FRAME_START.


(** Fed from the state the thread starts in, the bytes [bs] publish exactly
    one frame, of [length vals] samples, whose values are [vals]. *)
Definition decodes_as (bs : list byte) (vals : list Z) : Prop :=
  exists l g evs,
    feed bs (local_init 0) app_init = Some (l, g, evs) /\
    frames_of evs = [length vals] /\
    take (length vals) (spectrum_data g) = vals.

End Serial.


(** ** udp_receiver_thread *)

Module Udp.

(** [sizeof(UdpPacketHeader)] under [#pragma pack(push, 1)]:
    1 + 4 + 4 + 2 + 2 bytes. *)
Definition HEADER_SIZE : nat := 13.

Definition BUFFER_SIZE : nat := HEADER_SIZE + CCD_PIXEL_COUNT * 2 + 100.

Definition MAGIC : byte := xaa.

Record Local := mkLocal {
  buffer : list byte;
  last_stats_time : Z;
  packets_since_last : Z
}.

Definition local_init (now : Z) : Local :=
  {| buffer := replicate BUFFER_SIZE x00;
     last_stats_time := now;
     packets_since_last := 0%Z |}.

(** What [recvfrom] did in one iteration: its return value, and the bytes
    it stored at the front of the buffer (none on a timeout or an error).
    The rest of the buffer keeps what earlier datagrams left there. *)
Record Recv := mkRecv {
  recv_ret : Z;
  recv_data : list byte
}.

Definition store_datagram (data buf : list byte) : list byte :=
  let d := take (length buf) data in
  d ++ drop (length d) buf.

(** Header fields at their packed offsets, read on a little-endian host. *)
Definition header_sequence_num (buf : list byte) : option Z :=
  b0 ← buf !! 1; b1 ← buf !! 2; b2 ← buf !! 3; b3 ← buf !! 4;
  Some (le32 b0 b1 b2 b3).

Definition header_pixel_count (buf : list byte) : option Z :=
  b0 ← buf !! 9; b1 ← buf !! 10;
  Some (le16 b0 b1).

(** [pixels[i]] with [pixels = (uint16_t * )(buffer.data() + 13)]. *)
Definition pixel_at (buf : list byte) (i : nat) : option Z :=
  b0 ← buf !! (HEADER_SIZE + 2 * i);
  b1 ← buf !! (HEADER_SIZE + 2 * i + 1);
  Some (le16 b0 b1).

(** Lines 225-227: [for (i = 0; i < header->pixel_count; ++i)
    spectrum_data[i] = pixels[i]], by its trip count. *)
Fixpoint copy_loop (todo i : nat) (buf : list byte) (spectrum : list Z)
  : option (list Z) :=
  match todo with
  | 0 => Some spectrum
  | S todo' =>
      v ← pixel_at buf i;
      spectrum' ← vec_write spectrum i v;
      copy_loop todo' (S i) buf spectrum'
  end.

(** Lines 215-235: validation and decoding of what is in the buffer. *)
Definition decode (ret : Z) (l : Local) (g : AppState)
  : option (Local * AppState) :=
  if bool_decide (0 < ret)%Z && bool_decide (Z.of_nat HEADER_SIZE <= ret)%Z then
    b0 ← buffer l !! 0;
    if Byte.eqb b0 MAGIC then
      count ← header_pixel_count (buffer l);
      if decide (count <= Z.of_nat CCD_PIXEL_COUNT)%Z then
        spectrum' ← copy_loop (Z.to_nat count) 0 (buffer l) (spectrum_data g);
        seq ← header_sequence_num (buffer l);
        Some (mkLocal (buffer l) (last_stats_time l)
                      (wrap32 (packets_since_last l + 1)),
              set_last_sequence seq
                (set_packets_received (wrap32 (packets_received g + 1))
                   (set_spectrum_data spectrum' g)))
      else Some (l, g)
    else Some (l, g)
  else Some (l, g).

(** Lines 237-245. *)
Definition stats_tick (now : Z) (l : Local) (g : AppState) : Local * AppState :=
  let elapsed := elapsed_ms now (last_stats_time l) in
  if decide (1000 <= elapsed)%Z then
    (mkLocal (buffer l) now 0%Z,
     set_packets_per_second (rate_of (packets_since_last l) elapsed) g)
  else (l, g).

(** One iteration of [while (g_app.receiver_running)], lines 208-245. *)
Definition iteration (r : Recv) (now : Z) (l : Local) (g : AppState)
  : option (Local * AppState) :=
  let l1 := mkLocal (store_datagram (recv_data r) (buffer l))
                    (last_stats_time l) (packets_since_last l) in
  '(l2, g2) ← decode (recv_ret r) l1 g;
  Some (stats_tick now l2 g2).

Fixpoint run (inputs : list (Recv * Z)) (l : Local) (g : AppState)
  : option (Local * AppState) :=
  match inputs with
  | [] => Some (l, g)
  | (r, now) :: rest => '(l1, g1) ← iteration r now l g; run rest l1 g1
  end.

(** [udp_receiver_thread] from its first line. *)
Definition udp_receiver_thread (start : Z) (inputs : list (Recv * Z))
    (g : AppState) : option (Local * AppState) :=
  run inputs (local_init start) g.

Definition wf (l : Local) (g : AppState) : Prop :=
  length (buffer l) = BUFFER_SIZE /\
  length (spectrum_data g) = CCD_PIXEL_COUNT.

(** A datagram the decoder is to discard: too short for a header, wrong
    magic byte, or a declared pixel count above the capacity. *)
Definition rejected (ret : Z) (buf : list byte) : Prop :=
  (ret < Z.of_nat HEADER_SIZE)%Z \/
  buf !! 0 <> Some MAGIC \/
  (exists count, header_pixel_count buf = Some count /\
                 (Z.of_nat CCD_PIXEL_COUNT < count)%Z).

(** A run of the loop in which every datagram, as it lies in the buffer
    when it is validated, is one the decoder is to discard. *)
Fixpoint none_accepted (inputs : list (Recv * Z)) (l : Local) (g : AppState)
  : Prop :=
  match inputs with
  | [] => True
  | (r, now) :: rest =>
      rejected (recv_ret r) (store_datagram (recv_data r) (buffer l)) /\
      match iteration r now l g with
      | Some (l1, g1) => none_accepted rest l1 g1
      | None => True
      end
  end.

End Udp.

(** ** start_usb_receiver, start_udp_receiver, stop_receiver *)

Module Channel.

(** A call either returns, or ends the process: move-assigning to a
    [std::thread] that is still joinable calls [std::terminate]. *)
Inductive Outcome :=
| Returns (result : bool) (g : AppState)
| Terminates.

(** [open_serial_port]; [h] is what [CreateFileA] returned. *)
Definition open_serial_port (h : option Z) (g : AppState) : bool * AppState :=
  let g1 := set_serial_handle h g in
  match h with
  | None => (false, g1)
  | Some _ => (true, g1)
  end.

Definition close_serial_port (g : AppState) : AppState :=
  match serial_handle g with
  | Some _ => set_serial_handle None g
  | None => g
  end.

(** [g_app.receiver_thread = std::thread(body)]. *)
Definition spawn (kind : ConnectionMode) (g : AppState) : Outcome :=
  match receiver_thread g with
  | Some _ => Terminates
  | None => Returns true (set_receiver_thread (Some kind) g)
  end.

Definition start_usb_receiver (h : option Z) (g : AppState) : Outcome :=
  let '(ok, g1) := open_serial_port h g in
  if negb ok then Returns false g1
  else
    spawn ModeUSB (set_connection_mode ModeUSB (set_receiver_running true g1)).

(** What Winsock answers during [start_udp_receiver]. *)
Record UdpEnv := mkUdpEnv {
  wsa_startup_ok : bool;
  socket_result : option Z;
  bind_ok : bool
}.

Definition start_udp_receiver (e : UdpEnv) (g : AppState) : Outcome :=
  if negb (wsa_startup_ok e) then Returns false g
  else
    let g1 := set_udp_socket (socket_result e) g in
    match socket_result e with
    | None => Returns false g1
    | Some _ =>
        if negb (bind_ok e) then Returns false g1
        else
          spawn ModeUDP
            (set_connection_mode ModeUDP (set_receiver_running true g1))
    end.

(** [stop_receiver].  The join returns: the receiver loop re-reads
    [receiver_running] after every read, and both reads time out. *)
Definition stop_receiver (g : AppState) : AppState :=
  let g1 := set_receiver_running false g in
  let g2 := match receiver_thread g1 with
            | Some _ => set_receiver_thread None g1
            | None => g1
            end in
  let g3 := match connection_mode g2 with
            | ModeUDP => match udp_socket g2 with
                         | Some _ => set_udp_socket None g2
                         | None => g2
                         end
            | ModeUSB => close_serial_port g2
            | ModeNone => g2
            end in
  set_connection_mode ModeNone g3.

Inductive Call :=
| StartUsb (h : option Z)
| StartUdp (e : UdpEnv)
| Stop.

Definition call (c : Call) (g : AppState) : Outcome :=
  match c with
  | StartUsb h => start_usb_receiver h g
  | StartUdp e => start_udp_receiver e g
  | Stop => Returns true (stop_receiver g)
  end.

(** The connection part of [draw_controls_panel] (ui_panels.cpp): the two
    connect buttons are drawn only while [connection_mode] is None, the
    disconnect button only otherwise; at most one button reports a click
    in a frame.  It ignores what the start functions return. *)
Inductive Click := NoClick | UsbConnect | UdpConnect | Disconnect.

Definition draw_controls_panel (click : Click) (h : option Z) (e : UdpEnv)
    (g : AppState) : Outcome :=
  match connection_mode g with
  | ModeNone =>
      match click with
      | UsbConnect => start_usb_receiver h g
      | UdpConnect => start_udp_receiver e g
      | _ => Returns true g
      end
  | _ =>
      match click with
      | Disconnect => Returns true (stop_receiver g)
      | _ => Returns true g
      end
  end.

Definition is_start (c : Call) : bool :=
  match c with Stop => false | _ => true end.

(** The states a live process can be in: the constructor's, and whatever
    returning calls, receiver iterations and freezes make of them. *)
Inductive reachable : AppState -> Prop :=
| reach_init : reachable app_init
| reach_call c g r g' :
    reachable g -> call c g = Returns r g' -> reachable g'
| reach_serial r now l g l' g' evs :
    reachable g -> Serial.iteration r now l g = Some (l', g', evs) ->
    reachable g'
| reach_udp r now l g l' g' :
    reachable g -> Udp.iteration r now l g = Some (l', g') -> reachable g'
| reach_freeze g : reachable g -> reachable (freeze_frame g).

(** The channel state read off the program's variables. *)
Definition disconnected (g : AppState) : Prop :=
  connection_mode g = ModeNone /\ receiver_running g = false /\
  receiver_thread g = None.

Definition streaming (kind : ConnectionMode) (g : AppState) : Prop :=
  kind <> ModeNone /\ connection_mode g = kind /\
  receiver_running g = true /\ receiver_thread g = Some kind.

Definition consistent (g : AppState) : Prop :=
  disconnected g \/ exists kind, streaming kind g.

(** The three variables the channel state is read from. *)
Definition lifecycle (g : AppState) :=
  (connection_mode g, receiver_running g, receiver_thread g).

(** A run of calls; [None] once the process has terminated. *)
Fixpoint calls (cs : list Call) (g : AppState) : option AppState :=
  match cs with
  | [] => Some g
  | c :: rest =>
      match call c g with
      | Returns _ g' => calls rest g'
      | Terminates => None
      end
  end.

End Channel.

(** ** The sample array under [data_mutex]

    The two critical sections on [spectrum_data]: the receiver's publish
    loop (connection.cpp lines 104-109 and 223-228) and the consumer's copy
    in [freeze_frame], each run one memory access at a time under an
    arbitrary scheduler.  A [std::lock_guard] is entered only while the
    mutex is free and leaves it free at the end of its block. *)

Module Slot.

Inductive Thread := Receiver | Consumer.

Inductive Pc :=
| Idle               (* before the lock_guard *)
| Locked (i : nat)   (* inside it, about to handle index [i] *)
| Finished.          (* past the end of its block *)

Record Config := mkConfig {
  mutex : option Thread;
  spectrum : list Z;
  snapshot : list Z;
  receiver_pc : Pc;
  consumer_pc : Pc
}.

(** [frame] lists the values the publish loop writes, in index order. *)
Definition receiver_step (frame : list Z) (c : Config) : option Config :=
  match receiver_pc c with
  | Idle =>
      match mutex c with
      | None => Some (mkConfig (Some Receiver) (spectrum c) (snapshot c)
                               (Locked 0) (consumer_pc c))
      | Some _ => None
      end
  | Locked i =>
      match frame !! i with
      | Some v => Some (mkConfig (mutex c) (<[i := v]> (spectrum c))
                                 (snapshot c) (Locked (S i)) (consumer_pc c))
      | None => Some (mkConfig None (spectrum c) (snapshot c)
                               Finished (consumer_pc c))
      end
  | Finished => None
  end.

(** [snapshot_data = spectrum_data], element by element. *)
Definition consumer_step (c : Config) : option Config :=
  match consumer_pc c with
  | Idle =>
      match mutex c with
      | None => Some (mkConfig (Some Consumer) (spectrum c) (snapshot c)
                               (receiver_pc c) (Locked 0))
      | Some _ => None
      end
  | Locked i =>
      match spectrum c !! i with
      | Some v => Some (mkConfig (mutex c) (spectrum c)
                                 (<[i := v]> (snapshot c))
                                 (receiver_pc c) (Locked (S i)))
      | None => Some (mkConfig None (spectrum c) (snapshot c)
                               (receiver_pc c) Finished)
      end
  | Finished => None
  end.

Definition step (frame : list Z) (t : Thread) (c : Config) : option Config :=
  match t with
  | Receiver => receiver_step frame c
  | Consumer => consumer_step c
  end.

(** A schedule names the thread that runs next; a thread that is blocked
    on the mutex or has finished leaves the configuration as it is. *)
Fixpoint run (frame : list Z) (sched : list Thread) (c : Config) : Config :=
  match sched with
  | [] => c
  | t :: rest => run frame rest (default c (step frame t c))
  end.

Definition init (old snap : list Z) : Config :=
  mkConfig None old snap Idle Idle.

(** The array once the publish is complete. *)
Definition published (frame old : list Z) : list Z :=
  frame ++ drop (length frame) old.

(** What holds between two steps, whatever the schedule was. *)
Definition inv (frame old snap : list Z) (c : Config) : Prop :=
  length (snapshot c) = length old /\
  match mutex c with
  | None =>
      match receiver_pc c, consumer_pc c with
      | Idle, Idle => spectrum c = old /\ snapshot c = snap
      | Idle, Finished => spectrum c = old /\ snapshot c = old
      | Finished, Idle => spectrum c = published frame old /\ snapshot c = snap
      | Finished, Finished =>
          spectrum c = published frame old /\
          (snapshot c = old \/ snapshot c = published frame old)
      | _, _ => False
      end
  | Some Receiver =>
      match receiver_pc c, consumer_pc c with
      | Locked i, Idle =>
          i <= length frame /\
          spectrum c = take i frame ++ drop i old /\ snapshot c = snap
      | Locked i, Finished =>
          i <= length frame /\
          spectrum c = take i frame ++ drop i old /\ snapshot c = old
      | _, _ => False
      end
  | Some Consumer =>
      match receiver_pc c, consumer_pc c with
      | Idle, Locked j =>
          spectrum c = old /\
          snapshot c = take j old ++ drop j snap
      | Finished, Locked j =>
          spectrum c = published frame old /\
          snapshot c = take j (published frame old) ++ drop j snap
      | _, _ => False
      end
  end.

End Slot.

(** ** log_message (console.cpp)

    Text is a [list byte].  [vsnprintf] and [strftime] are not modelled:
    [formatted] is the text the format string and its arguments expand to,
    [time_str] the clock text.  [log_mutex] is held from the [push_back]
    to the end of the function. *)

Module Console.

Definition MAX_LOG_LINES : nat := 200.

(** [char buffer[512]]. *)
Definition BUFFER_SIZE : nat := 512.

(** [vsnprintf(buffer, sizeof(buffer), fmt, args)] keeps the first 511
    characters and ends them with a NUL. *)
Definition vsnprintf (formatted : list byte) : list byte :=
  take (BUFFER_SIZE - 1) formatted.

(** [std::string("[") + time_str + "] " + buffer]. *)
Definition message (time_str formatted : list byte) : list byte :=
  txt "[" ++ time_str ++ txt "] " ++ vsnprintf formatted.

Definition log_message (time_str formatted : list byte)
    (console_log : list (list byte)) : list (list byte) :=
  let msg := message time_str formatted in
  let console_log := console_log ++ [msg] in
  if decide (MAX_LOG_LINES < length console_log)
  then drop 1 console_log
  else console_log.

(** Calls of [log_message] one after the other; a call is given by its
    clock text and its formatted text. *)
Definition log_messages (calls : list (list byte * list byte))
    (console_log : list (list byte)) : list (list byte) :=
  foldl (fun log c => log_message c.1 c.2 log) console_log calls.

End Console.

(** ** detect_peaks (ui_panels.cpp)

    [peak_threshold] is a [float], here an exact rational; the samples
    compared with it are integers (see the conventions), so the comparison
    is exact.  [peak_min_distance] and the loop variables are [int]s; the
    reads [data[i]] and [data[j]] are checked.  [wavelength_from_pixel] is
    [float] arithmetic and stays abstract. *)

Module Peaks.

Section Detect.
Variable W : Type.
Variable wavelength_from_pixel : Z -> W.

Record Peak := mkPeak {
  pixel_index : Z;
  wavelength : W;
  intensity : Z
}.

(** [data[i]] with an [int] index. *)
Definition read (data : list Z) (i : Z) : option Z :=
  if decide (0 <= i)%Z then data !! Z.to_nat i else None.

(** The inner loop, at [j] with [n] values of [j] left to visit:
    [Some false] at the [break], [Some true] when the loop runs out. *)
Fixpoint is_peak_loop (data : list Z) (i val j : Z) (n : nat)
    : option bool :=
  match n with
  | 0 => Some true
  | S n' =>
      if decide (j <> i) then
        x ← read data j;
        if (val <=? x)%Z then Some false
        else is_peak_loop data i val (j + 1) n'
      else is_peak_loop data i val (j + 1) n'
  end.

(** The outer loop, at [i] with [n] values of [i] left to visit.
    [val < peak_threshold] is [negb (Qle_bool thr val)]. *)
Fixpoint scan (data : list Z) (thr : Q) (d : Z) (i : Z) (n : nat)
    (detected_peaks : list Peak) : option (list Peak) :=
  match n with
  | 0 => Some detected_peaks
  | S n' =>
      val ← read data i;
      if negb (Qle_bool thr (inject_Z val)) then
        scan data thr d (i + 1) n' detected_peaks
      else
        is_peak ← is_peak_loop data i val (i - d) (Z.to_nat (2 * d + 1));
        if is_peak : bool then
          scan data thr d (i + 1) n'
            (detected_peaks ++ [mkPeak i (wavelength_from_pixel i) val])
        else scan data thr d (i + 1) n' detected_peaks
  end.

(** [thr] is [g_app.peak_threshold], [d] is [g_app.peak_min_distance]; the
    result is the new [g_app.detected_peaks]. *)
Definition detect_peaks (thr : Q) (d : Z) (g : AppState)
    : option (list Peak) :=
  let data := if is_frozen g then snapshot_data g else spectrum_data g in
  scan data thr d d (Z.to_nat (Z.of_nat CCD_PIXEL_COUNT - d - d)) [].

(** What the loops test at pixel [i]: the sample there reaches the
    threshold and every other sample at most [d] pixels away is smaller. *)
Definition local_max (data : list Z) (thr : Q) (d i val : Z) : Prop :=
  read data i = Some val /\
  (thr <= inject_Z val)%Q /\
  forall j, (i - d <= j <= i + d)%Z -> j <> i ->
    exists x, read data j = Some x /\ (x < val)%Z.

(** The order of [detected_peaks] is compared with the pixel order. *)
Definition peak_order (p q : Peak) : Prop :=
  (pixel_index p < pixel_index q)%Z.

End Detect.

Arguments mkPeak {W}.
Arguments pixel_index {W}.
Arguments wavelength {W}.
Arguments intensity {W}.
Arguments scan {W}.
Arguments detect_peaks {W}.
Arguments peak_order {W}.

End Peaks.

(** ** Projects (ui_panels.cpp)

    [char] is signed on the platform the program is written for (Win32):
    a byte from 0x80 on is a negative [char], and [std::isalnum] is
    undefined for a negative argument other than [EOF] (-1, the byte
    0xFF); the default locale is never changed, so [isalnum] holds of the
    ASCII letters and digits. *)

Module Projects.

Definition isalnum (c : byte) : bool :=
  let v := byte_val c in
  ((48 <=? v) && (v <=? 57) || (65 <=? v) && (v <=? 90) ||
   (97 <=? v) && (v <=? 122))%Z.

(** [std::isalnum(c)] is defined at [c]. *)
Definition isalnum_defined (c : byte) : bool :=
  ((byte_val c <? 128) || (byte_val c =? 255))%Z.

Definition keeps (c : byte) : bool :=
  isalnum c || Byte.eqb c "_" || Byte.eqb c "-" || Byte.eqb c " ".

Fixpoint sanitize_loop (name result : list byte) : option (list byte) :=
  match name with
  | [] => Some result
  | c :: rest =>
      if negb (isalnum_defined c) then None
      else if keeps c then
        sanitize_loop rest (result ++ [if Byte.eqb c " " then "_"%byte else c])
      else sanitize_loop rest result
  end.

Definition sanitize_folder_name (name : list byte) : option (list byte) :=
  result ← sanitize_loop name [];
  Some (if decide (result = []) then txt "Unnamed" else result).

(** The characters [sanitize_folder_name] lets through. *)
Definition folder_chars (r : list byte) : Prop :=
  Forall (fun c => isalnum c = true \/ c = "_"%byte \/ c = "-"%byte) r.

Record Project := mkProject {
  name : list byte;
  folder_name : list byte;
  description : list byte;
  created : list byte
}.

(** The project fields of [AppState]. *)
Record State := mkState {
  projects : list Project;
  current_project_index : Z;
  export_folder : list byte
}.

(** [AppState]'s initialisers: no project, index 0, folder "snapshots". *)
Definition state_init : State := mkState [] 0 (txt "snapshots").

(** [g_app.projects[i]] with an [int] index. *)
Definition project_at (st : State) (i : Z) : option Project :=
  if decide (0 <= i)%Z then projects st !! Z.to_nat i else None.

Definition get_current_project_folder (st : State) : option (list byte) :=
  if bool_decide (projects st = []) || (current_project_index st <? 0)%Z
  then Some (export_folder st ++ txt "/Default")
  else
    p ← project_at st (current_project_index st);
    Some (export_folder st ++ txt "/" ++ folder_name p).

(** The text [save_project_json] writes to the stream. *)
Definition project_json (proj : Project) : list byte :=
  txt "{" ++ [x0a] ++
  txt "  " ++ [x22] ++ txt "name" ++ [x22] ++ txt ": " ++ [x22] ++
    name proj ++ [x22] ++ txt "," ++ [x0a] ++
  txt "  " ++ [x22] ++ txt "description" ++ [x22] ++ txt ": " ++ [x22] ++
    description proj ++ [x22] ++ txt "," ++ [x0a] ++
  txt "  " ++ [x22] ++ txt "created" ++ [x22] ++ txt ": " ++ [x22] ++
    created proj ++ [x22] ++ [x0a] ++
  txt "}" ++ [x0a].

(** The shape of a line of that text: two spaces, the key and the value
    in quotes, and what follows the closing quote. *)
Definition field_line (k v tail : list byte) : list byte :=
  txt "  " ++ [x22] ++ k ++ [x22] ++ txt ": " ++ [x22] ++ v ++ [x22] ++ tail.

(** [save_project_json]: the file it writes, as path and text; [None]
    when the index is outside [projects] and the function returns at
    once.  (Whether the file can be opened is the file system's matter.) *)
Definition save_project_json (project_index : Z) (st : State)
    : option (list byte * list byte) :=
  if (project_index <? 0)%Z || (Z.of_nat (length (projects st)) <=? project_index)%Z
  then None
  else
    match projects st !! Z.to_nat project_index with
    | Some proj =>
        Some (export_folder st ++ txt "/" ++ folder_name proj
                ++ txt "/project.json",
              project_json proj)
    | None => None
    end.

(** [create_project]; [now] is the text of [get_iso_timestamp()].  The
    result is the new state and the file written by the call of
    [save_project_json]; the creation of the folder and the console line
    are left out. *)
Definition create_project (new_name new_description now : list byte)
    (st : State) : option (State * option (list byte * list byte)) :=
  folder ← sanitize_folder_name new_name;
  let proj := mkProject new_name folder new_description now in
  let projects' := projects st ++ [proj] in
  let st' := mkState projects' (Z.of_nat (length projects') - 1)
               (export_folder st) in
  Some (st', save_project_json (current_project_index st') st').

(** A click on entry [i] of the project combo of [draw_snapshot_panel],
    which lists [0 <= i < projects.size()]. *)
Definition select_project (i : nat) (st : State) : State :=
  if decide (i < length (projects st))
  then mkState (projects st) (Z.of_nat i) (export_folder st)
  else st.

(** [scan_projects].  [found] are the projects [load_project_json] read
    from the folders under [export_folder] and [now] the text of
    [get_iso_timestamp()]; [sorted] is the order in which [std::sort]
    leaves [g_app.projects] (equal names may come in any order).  The
    result is the new state and the file written for the Default
    project, if it had to be made. *)
Definition default_project (now : list byte) : Project :=
  mkProject (txt "Default") (txt "Default")
            (txt "Default project for uncategorized snapshots") now.

Definition scan_projects_unsorted (found : list Project) (now : list byte)
    : list Project :=
  if decide (found = []) then [default_project now] else found.

Definition scan_projects (found : list Project) (now : list byte)
    (sorted : list Project) (st : State)
    : State * option (list byte * list byte) :=
  let written :=
    if decide (found = [])
    then save_project_json 0
           (mkState (scan_projects_unsorted found now)
                    (current_project_index st) (export_folder st))
    else None in
  (mkState sorted
     (if (Z.of_nat (length sorted) <=? current_project_index st)%Z then 0%Z
      else current_project_index st)
     (export_folder st),
   written).

(** The selection names a project, or there is none yet. *)
Definition valid_selection (st : State) : Prop :=
  (0 <= current_project_index st)%Z /\
  (projects st = [] \/
   (current_project_index st < Z.of_nat (length (projects st)))%Z).

(** What the program does to the project fields: [scan_projects] at
    start-up, [create_project] from the dialog, a click in the combo. *)
Inductive Op :=
| ScanProjects (found : list Project) (now : list byte)
               (sorted : list Project)
| CreateProject (new_name new_description now : list byte)
| SelectProject (i : nat).

(** [std::sort] reorders the list it is given. *)
Definition sort_result (op : Op) : Prop :=
  match op with
  | ScanProjects found now sorted =>
      Permutation sorted (scan_projects_unsorted found now)
  | _ => True
  end.

Definition apply_op (op : Op) (st : State) : option State :=
  match op with
  | ScanProjects found now sorted => Some (scan_projects found now sorted st).1
  | CreateProject n d now => fst <$> create_project n d now st
  | SelectProject i => Some (select_project i st)
  end.

Fixpoint run_ops (ops : list Op) (st : State) : option State :=
  match ops with
  | [] => Some st
  | op :: rest => st' ← apply_op op st; run_ops rest st'
  end.

(** *** std::string searches used by [load_project_json] *)

Fixpoint starts_with (pat s : list byte) : bool :=
  match pat, s with
  | [], _ => true
  | _ :: _, [] => false
  | p :: pat', c :: s' => Byte.eqb p c && starts_with pat' s'
  end.

(** [s.find(pat)]: the first position where [pat] occurs; [None] is
    [npos]. *)
Fixpoint find (pat s : list byte) : option nat :=
  if starts_with pat s then Some 0
  else match s with
       | [] => None
       | _ :: s' => S <$> find pat s'
       end.

(** [s.find(c, from)]. *)
Definition find_char (c : byte) (s : list byte) (from : nat) : option nat :=
  (fun k => from + k) <$> find [c] (drop from s).

(** [s.rfind(c)]: the last position of [c]. *)
Fixpoint rfind_char (c : byte) (s : list byte) : option nat :=
  match s with
  | [] => None
  | b :: s' =>
      match rfind_char c s' with
      | Some k => Some (S k)
      | None => if Byte.eqb b c then Some 0 else None
      end
  end.

(** [s.substr(start, len)], for [start <= s.size()]. *)
Definition substr (s : list byte) (start len : nat) : list byte :=
  take len (drop start s).

(** The value between the first quote at or after [from] and the last
    quote of the line, if there is text between them.
    [start], one past the position [find] gives, is 0 when there is no
    such quote ([npos + 1] in [size_t]). *)
Definition quoted_value (line : list byte) (from : nat)
    : option (list byte) :=
  let start := match find_char x22 line from with
               | Some k => k + 1
               | None => 0
               end in
  match rfind_char x22 line with
  | Some e => if decide (start < e) then Some (substr line start (e - start))
              else None
  | None => Some (drop start line)
  end.

Definition key (k : list byte) : list byte := [x22] ++ k ++ [x22] ++ txt ":".

(** One turn of the [getline] loop. *)
Definition parse_line (line : list byte) (proj : Project) : Project :=
  match find (key (txt "name")) line with
  | Some pos =>
      match quoted_value line (pos + 7) with
      | Some v => mkProject v (folder_name proj) (description proj)
                            (created proj)
      | None => proj
      end
  | None =>
      match find (key (txt "description")) line with
      | Some pos =>
          match quoted_value line (pos + 14) with
          | Some v => mkProject (name proj) (folder_name proj) v
                                (created proj)
          | None => proj
          end
      | None =>
          match find (key (txt "created")) line with
          | Some pos =>
              match quoted_value line (pos + 10) with
              | Some v => mkProject (name proj) (folder_name proj)
                                    (description proj) v
              | None => proj
              end
          | None => proj
          end
      end
  end.

(** The text [s] does not hold the character [c]. *)
Definition lacks (c : byte) (s : list byte) : Prop :=
  Forall (fun b => b <> c) s.

(** A text that stays on one line of a file and is read back as it was
    written: the streams are opened in text mode, where reading ends at
    the character 0x1A. *)
Definition one_line (s : list byte) : Prop := lacks x0a s /\ lacks x1a s.

(** [std::getline] over the text of the file: the lines between the
    newline characters; a last line without newline counts when it is
    not empty. *)
Fixpoint lines_from (text cur : list byte) : list (list byte) :=
  match text with
  | [] => if decide (cur = []) then [] else [cur]
  | c :: rest =>
      if Byte.eqb c x0a then cur :: lines_from rest []
      else lines_from rest (cur ++ [c])
  end.

Definition getlines (text : list byte) : list (list byte) :=
  lines_from text [].

(** [load_project_json] on a file that could be opened and holds [text];
    the result is the return value and [proj] afterwards. *)
Definition load_project_json (text : list byte) (proj : Project)
    : bool * Project :=
  let proj' := foldl (fun p line => parse_line line p) proj (getlines text) in
  (negb (bool_decide (name proj' = [])), proj').

End Projects.

(** * Properties *)

(** ** Integers and vectors *)

Lemma byte_val_range (b : byte) : (0 <= byte_val b < 256)%Z.
Proof.
  unfold byte_val. pose proof (Byte.to_N_bounded b). lia.
Qed.

Lemma lor_shift8_range (a b : Z) :
  (0 <= a < 256)%Z -> (0 <= b < 256)%Z ->
  (0 <= Z.lor a (Z.shiftl b 8) < 2 ^ 16)%Z.
Proof.
  intros Ha Hb.
  assert (Hs : (0 <= Z.shiftl b 8)%Z) by (apply Z.shiftl_nonneg; lia).
  assert (Hl : (0 <= Z.lor a (Z.shiftl b 8))%Z) by (apply Z.lor_nonneg; lia).
  split; [exact Hl|].
  destruct (Z.eq_dec (Z.lor a (Z.shiftl b 8)) 0%Z) as [->|Hnz]; [lia|].
  apply Z.log2_lt_pow2; [lia|].
  rewrite Z.log2_lor by lia.
  apply Z.max_lub_lt.
  - destruct (Z.eq_dec a 0%Z) as [->|]; [simpl; lia|].
    apply Z.log2_lt_pow2; lia.
  - destruct (Z.eq_dec b 0%Z) as [->|]; [simpl; lia|].
    rewrite Z.log2_shiftl by lia.
    assert (Z.log2 b < 8)%Z by (apply Z.log2_lt_pow2; lia). lia.
Qed.

Lemma le16_no_wrap (low high : byte) :
  le16 low high = Z.lor (byte_val low) (Z.shiftl (byte_val high) 8).
Proof.
  unfold le16, wrap16. apply Z.mod_small.
  apply lor_shift8_range; apply byte_val_range.
Qed.

Lemma byte_eqb_refl (b : byte) : Byte.eqb b b = true.
Proof. by apply Byte.byte_dec_lb. Qed.

Lemma byte_eqb_neq (a b : byte) : a <> b -> Byte.eqb a b = false.
Proof.
  intros Hne. destruct (Byte.eqb a b) eqn:E; [|done].
  by apply Byte.byte_dec_bl in E.
Qed.

Lemma vec_write_Some {A} (v : list A) (i : nat) (x : A) :
  i < length v -> vec_write v i x = Some (<[i := x]> v).
Proof. intros Hi. unfold vec_write. by rewrite decide_True. Qed.

Lemma vec_write_length {A} (v v' : list A) (i : nat) (x : A) :
  vec_write v i x = Some v' -> length v' = length v /\ i < length v.
Proof.
  unfold vec_write. destruct (decide (i < length v)) as [Hi|]; [|done].
  intros [= <-]. by rewrite length_insert.
Qed.

Lemma insert_take_drop_step {A} (new old : list A) (i : nat) (v : A) :
  new !! i = Some v -> i < length old ->
  <[i := v]> (take i new ++ drop i old) = take (S i) new ++ drop (S i) old.
Proof.
  intros Hv Hi.
  assert (Hlen : length (take i new) = i).
  { apply length_take_le. apply lookup_lt_Some in Hv. lia. }
  destruct (lookup_lt_is_Some_2 old i Hi) as [w Hw].
  rewrite (take_S_r _ _ _ Hv), <- app_assoc.
  rewrite (drop_S _ _ _ Hw).
  rewrite insert_app_r_alt by lia.
  rewrite Hlen, Nat.sub_diag. reflexivity.
Qed.

(** ** The serial receiver: bounds and totality *)

Section SerialFacts.
Import Serial.

Lemma copy_loop_spec (todo : nat) :
  forall (i : nat) (temp spectrum : list Z),
    i + todo <= length temp -> i + todo <= length spectrum ->
    copy_loop todo i temp spectrum =
      Some (take i spectrum ++ take todo (drop i temp)
              ++ drop (i + todo) spectrum).
Proof.
  induction todo as [|todo IH]; intros i temp spectrum Ht Hs.
  - simpl. rewrite Nat.add_0_r, take_drop. reflexivity.
  - destruct (lookup_lt_is_Some_2 temp i) as [v Hv]; [lia|].
    simpl. rewrite Hv. simpl.
    rewrite vec_write_Some by lia. simpl.
    rewrite IH by (rewrite ?length_insert; lia).
    f_equal.
    rewrite (take_S_r _ _ v) by (apply list_lookup_insert_eq; lia).
    rewrite take_insert_ge by lia.
    rewrite drop_insert_lt by lia.
    rewrite (drop_S _ _ _ Hv). simpl.
    rewrite <- app_assoc. simpl.
    replace (i + S todo) with (S (i + todo)) by lia. reflexivity.
Qed.

Lemma publish_spec (l : Local) (g : AppState) :
  length (temp_pixels l) = CCD_PIXEL_COUNT ->
  length (spectrum_data g) = CCD_PIXEL_COUNT ->
  pixel_index l <= CCD_PIXEL_COUNT ->
  exists g',
    publish l g = Some g' /\
    spectrum_data g' =
      take (pixel_index l) (temp_pixels l)
        ++ drop (pixel_index l) (spectrum_data g) /\
    packets_received g' = wrap32 (packets_received g + 1) /\
    snapshot_data g' = snapshot_data g /\
    connection_mode g' = connection_mode g /\
    receiver_running g' = receiver_running g /\
    receiver_thread g' = receiver_thread g /\
    last_sequence g' = last_sequence g /\
    packets_per_second g' = packets_per_second g.
Proof.
  intros Ht Hs Hp.
  unfold publish.
  rewrite Nat.min_l by exact Hp.
  rewrite copy_loop_spec by lia.
  eexists. split; [reflexivity|]. simpl.
  rewrite drop_0. by repeat split.
Qed.

Lemma store_pixel_total (v : Z) (l : Local) :
  length (temp_pixels l) = CCD_PIXEL_COUNT ->
  exists l',
    store_pixel v l = Some l' /\
    buffer l' = buffer l /\
    receiving_frame l' = receiving_frame l /\
    last_stats_time l' = last_stats_time l /\
    packets_since_last l' = packets_since_last l /\
    length (temp_pixels l') = CCD_PIXEL_COUNT /\
    (pixel_index l <= CCD_PIXEL_COUNT -> pixel_index l' <= CCD_PIXEL_COUNT) /\
    pixel_index l' =
      (if decide (pixel_index l < CCD_PIXEL_COUNT)
       then S (pixel_index l) else pixel_index l) /\
    temp_pixels l' =
      (if decide (pixel_index l < CCD_PIXEL_COUNT)
       then <[pixel_index l := v]> (temp_pixels l) else temp_pixels l).
Proof.
  intros Ht. unfold store_pixel.
  destruct (decide (pixel_index l < CCD_PIXEL_COUNT)) as [Hlt|Hge].
  - rewrite vec_write_Some by lia. simpl.
    eexists. split; [reflexivity|]. simpl.
    rewrite length_insert. repeat split; try done; intros; lia.
  - exists l. by repeat split.
Qed.

Lemma find_start_le (buf : list byte) : find_start buf <= length buf.
Proof.
  induction buf as [|b rest IH]; simpl; [lia|].
  destruct (Byte.eqb b USB_PIXEL_START); lia.
Qed.

Lemma drain_loop_total (fuel : nat) :
  forall l : Local,
    length (buffer l) < fuel ->
    length (temp_pixels l) = CCD_PIXEL_COUNT ->
    pixel_index l <= CCD_PIXEL_COUNT ->
    exists l' evs,
      drain_loop fuel l = Some (l', evs) /\
      length (buffer l') < 4 /\
      length (temp_pixels l') = CCD_PIXEL_COUNT /\
      pixel_index l' <= CCD_PIXEL_COUNT /\
      receiving_frame l' = receiving_frame l /\
      last_stats_time l' = last_stats_time l /\
      packets_since_last l' = packets_since_last l.
Proof.
  induction fuel as [|fuel IH]; intros l Hfuel Ht Hp; [lia|].
  simpl.
  destruct (decide (4 <= length (buffer l))) as [Hfull|Hshort].
  2: { exists l, []. repeat split; try done. lia. }
  pose proof (find_start_le (buffer l)) as Hstart.
  remember (drop (find_start (buffer l)) (buffer l)) as buf eqn:Hbuf.
  assert (Hlen : length buf <= length (buffer l)).
  { subst buf. rewrite length_drop. lia. }
  destruct (decide (length buf < 4)) as [Hsmall|Hbig].
  { eexists _, _. split; [reflexivity|]. by repeat split. }
  destruct buf as [|b0 [|b1 [|b2 [|b3 rest]]]]; simpl in Hbig, Hlen; try lia.
  destruct (Byte.eqb b0 USB_PIXEL_START && Byte.eqb b3 USB_PIXEL_END).
  - destruct (store_pixel_total (le16 b1 b2) l Ht)
      as (l1 & -> & Hb1 & Hr1 & Hs1 & Hc1 & Ht1 & Hp1 & _).
    simpl.
    destruct (IH (set_buffer rest l1)) as (l2 & evs & -> & H2); simpl; auto; [lia|].
    destruct H2 as (? & ? & ? & ? & ? & ?). simpl in *.
    eexists _, _. split; [reflexivity|].
    repeat split; try done; congruence.
  - destruct (IH (set_buffer (b1 :: b2 :: b3 :: rest) l))
      as (l2 & evs & -> & H2); simpl; auto; [lia|].
    eexists _, _. split; [reflexivity|]. exact H2.
Qed.

(** Every iteration keeps the bounds and is defined: no read or write
    leaves its vector. *)
Lemma iteration_wf (r : Read) (now : Z) (l : Local) (g : AppState) :
  wf l g ->
  exists l' g' evs,
    iteration r now l g = Some (l', g', evs) /\ wf l' g'.
Proof.
  intros Hwf. pose proof Hwf as (Ht & Hs & Hp & Hb).
  destruct r as [|b]; simpl.
  { by exists l, g, []. }
  assert (Hfit : length (buffer l) < BUFFER_SIZE).
  { unfold BUFFER_SIZE. lia. }
  rewrite (decide_True _ _ Hfit).
  destruct (Byte.eqb b USB_FRAME_START).
  - simpl.
    destruct (receiving_frame l && bool_decide (0 < pixel_index l)).
    + destruct (publish_spec (set_buffer (buffer l ++ [b]) l) g)
        as (g' & Hpub & Hsp & _); simpl; try done.
      simpl in Hpub. unfold set_buffer in Hpub. simpl in Hpub.
      unfold set_buffer. simpl. 
      rewrite Hpub. simpl.
      eexists _, _, _. split; [reflexivity|].
      repeat split; simpl; try done; try lia.
      rewrite Hsp. simpl.
      rewrite length_app, length_take, length_drop. lia.
    + simpl. eexists _, _, _. split; [reflexivity|].
      repeat split; simpl; try done; lia.
  - unfold drain. simpl. destruct (receiving_frame l); simpl.
    + destruct (drain_loop_total (S (length (buffer l ++ [b])))
                  (set_buffer (buffer l ++ [b]) l))
        as (l2 & evs & Hd & Hb2 & Ht2 & Hp2 & _); simpl; try done; [lia|].
      simpl in Hd. rewrite Hd. simpl.
      unfold stats_tick.
      destruct (decide (1000 <= elapsed_ms now (last_stats_time l2))%Z);
        eexists _, _, _; (split; [reflexivity|]); by repeat split.
    + eexists _, _, _. split; [reflexivity|].
      repeat split; simpl; try done; lia.
Qed.

Lemma run_wf (inputs : list (Read * Z)) :
  forall (l : Local) (g : AppState),
    wf l g ->
    exists l' g' evs, run inputs l g = Some (l', g', evs) /\ wf l' g'.
Proof.
  induction inputs as [|[r now] rest IH]; intros l g Hwf; simpl.
  { by exists l, g, []. }
  destruct (iteration_wf r now l g Hwf) as (l1 & g1 & evs1 & -> & Hwf1).
  simpl.
  destruct (IH l1 g1 Hwf1) as (l2 & g2 & evs2 & -> & Hwf2). simpl.
  by eexists _, _, _.
Qed.

Lemma wf_init (now : Z) : wf (local_init now) app_init.
Proof.
  unfold wf.
  cbn [local_init app_init temp_pixels spectrum_data pixel_index buffer length].
  rewrite !length_replicate. repeat split; lia.
Qed.

(** ** The serial receiver: framing does not depend on the statistics *)

Lemma store_pixel_sim (v : Z) (l l0 : Local) :
  framing l = framing l0 ->
  match store_pixel v l, store_pixel v l0 with
  | Some a, Some b => framing a = framing b
  | None, None => True
  | _, _ => False
  end.
Proof.
  unfold framing. intros [= Hb Hp Hr Ht]. unfold store_pixel.
  rewrite Hp, Ht.
  destruct (decide (pixel_index l0 < CCD_PIXEL_COUNT)).
  - destruct (vec_write (temp_pixels l0) (pixel_index l0) v); simpl; [|done].
    congruence.
  - congruence.
Qed.

Lemma drain_loop_sim (fuel : nat) :
  forall l l0 : Local,
    framing l = framing l0 ->
    sim_local (drain_loop fuel l) (drain_loop fuel l0).
Proof.
  induction fuel as [|fuel IH]; intros l l0 Hf; [done|].
  pose proof Hf as Hf'. unfold framing in Hf'.
  injection Hf' as Hb Hp Hr Ht.
  simpl. rewrite Hb.
  destruct (decide (4 <= length (buffer l0))); [|done].
  destruct (decide (length (drop (find_start (buffer l0)) (buffer l0)) < 4)).
  { split; [|done]. unfold framing. simpl. congruence. }
  destruct (drop (find_start (buffer l0)) (buffer l0))
    as [|b0 [|b1 [|b2 [|b3 rest]]]]; try done.
  destruct (Byte.eqb b0 USB_PIXEL_START && Byte.eqb b3 USB_PIXEL_END).
  - pose proof (store_pixel_sim (le16 b1 b2) l l0 Hf) as Hst.
    destruct (store_pixel (le16 b1 b2) l) as [a|],
             (store_pixel (le16 b1 b2) l0) as [a0|]; try done.
    simpl.
    assert (Hfa : framing (set_buffer rest a) = framing (set_buffer rest a0)).
    { unfold framing in *. simpl. congruence. }
    specialize (IH _ _ Hfa).
    destruct (drain_loop fuel (set_buffer rest a)) as [[? ?]|],
             (drain_loop fuel (set_buffer rest a0)) as [[? ?]|]; try done.
    simpl. destruct IH as [? ->]. done.
  - assert (Hfa : framing (set_buffer (b1 :: b2 :: b3 :: rest) l)
                  = framing (set_buffer (b1 :: b2 :: b3 :: rest) l0)).
    { unfold framing in *. simpl. congruence. }
    specialize (IH _ _ Hfa).
    destruct (drain_loop fuel (set_buffer (b1 :: b2 :: b3 :: rest) l))
      as [[? ?]|],
      (drain_loop fuel (set_buffer (b1 :: b2 :: b3 :: rest) l0))
      as [[? ?]|]; try done.
    simpl. destruct IH as [? ->]. done.
Qed.

Lemma iteration_sim (r : Read) (now now0 : Z) (l l0 : Local) (g g0 : AppState) :
  core l g = core l0 g0 ->
  sim (iteration r now l g) (iteration r now0 l0 g0).
Proof.
  intros Hc. pose proof Hc as Hc'. unfold core, framing in Hc'.
  injection Hc' as Hb Hp Hr Ht Hs Hn.
  destruct r as [|b]; simpl; [done|].
  rewrite Hb.
  destruct (Byte.eqb b USB_FRAME_START).
  - destruct (decide (length (buffer l0) < BUFFER_SIZE)); simpl;
      rewrite Hr, Hp;
      (destruct (receiving_frame l0 && bool_decide (0 < pixel_index l0));
       [unfold publish; simpl; rewrite Hp, Ht, Hs;
        destruct (copy_loop _ 0 (temp_pixels l0) (spectrum_data g0)); simpl;
        [|done]
       |simpl]);
      (split; [|congruence]); unfold core, framing; simpl; congruence.
  - assert (Hf1 :
      framing (if decide (length (buffer l0) < BUFFER_SIZE)
               then set_buffer (buffer l0 ++ [b]) l else l) =
      framing (if decide (length (buffer l0) < BUFFER_SIZE)
               then set_buffer (buffer l0 ++ [b]) l0 else l0)).
    { destruct (decide (length (buffer l0) < BUFFER_SIZE));
        unfold framing; simpl; congruence. }
    set (l1 := if decide (length (buffer l0) < BUFFER_SIZE)
               then set_buffer (buffer l0 ++ [b]) l else l) in *.
    set (l1' := if decide (length (buffer l0) < BUFFER_SIZE)
                then set_buffer (buffer l0 ++ [b]) l0 else l0) in *.
    pose proof Hf1 as Hf1'. unfold framing in Hf1'.
    injection Hf1' as Hb1 Hp1 Hr1 Ht1.
    rewrite Hr1, Hb1.
    destruct (negb (receiving_frame l1')).
    { split; [|done]. unfold core, framing. simpl. congruence. }
    unfold drain. rewrite Hb1.
    pose proof (drain_loop_sim (S (length (buffer l1'))) l1 l1' Hf1) as Hd.
    destruct (drain_loop (S (length (buffer l1'))) l1) as [[l2 e2]|],
             (drain_loop (S (length (buffer l1'))) l1') as [[l2' e2']|];
      try done.
    destruct Hd as [Hf2 ->]. simpl.
    unfold stats_tick.
    unfold framing in Hf2. injection Hf2 as ? ? ? ?.
    destruct (decide (1000 <= elapsed_ms now (last_stats_time l2))%Z),
             (decide (1000 <= elapsed_ms now0 (last_stats_time l2'))%Z);
      (split; [|done]); unfold core, framing; simpl; congruence.
Qed.

Lemma run_feed_sim (inputs : list (Read * Z)) :
  forall (l l0 : Local) (g g0 : AppState),
    core l g = core l0 g0 ->
    sim (run inputs l g) (feed (bytes_of inputs) l0 g0).
Proof.
  induction inputs as [|[r now] rest IH]; intros l l0 g g0 Hc.
  { simpl. done. }
  destruct r as [|b].
  - simpl. specialize (IH l l0 g g0 Hc). 
    unfold feed in IH.
    destruct (run rest l g) as [[[? ?] ?]|]; simpl; exact IH.
  - pose proof (iteration_sim (GotByte b) now 0%Z l l0 g g0 Hc) as Hi.
    unfold feed. cbn [bytes_of omap fst list_omap map run].
    change (omap _ rest) with (bytes_of rest).
    destruct (iteration (GotByte b) now l g) as [[[l1 g1] e1]|],
             (iteration (GotByte b) 0%Z l0 g0) as [[[l1' g1'] e1']|];
      try done.
    destruct Hi as [Hc1 ->]. simpl.
    specialize (IH l1 l1' g1 g1' Hc1). unfold feed in IH.
    destruct (run rest l1 g1) as [[[? ?] ?]|],
             (run (map _ (bytes_of rest)) l1' g1') as [[[? ?] ?]|]; try done.
    simpl. destruct IH as [? ->]. done.
Qed.

(** ** The serial receiver: one byte at a time *)

Arguments iteration : simpl never.

Lemma bytes_of_feed (bs : list byte) :
  bytes_of (map (fun b => (GotByte b, 0%Z)) bs) = bs.
Proof.
  induction bs as [|b bs IH]; [done|].
  change (b :: bytes_of (map (fun b => (GotByte b, 0%Z)) bs) = b :: bs).
  by rewrite IH.
Qed.

Lemma run_app (i1 i2 : list (Read * Z)) :
  forall (l : Local) (g : AppState),
    run (i1 ++ i2) l g =
      '(l1, g1, e1) ← run i1 l g;
      '(l2, g2, e2) ← run i2 l1 g1;
      Some (l2, g2, e1 ++ e2).
Proof.
  induction i1 as [|[r now] rest IH]; intros l g; simpl.
  { destruct (run i2 l g) as [[[? ?] ?]|]; done. }
  destruct (iteration r now l g) as [[[l1 g1] e1]|]; simpl; [|done].
  rewrite IH.
  destruct (run rest l1 g1) as [[[l2 g2] e2]|]; simpl; [|done].
  destruct (run i2 l2 g2) as [[[l3 g3] e3]|]; simpl; [|done].
  by rewrite app_assoc.
Qed.

Lemma feed_app (bs1 bs2 : list byte) (l : Local) (g : AppState) :
  feed (bs1 ++ bs2) l g =
    '(l1, g1, e1) ← feed bs1 l g;
    '(l2, g2, e2) ← feed bs2 l1 g1;
    Some (l2, g2, e1 ++ e2).
Proof. unfold feed. rewrite map_app. apply run_app. Qed.

Lemma feed_one (b : byte) (l : Local) (g : AppState) :
  feed [b] l g = iteration (GotByte b) 0%Z l g.
Proof.
  unfold feed. simpl.
  destruct (iteration (GotByte b) 0%Z l g) as [[[? ?] ?]|]; simpl; [|done].
  by rewrite app_nil_r.
Qed.

Lemma drain_loop_stats (fuel : nat) :
  forall (l l' : Local) (evs : list Event),
    drain_loop fuel l = Some (l', evs) ->
    receiving_frame l' = receiving_frame l /\
    last_stats_time l' = last_stats_time l /\
    packets_since_last l' = packets_since_last l.
Proof.
  induction fuel as [|fuel IH]; intros l l' evs; [done|].
  simpl.
  destruct (decide (4 <= length (buffer l))); [|by intros [= <- <-]].
  destruct (decide (length (drop (find_start (buffer l)) (buffer l)) < 4)).
  { by intros [= <- <-]. }
  destruct (drop (find_start (buffer l)) (buffer l))
    as [|b0 [|b1 [|b2 [|b3 rest]]]]; try done.
  destruct (Byte.eqb b0 USB_PIXEL_START && Byte.eqb b3 USB_PIXEL_END).
  - unfold store_pixel.
    destruct (decide (pixel_index l < CCD_PIXEL_COUNT)).
    + destruct (vec_write (temp_pixels l) (pixel_index l) (le16 b1 b2));
        simpl; [|done].
      destruct (drain_loop fuel _) as [[l3 e3]|] eqn:E; simpl; [|done].
      intros [= <- <-]. by apply IH in E.
    + simpl.
      destruct (drain_loop fuel _) as [[l3 e3]|] eqn:E; simpl; [|done].
      intros [= <- <-]. by apply IH in E.
  - destruct (drain_loop fuel _) as [[l3 e3]|] eqn:E; simpl; [|done].
    intros [= <- <-]. by apply IH in E.
Qed.

Lemma stats_tick_idle (l : Local) (g : AppState) :
  stats_tick (last_stats_time l) l g = (l, g).
Proof.
  unfold stats_tick, elapsed_ms.
  rewrite Z.sub_diag, Z.quot_0_l by lia. by rewrite decide_False by lia.
Qed.

(** A byte other than the frame-start marker, read while a frame is in
    progress and the clock stands at the window start, is appended and the
    window drained. *)
Lemma feed_data (b : byte) (l : Local) (g : AppState) :
  b <> USB_FRAME_START ->
  receiving_frame l = true ->
  last_stats_time l = 0%Z ->
  length (buffer l) < 4 ->
  feed [b] l g =
    '(l2, evs) ← drain (set_buffer (buffer l ++ [b]) l); Some (l2, g, evs).
Proof.
  intros Hb Hr Ht Hlen. rewrite feed_one. unfold iteration.
  rewrite decide_True by (unfold BUFFER_SIZE; lia).
  rewrite (byte_eqb_neq _ _ Hb). simpl. rewrite Hr. simpl.
  destruct (drain _) as [[l2 evs]|] eqn:E; simpl; [|done].
  apply drain_loop_stats in E as (_ & Hs & _). simpl in Hs.
  rewrite <- Ht, <- Hs. by rewrite stats_tick_idle.
Qed.

Lemma sample_le16 (r : byte * byte) : le16 (fst r) (snd r) = sample r.
Proof. apply le16_no_wrap. Qed.

Lemma feed_cons (b : byte) (bs : list byte) (l : Local) (g : AppState) :
  feed (b :: bs) l g =
    '(l1, g1, e1) ← feed [b] l g;
    '(l2, g2, e2) ← feed bs l1 g1;
    Some (l2, g2, e1 ++ e2).
Proof. apply (feed_app [b] bs). Qed.

Lemma neq_pixel_start_eqb (b : byte) :
  b <> USB_PIXEL_START -> Byte.eqb b USB_PIXEL_START = false.
Proof. apply byte_eqb_neq. Qed.

Ltac feed_byte :=
  rewrite (feed_cons _ (_ :: _));
  rewrite feed_data by (simpl; first [done | lia]);
  unfold drain; simpl;
  repeat match goal with
         | H : Byte.eqb _ _ = false |- _ => rewrite !H
         end;
  simpl.

Ltac feed_last :=
  rewrite feed_data by (simpl; first [done | lia]);
  unfold drain; simpl;
  repeat match goal with
         | H : Byte.eqb _ _ = false |- _ => rewrite !H
         end;
  simpl.

(** A clean record read into a window holding up to three bytes that are
    no pixel-start marker: those bytes are discarded, the record is
    decoded, and the window is empty again. *)
Lemma feed_record_junk (r : byte * byte) (l : Local) (g : AppState) :
  clean r ->
  Forall (fun b => b <> USB_PIXEL_START) (buffer l) ->
  length (buffer l) <= 3 ->
  receiving_frame l = true ->
  last_stats_time l = 0%Z ->
  feed (record_bytes r) l g =
    l' ← store_pixel (sample r) (set_buffer [] l);
    Some (l', g, discard (length (buffer l))).
Proof.
  intros [Hlo Hhi] Hjunk Hlen Hr Ht.
  destruct r as [lo hi]. destruct l as [buf pi rf temp t psl ptf].
  simpl in *. subst rf t.
  unfold record_bytes. simpl. rewrite <- (sample_le16 (lo, hi)). simpl.
  destruct buf as [|j1 [|j2 [|j3 [|j4 rest]]]]; simpl in Hlen; [| | | |lia];
    repeat match goal with
           | H : Forall _ (_ :: _) |- _ =>
               apply Forall_cons in H as [?%neq_pixel_start_eqb H]
           end;
    do 3 feed_byte; feed_last; unfold store_pixel, set_buffer; simpl;
    (destruct (decide (pi < CCD_PIXEL_COUNT)); simpl; [|done]);
    destruct (vec_write temp pi (le16 lo hi)); done.
Qed.

Lemma feed_records_aligned (recs : list (byte * byte)) :
  forall (l : Local) (g : AppState),
    Forall clean recs ->
    buffer l = [] ->
    receiving_frame l = true ->
    last_stats_time l = 0%Z ->
    length (temp_pixels l) = CCD_PIXEL_COUNT ->
    pixel_index l <= CCD_PIXEL_COUNT ->
    exists l',
      feed (encode recs) l g = Some (l', g, []) /\
      buffer l' = [] /\
      receiving_frame l' = true /\
      last_stats_time l' = 0%Z /\
      length (temp_pixels l') = CCD_PIXEL_COUNT /\
      pixel_index l' = min (pixel_index l + length recs) CCD_PIXEL_COUNT /\
      decoded l' = take CCD_PIXEL_COUNT (decoded l ++ map sample recs).
Proof.
  induction recs as [|r rest IH]; intros l g Hclean Hb Hr Ht Hlen Hp.
  - exists l. unfold feed. simpl. rewrite app_nil_r.
    repeat split; try done; [lia|].
    rewrite take_ge; [done|]. unfold decoded. rewrite length_take. lia.
  - apply Forall_cons in Hclean as [Hr0 Hrest].
    change (encode (r :: rest)) with (record_bytes r ++ encode rest).
    rewrite feed_app.
    rewrite feed_record_junk; try done; [|by rewrite Hb|rewrite Hb; simpl; lia].
    destruct (store_pixel_total (sample r) (set_buffer [] l))
      as (l1 & Hst & Hb1 & Hr1 & Ht1 & _ & Hlen1 & Hp1 & Hpi1 & Htemp1);
      [done|].
    rewrite Hst. simpl in *. rewrite Hb. simpl.
    destruct (IH l1 g) as (l2 & Hfeed & Hb2 & Hr2 & Ht2 & Hlen2 & Hp2 & Hdec2);
      try done; try congruence; [by apply Hp1|].
    rewrite Hfeed. simpl.
    exists l2. repeat split; try done.
    + rewrite Hp2, Hpi1.
      destruct (decide (pixel_index l < CCD_PIXEL_COUNT)); lia.
    + rewrite Hdec2. unfold decoded at 1. rewrite Hpi1, Htemp1.
      destruct (decide (pixel_index l < CCD_PIXEL_COUNT)) as [Hlt|Hge].
      * rewrite (take_S_r _ _ (sample r))
          by (apply list_lookup_insert_eq; lia).
        rewrite take_insert_ge by lia.
        by rewrite <- app_assoc.
      * fold (decoded l).
        assert (Hfull : CCD_PIXEL_COUNT <= length (decoded l)).
        { unfold decoded. rewrite length_take. lia. }
        by rewrite !take_app_le.
Qed.

(** The frame-start marker: the frame in progress, if it has a sample, is
    published; the window is cleared and a new frame begins. *)
Lemma feed_marker (l : Local) (g : AppState) :
  length (buffer l) < 4 ->
  length (temp_pixels l) = CCD_PIXEL_COUNT ->
  length (spectrum_data g) = CCD_PIXEL_COUNT ->
  pixel_index l <= CCD_PIXEL_COUNT ->
  exists l' g',
    feed [USB_FRAME_START] l g =
      Some (l', g',
            (if receiving_frame l && bool_decide (0 < pixel_index l)
             then [FrameComplete (pixel_index l)] else [])
              ++ discard (length (buffer l))) /\
    buffer l' = [] /\ pixel_index l' = 0 /\ receiving_frame l' = true /\
    temp_pixels l' = temp_pixels l /\
    last_stats_time l' = last_stats_time l /\
    (if receiving_frame l && bool_decide (0 < pixel_index l)
     then spectrum_data g' = decoded l ++ drop (pixel_index l) (spectrum_data g)
          /\ packets_received g' = wrap32 (packets_received g + 1)
     else g' = g).
Proof.
  intros Hb Ht Hs Hp. rewrite feed_one. unfold iteration.
  rewrite decide_True by (unfold BUFFER_SIZE; lia).
  change (Byte.eqb USB_FRAME_START USB_FRAME_START) with true.
  cbn [receiving_frame pixel_index set_buffer].
  destruct (receiving_frame l && bool_decide (0 < pixel_index l)).
  - destruct (publish_spec (set_buffer (buffer l ++ [USB_FRAME_START]) l) g)
      as (g' & Hpub & Hsp & Hn & _); try done.
    rewrite Hpub. simpl.
    eexists _, g'. split; [reflexivity|]. by repeat split.
  - simpl. eexists _, g. split; [reflexivity|]. by repeat split.
Qed.

Lemma take_min_length {A} (xs : list A) (m : nat) :
  take (min (length xs) m) xs = take m xs.
Proof.
  destruct (le_lt_dec (length xs) m).
  - rewrite Nat.min_l by lia. by rewrite !take_ge by lia.
  - by rewrite Nat.min_r by lia.
Qed.

(** From any state within bounds, the loop fed a frame-start marker is in
    the state "frame started". *)
Lemma run_marker (inputs : list (Read * Z)) (l : Local) (g : AppState) :
  wf l g ->
  bytes_of inputs = [USB_FRAME_START] ->
  exists l1 g1 evs1,
    run inputs l g = Some (l1, g1, evs1) /\ wf l1 g1 /\
    buffer l1 = [] /\ pixel_index l1 = 0 /\ receiving_frame l1 = true.
Proof.
  intros Hwf Hbytes.
  destruct (run_wf inputs l g Hwf) as (l1 & g1 & evs1 & Hrun & Hwf1).
  exists l1, g1, evs1. split; [done|]. split; [done|].
  pose proof (run_feed_sim inputs l l g g eq_refl) as Hsim.
  rewrite Hbytes, Hrun in Hsim.
  destruct Hwf as (Ht & Hs & Hp & Hb).
  destruct (feed_marker l g Hb Ht Hs Hp)
    as (l' & g' & Hfeed & Hb' & Hp' & Hr' & _).
  rewrite Hfeed in Hsim. destruct Hsim as [Hcore _].
  unfold core, framing in Hcore. injection Hcore as -> -> -> _ _ _.
  done.
Qed.

(** After the marker, [recs] clean records and the next marker publish one
    frame. *)
Lemma run_frame (recs : list (byte * byte)) (inputs : list (Read * Z))
    (l : Local) (g : AppState) :
  wf l g -> buffer l = [] -> pixel_index l = 0 -> receiving_frame l = true ->
  recs <> [] -> Forall clean recs ->
  bytes_of inputs = encode recs ++ [USB_FRAME_START] ->
  exists l2 g2,
    run inputs l g =
      Some (l2, g2, [FrameComplete (min (length recs) CCD_PIXEL_COUNT)]) /\
    spectrum_data g2 =
      take (min (length recs) CCD_PIXEL_COUNT) (map sample recs)
        ++ drop (min (length recs) CCD_PIXEL_COUNT) (spectrum_data g) /\
    packets_received g2 = wrap32 (packets_received g + 1) /\
    wf l2 g2 /\ buffer l2 = [] /\ pixel_index l2 = 0 /\
    receiving_frame l2 = true.
Proof.
  intros Hwf Hb Hp Hr Hne Hclean Hbytes.
  destruct (run_wf inputs l g Hwf) as (l2 & g2 & evs2 & Hrun & Hwf2).
  pose proof (run_feed_sim inputs l (at_clock0 l) g g eq_refl) as Hsim.
  rewrite Hbytes, Hrun, feed_app in Hsim.
  destruct Hwf as (Ht & Hs & Hpi & Hbl).
  destruct (feed_records_aligned recs (at_clock0 l) g)
    as (la & Hfa & Hba & Hra & Hta & Hlena & Hpa & Hdeca); try done.
  rewrite Hfa in Hsim. simpl in Hsim.
  assert (Hdec0 : decoded (at_clock0 l) = []).
  { unfold decoded, at_clock0. simpl. by rewrite Hp. }
  rewrite Hdec0 in Hdeca. simpl in Hpa, Hdeca. rewrite Hp in Hpa.
  simpl in Hpa.
  assert (Hpos : 0 < pixel_index la).
  { rewrite Hpa. destruct recs; [done|]. simpl. unfold CCD_PIXEL_COUNT. lia. }
  destruct (feed_marker la g) as (lb & gb & Hfb & Hbb & Hpb & Hrb & _ & _ & Hpub);
    try done; [rewrite Hba; simpl; lia | lia |].
  rewrite Hra in Hfb, Hpub. rewrite bool_decide_true in Hfb, Hpub by done.
  simpl in Hfb, Hpub. rewrite Hba in Hfb. simpl in Hfb.
  rewrite Hfb in Hsim. simpl in Hsim.
  destruct Hsim as [Hcore ->]. destruct Hpub as [Hsp Hn].
  unfold core, framing in Hcore.
  injection Hcore as Hb2 Hp2 Hr2 _ Hs2 Hn2.
  exists l2, g2. rewrite <- Hpa. split; [done|].
  split.
  { rewrite Hs2, Hsp, Hdeca. f_equal.
    by rewrite Hpa, <- (take_min_length (map sample recs)), length_map. }
  split; [by rewrite Hn2|].
  split; [done|]. by rewrite Hb2, Hp2, Hr2.
Qed.

(** ** The serial receiver: a record with a broken marker *)




Lemma frames_of_app (e1 e2 : list Event) :
  frames_of (e1 ++ e2) = frames_of e1 ++ frames_of e2.
Proof. unfold frames_of. apply omap_app. Qed.

Lemma frames_of_discard (k : nat) : frames_of (discard k) = [].
Proof. by destruct k. Qed.

Local Arguments store_pixel : simpl never.








End SerialFacts.

(** ** The datagram receiver *)

Section UdpFacts.
Import Udp.

Lemma store_datagram_length (data buf : list byte) :
  length (store_datagram data buf) = length buf.
Proof.
  unfold store_datagram.
  rewrite length_app, length_drop, !length_take. lia.
Qed.

Lemma pixel_at_defined (buf : list byte) (i : nat) :
  length buf = BUFFER_SIZE -> i < CCD_PIXEL_COUNT ->
  exists v, pixel_at buf i = Some v.
Proof.
  intros Hlen Hi. unfold pixel_at.
  destruct (lookup_lt_is_Some_2 buf (HEADER_SIZE + 2 * i)) as [b0 ->].
  { rewrite Hlen. unfold BUFFER_SIZE, HEADER_SIZE. lia. }
  destruct (lookup_lt_is_Some_2 buf (HEADER_SIZE + 2 * i + 1)) as [b1 ->].
  { rewrite Hlen. unfold BUFFER_SIZE, HEADER_SIZE. lia. }
  simpl. by eexists.
Qed.

Lemma copy_loop_total (todo : nat) :
  forall (i : nat) (buf : list byte) (spectrum : list Z),
    length buf = BUFFER_SIZE ->
    length spectrum = CCD_PIXEL_COUNT ->
    i + todo <= CCD_PIXEL_COUNT ->
    exists out,
      copy_loop todo i buf spectrum = Some out /\
      length out = CCD_PIXEL_COUNT /\
      drop (i + todo) out = drop (i + todo) spectrum.
Proof.
  induction todo as [|todo IH]; intros i buf spectrum Hb Hs Hi; simpl.
  { by exists spectrum. }
  destruct (pixel_at_defined buf i Hb) as [v ->]; [lia|]. simpl.
  rewrite vec_write_Some by lia. simpl.
  destruct (IH (S i) buf (<[i := v]> spectrum)) as (out & -> & Hlen & Hdrop);
    rewrite ?length_insert; try done; [lia|].
  exists out. split; [done|]. split; [done|].
  replace (i + S todo) with (S i + todo) by lia.
  rewrite Hdrop. apply drop_insert_lt. lia.
Qed.

Lemma header_defined (buf : list byte) :
  length buf = BUFFER_SIZE ->
  (exists b0, buf !! 0 = Some b0) /\
  (exists count, header_pixel_count buf = Some count /\ (0 <= count)%Z) /\
  (exists seq, header_sequence_num buf = Some seq).
Proof.
  intros Hlen.
  assert (Hlt : forall k, k < 13 -> exists b, buf !! k = Some b).
  { intros k Hk. apply lookup_lt_is_Some_2. rewrite Hlen.
    unfold BUFFER_SIZE, HEADER_SIZE. lia. }
  split; [apply Hlt; lia|]. split.
  - unfold header_pixel_count.
    destruct (Hlt 9) as [b0 ->]; [lia|]. destruct (Hlt 10) as [b1 ->]; [lia|].
    simpl. eexists. split; [done|]. unfold le16, wrap16.
    apply Z.mod_pos_bound. lia.
  - unfold header_sequence_num.
    destruct (Hlt 1) as [b0 ->]; [lia|]. destruct (Hlt 2) as [b1 ->]; [lia|].
    destruct (Hlt 3) as [b2 ->]; [lia|]. destruct (Hlt 4) as [b3 ->]; [lia|].
    simpl. by eexists.
Qed.

Lemma decode_wf (ret : Z) (l : Local) (g : AppState) :
  wf l g -> exists l' g', decode ret l g = Some (l', g') /\ wf l' g'.
Proof.
  intros [Hb Hs]. unfold decode.
  destruct (bool_decide (0 < ret)%Z && bool_decide (Z.of_nat HEADER_SIZE <= ret)%Z);
    [|by exists l, g].
  destruct (header_defined (buffer l) Hb)
    as ([b0 ->] & (count & -> & Hcount) & [seq ->]).
  simpl. destruct (Byte.eqb b0 MAGIC); [|by exists l, g].
  destruct (decide (count <= Z.of_nat CCD_PIXEL_COUNT)%Z); [|by exists l, g].
  destruct (copy_loop_total (Z.to_nat count) 0 (buffer l) (spectrum_data g))
    as (out & -> & Hlen & _); try done; [lia|].
  simpl. eexists _, _. split; [reflexivity|]. by split.
Qed.

Lemma decode_rejected (ret : Z) (l : Local) (g : AppState) :
  wf l g -> rejected ret (buffer l) -> decode ret l g = Some (l, g).
Proof.
  intros [Hb Hs] Hrej. unfold decode.
  destruct (bool_decide (0 < ret)%Z && bool_decide (Z.of_nat HEADER_SIZE <= ret)%Z)
    eqn:Hguard; [|done].
  apply andb_prop in Hguard as [_ Hge%bool_decide_eq_true].
  destruct (header_defined (buffer l) Hb)
    as ([b0 Hb0] & (count & Hcount & _) & _).
  rewrite Hb0, Hcount. simpl.
  destruct Hrej as [Hshort|[Hmagic|(count' & Hcount' & Hbig)]].
  - lia.
  - rewrite byte_eqb_neq; [done|]. congruence.
  - destruct (Byte.eqb b0 MAGIC); [|done].
    rewrite decide_False; [done|]. rewrite Hcount in Hcount'.
    injection Hcount' as <-. lia.
Qed.

Lemma iteration_wf_udp (r : Recv) (now : Z) (l : Local) (g : AppState) :
  wf l g -> exists l' g', iteration r now l g = Some (l', g') /\ wf l' g'.
Proof.
  intros [Hb Hs]. unfold iteration.
  destruct (decode_wf (recv_ret r)
              (mkLocal (store_datagram (recv_data r) (buffer l))
                       (last_stats_time l) (packets_since_last l)) g)
    as (l2 & g2 & -> & Hb2 & Hs2).
  { split; simpl; [|done]. by rewrite store_datagram_length. }
  simpl. unfold stats_tick.
  destruct (decide (1000 <= elapsed_ms now (last_stats_time l2))%Z);
    eexists _, _; (split; [reflexivity|]); by split.
Qed.

End UdpFacts.

(** ** Channel start and stop *)

Section ChannelFacts.
Import Channel.

Lemma serial_iteration_lifecycle r now l g l' g' evs :
  Serial.iteration r now l g = Some (l', g', evs) ->
  lifecycle g' = lifecycle g.
Proof.
  unfold Serial.iteration. destruct r as [|b]; [by intros [= _ <- _]|].
  destruct (Byte.eqb b USB_FRAME_START).
  - destruct (_ && _).
    + unfold Serial.publish.
      destruct (Serial.copy_loop _ _ _ _); simpl; [|done].
      by intros [= _ <- _].
    + simpl. by intros [= _ <- _].
  - destruct (negb _); [by intros [= _ <- _]|].
    destruct (Serial.drain _) as [[l2 e2]|]; simpl; [|done].
    unfold Serial.stats_tick. destruct (decide _); by intros [= _ <- _].
Qed.

Lemma udp_iteration_lifecycle r now l g l' g' :
  Udp.iteration r now l g = Some (l', g') -> lifecycle g' = lifecycle g.
Proof.
  unfold Udp.iteration.
  destruct (Udp.decode _ _ _) as [[l2 g2]|] eqn:Hdec; simpl; [|done].
  assert (Hg2 : lifecycle g2 = lifecycle g).
  { revert Hdec. unfold Udp.decode.
    destruct (_ && _); [|by intros [= _ <-]].
    destruct (_ !! 0) as [b0|]; simpl; [|done].
    destruct (Byte.eqb b0 Udp.MAGIC); [|by intros [= _ <-]].
    destruct (Udp.header_pixel_count _) as [count|]; simpl; [|done].
    destruct (decide _); [|by intros [= _ <-]].
    destruct (Udp.copy_loop _ _ _ _); simpl; [|done].
    destruct (Udp.header_sequence_num _); simpl; [|done].
    by intros [= _ <-]. }
  unfold Udp.stats_tick. destruct (decide _); intros [= _ <-]; by rewrite <- Hg2.
Qed.

Lemma consistent_lifecycle (g g' : AppState) :
  lifecycle g' = lifecycle g -> consistent g -> consistent g'.
Proof.
  unfold lifecycle. intros [= Hm Hr Ht].
  unfold consistent, disconnected, streaming.
  rewrite Hm, Hr, Ht. done.
Qed.

Lemma stop_disconnects (g : AppState) : disconnected (stop_receiver g).
Proof.
  destruct g as [sp sn fr m run th us sh pr ls pps].
  unfold stop_receiver, disconnected, close_serial_port. simpl.
  destruct th; simpl; destruct m; simpl;
    try destruct us; try destruct sh; done.
Qed.

(** A start called on a disconnected channel returns; it returns [true]
    exactly when the transport could be opened, and then the channel
    streams; otherwise the channel is still disconnected. *)
Lemma start_usb_disconnected (h : option Z) (g : AppState) :
  disconnected g ->
  exists g',
    start_usb_receiver h g = Returns (bool_decide (h <> None)) g' /\
    (if bool_decide (h <> None) then streaming ModeUSB g' else disconnected g').
Proof.
  intros (Hm & Hr & Ht). unfold start_usb_receiver, open_serial_port.
  destruct h as [h|]; simpl.
  - unfold spawn. simpl. rewrite Ht. eexists. split; [reflexivity|].
    by repeat split.
  - eexists. split; [reflexivity|]. by repeat split.
Qed.

Lemma start_udp_disconnected (e : UdpEnv) (g : AppState) :
  disconnected g ->
  let ok := wsa_startup_ok e && bool_decide (socket_result e <> None)
            && bind_ok e in
  exists g',
    start_udp_receiver e g = Returns ok g' /\
    (if ok then streaming ModeUDP g' else disconnected g').
Proof.
  intros (Hm & Hr & Ht). unfold start_udp_receiver.
  destruct e as [[|] [s|] [|]]; simpl;
    try (eexists; split; [reflexivity|]; by repeat split).
  unfold spawn. simpl. rewrite Ht. eexists. split; [reflexivity|].
  by repeat split.
Qed.

(** A start called while the channel streams does not return [true]: it
    reports failure and leaves the channel streaming, or the process
    ends. *)
Lemma start_while_streaming (c : Call) (kind : ConnectionMode) (g : AppState) :
  is_start c = true -> streaming kind g ->
  call c g = Terminates \/
  exists g', call c g = Returns false g' /\ streaming kind g'.
Proof.
  intros Hc (Hk & Hm & Hr & Ht).
  destruct c as [h|e|]; [| |done]; simpl.
  - unfold start_usb_receiver, open_serial_port.
    destruct h as [h|]; simpl.
    + left. unfold spawn. simpl. by rewrite Ht.
    + right. eexists. split; [reflexivity|]. by repeat split.
  - unfold start_udp_receiver.
    destruct e as [[|] [s|] [|]]; simpl;
      try (right; eexists; split; [reflexivity|]; by repeat split).
    left. unfold spawn. simpl. by rewrite Ht.
Qed.

Lemma call_consistent (c : Call) (g g' : AppState) (r : bool) :
  consistent g -> call c g = Returns r g' -> consistent g'.
Proof.
  intros Hg Hcall.
  destruct c as [h|e|].
  - destruct Hg as [Hd|[k Hs]].
    + destruct (start_usb_disconnected h g Hd) as (g1 & Heq & Hres).
      simpl in Hcall. rewrite Heq in Hcall. injection Hcall as <- <-.
      destruct (bool_decide _); [right; by eexists | by left].
    + destruct (start_while_streaming (StartUsb h) k g eq_refl Hs)
        as [Hterm|(g1 & Heq & Hs1)]; rewrite Hcall in *; [done|].
      injection Heq as ? ?; subst. right. by eexists.
  - destruct Hg as [Hd|[k Hs]].
    + destruct (start_udp_disconnected e g Hd) as (g1 & Heq & Hres).
      simpl in Hcall. rewrite Heq in Hcall. injection Hcall as <- <-.
      destruct (_ && _); [right; by eexists | by left].
    + destruct (start_while_streaming (StartUdp e) k g eq_refl Hs)
        as [Hterm|(g1 & Heq & Hs1)]; rewrite Hcall in *; [done|].
      injection Heq as ? ?; subst. right. by eexists.
  - simpl in Hcall. injection Hcall as <- <-. left. apply stop_disconnects.
Qed.

Lemma reachable_consistent (g : AppState) : reachable g -> consistent g.
Proof.
  induction 1 as [|c g r g' _ IH Hcall|r now l g l' g' evs _ IH Hit
                  |r now l g l' g' _ IH Hit|g _ IH].
  - by left.
  - by eapply call_consistent.
  - eapply consistent_lifecycle; [|exact IH].
    by eapply serial_iteration_lifecycle.
  - eapply consistent_lifecycle; [|exact IH].
    by eapply udp_iteration_lifecycle.
  - by eapply consistent_lifecycle; [|exact IH].
Qed.

(** Driven by the controls panel the start functions are called on a
    disconnected channel only: the process never ends there, and the
    channel state stays consistent. *)
Lemma controls_panel_returns (click : Click) (h : option Z) (e : UdpEnv)
    (g : AppState) :
  consistent g ->
  exists r g', draw_controls_panel click h e g = Returns r g' /\ consistent g'.
Proof.
  intros Hg. unfold draw_controls_panel.
  destruct Hg as [Hd|[k Hs]].
  - pose proof Hd as (Hm & _). rewrite Hm.
    destruct click; try (by eexists _, g; split; [|left]).
    + destruct (start_usb_disconnected h g Hd) as (g' & Heq & Hres).
      eexists _, g'. split; [exact Heq|].
      destruct (bool_decide _); [right; by eexists | by left].
    + destruct (start_udp_disconnected e g Hd) as (g' & Heq & Hres).
      eexists _, g'. split; [exact Heq|].
      destruct (_ && _); [right; by eexists | by left].
  - pose proof Hs as (Hk & Hm & _). rewrite Hm.
    destruct k; [done| |];
      (destruct click;
       [by eexists _, g; split; [|right; eexists]
       |by eexists _, g; split; [|right; eexists]
       |by eexists _, g; split; [|right; eexists]
       |eexists _, _; split; [reflexivity|left; apply stop_disconnects]]).
Qed.

Lemma streaming_not_disconnected (kind : ConnectionMode) (g : AppState) :
  streaming kind g -> ~ disconnected g.
Proof. intros (Hk & Hm & _) (Hm' & _). congruence. Qed.

(** Between a state streaming one kind and a later state streaming
    another, [stop_receiver] was called. *)
Lemma switch_needs_stop (cs : list Call) :
  forall (g g' : AppState) (k k' : ConnectionMode),
    streaming k g -> calls cs g = Some g' -> streaming k' g' -> k <> k' ->
    Stop ∈ cs.
Proof.
  induction cs as [|c cs IH]; intros g g' k k' Hs Hcalls Hs' Hne.
  - injection Hcalls as <-.
    destruct Hs as (_ & Hm & _), Hs' as (_ & Hm' & _). congruence.
  - destruct (is_start c) eqn:Hc.
    + cbn [calls] in Hcalls.
      destruct (start_while_streaming c k g Hc Hs) as [Heq|(g1 & Heq & Hs1)];
        rewrite Heq in Hcalls; [done|].
      apply elem_of_cons. right. by eapply IH.
    + destruct c; try done. apply elem_of_cons. by left.
Qed.

End ChannelFacts.

(** ** The sample array under the mutex *)

Lemma copy_done {A} (src dst : list A) (j : nat) :
  length dst = length src -> src !! j = None ->
  take j src ++ drop j dst = src.
Proof.
  intros Hlen Hnone. apply lookup_ge_None in Hnone.
  rewrite take_ge, drop_ge by lia. apply app_nil_r.
Qed.

Lemma copy_next {A} (src dst : list A) (j : nat) (v : A) :
  length dst = length src -> src !! j = Some v ->
  <[j := v]> (take j src ++ drop j dst) = take (S j) src ++ drop (S j) dst.
Proof.
  intros Hlen Hv. apply insert_take_drop_step; [done|].
  apply lookup_lt_Some in Hv. lia.
Qed.

Section SlotFacts.
Import Slot.

Variables frame old snap : list Z.
Hypothesis frame_fits : length frame <= length old.
Hypothesis snap_size : length snap = length old.

Lemma published_length : length (published frame old) = length old.
Proof. unfold published. rewrite length_app, length_drop. lia. Qed.

Lemma init_inv : inv frame old snap (init old snap).
Proof. unfold inv, init. simpl. by repeat split. Qed.

Lemma receiver_step_inv (c c' : Config) :
  inv frame old snap c -> receiver_step frame c = Some c' ->
  inv frame old snap c'.
Proof.
  destruct c as [m sp sn rpc cpc]. unfold inv, receiver_step. simpl.
  intros [Hlen Hinv].
  destruct rpc as [|i|].
  - destruct m as [t|]; [done|]. intros [= <-]. simpl.
    split; [done|].
    destruct cpc; try done; destruct Hinv as [-> ->];
      (split; [lia|]); by rewrite ?take_0, ?drop_0.
  - destruct m as [[|]|]; try done.
    destruct (frame !! i) as [v|] eqn:Hv; intros [= <-]; simpl;
      (split; [done|]).
    + assert (Hi : i < length frame) by (by apply lookup_lt_Some in Hv).
      destruct cpc; try done; destruct Hinv as (_ & -> & ->);
        (split; [lia|]); split; try done;
        apply insert_take_drop_step; (done || lia).
    + apply lookup_ge_None in Hv.
      destruct cpc; try done; destruct Hinv as (Hi & -> & ->);
        replace i with (length frame) by lia;
        unfold published; rewrite firstn_all; auto.
  - done.
Qed.

Lemma consumer_step_inv (c c' : Config) :
  inv frame old snap c -> consumer_step c = Some c' ->
  inv frame old snap c'.
Proof.
  destruct c as [m sp sn rpc cpc]. unfold inv, consumer_step. simpl.
  intros [Hlen Hinv].
  destruct cpc as [|j|].
  - destruct m as [t|]; [done|]. intros [= <-]. simpl.
    split; [done|].
    destruct rpc; try done; destruct Hinv as [-> ->];
      by rewrite ?take_0, ?drop_0.
  - destruct m as [[|]|], rpc as [|i|]; try done;
      destruct Hinv as [-> ->];
      (destruct (_ !! j) as [v|] eqn:Hv; intros [= <-]; simpl;
       [ split; [by rewrite length_insert|]; split; [done|];
         apply copy_next; rewrite ?published_length; done
       | split; [done|];
         rewrite copy_done by (rewrite ?published_length; done); auto ]).
  - done.
Qed.

Lemma run_inv (sched : list Thread) :
  forall c, inv frame old snap c -> inv frame old snap (run frame sched c).
Proof.
  induction sched as [|t sched IH]; intros c Hinv; simpl; [done|].
  apply IH.
  destruct (step frame t c) as [c'|] eqn:Hstep; simpl; [|done].
  destruct t; simpl in Hstep.
  - by eapply receiver_step_inv.
  - by eapply consumer_step_inv.
Qed.

(** While the consumer is inside its critical section the array does not
    change under it: it is the old array or the published one, whole. *)
Lemma inv_no_torn (c : Config) :
  inv frame old snap c ->
  (consumer_pc c = Finished ->
   snapshot c = old \/ snapshot c = published frame old) /\
  (forall j, consumer_pc c = Locked j ->
   spectrum c = old \/ spectrum c = published frame old).
Proof.
  destruct c as [m sp sn rpc cpc]. unfold inv. simpl. intros [_ Hinv].
  split.
  - intros ->.
    destruct m as [[|]|], rpc; try done; intuition.
  - intros j ->.
    destruct m as [[|]|], rpc; try done; intuition.
Qed.

(** The consumer left alone takes the mutex, copies, and finishes. *)
Lemma consumer_alone_copying (j : nat) :
  j <= length old ->
  run frame (replicate (S j) Consumer) (init old snap) =
    mkConfig (Some Consumer) old (take j old ++ drop j snap) Idle (Locked j).
Proof using snap_size.
  clear frame_fits.
  induction j as [|j IH]; intros Hj.
  - simpl. by rewrite drop_0.
  - replace (replicate (S (S j)) Consumer)
      with (replicate (S j) Consumer ++ [Consumer])
      by (by rewrite <- replicate_S_end).
    assert (Happ : forall s1 s2 c,
      run frame (s1 ++ s2) c = run frame s2 (run frame s1 c)).
    { induction s1 as [|t s1 IH1]; intros s2 c; simpl; [done|]. apply IH1. }
    rewrite Happ, IH by lia. simpl. unfold consumer_step. simpl.
    destruct (lookup_lt_is_Some_2 old j) as [v Hv]; [lia|].
    rewrite Hv. simpl. by rewrite copy_next.
Qed.

Lemma consumer_alone :
  run frame (replicate (length old + 2) Consumer) (init old snap) =
    mkConfig None old old Idle Finished.
Proof using snap_size.
  clear frame_fits.
  replace (length old + 2) with (S (length old) + 1) by lia.
  rewrite replicate_add.
  assert (Happ : forall s1 s2 c,
    run frame (s1 ++ s2) c = run frame s2 (run frame s1 c)).
  { induction s1 as [|t s1 IH1]; intros s2 c; simpl; [done|]. apply IH1. }
  rewrite Happ, consumer_alone_copying by lia. simpl.
  unfold consumer_step. simpl.
  rewrite lookup_ge_None_2 by lia. simpl.
  rewrite take_ge, drop_ge by lia. by rewrite app_nil_r.
Qed.

End SlotFacts.

(** ** The statistics block *)

Lemma rate_of_exact_second (n : Z) : (rate_of n 1000 == inject_Z n)%Q.
Proof.
  unfold rate_of, Qeq, Qdiv, Qmult, Qinv, inject_Z. simpl. lia.
Qed.

(** When control reaches the block at least one second after the window
    start, the rate is the count over the elapsed seconds and the window
    restarts. *)
Lemma serial_tick_fires (now : Z) (l : Serial.Local) (g : AppState) :
  (1000 <= elapsed_ms now (Serial.last_stats_time l))%Z ->
  let '(l', g') := Serial.stats_tick now l g in
  packets_per_second g' =
    rate_of (Serial.packets_since_last l)
            (elapsed_ms now (Serial.last_stats_time l)) /\
  last_sequence g' = Serial.pixels_this_frame l /\
  Serial.packets_since_last l' = 0%Z /\
  Serial.last_stats_time l' = now.
Proof.
  intros Hel. unfold Serial.stats_tick. by rewrite decide_True.
Qed.

Lemma udp_tick_fires (now : Z) (l : Udp.Local) (g : AppState) :
  (1000 <= elapsed_ms now (Udp.last_stats_time l))%Z ->
  let '(l', g') := Udp.stats_tick now l g in
  packets_per_second g' =
    rate_of (Udp.packets_since_last l)
            (elapsed_ms now (Udp.last_stats_time l)) /\
  Udp.packets_since_last l' = 0%Z /\
  Udp.last_stats_time l' = now.
Proof.
  intros Hel. unfold Udp.stats_tick. by rewrite decide_True.
Qed.

(** Every iteration of the datagram loop ends in the statistics block. *)
Lemma udp_iteration_ticks (r : Udp.Recv) (now : Z) (l : Udp.Local)
    (g : AppState) :
  Udp.iteration r now l g =
    '(l2, g2) ← Udp.decode (Udp.recv_ret r)
                  (Udp.mkLocal
                     (Udp.store_datagram (Udp.recv_data r) (Udp.buffer l))
                     (Udp.last_stats_time l) (Udp.packets_since_last l)) g;
    Some (Udp.stats_tick now l2 g2).
Proof. reflexivity. Qed.

(** In the serial loop a read that delivers nothing, a frame-start marker
    and a byte outside a frame all [continue] past the block. *)
Lemma serial_iteration_skips_tick (r : Serial.Read) (now : Z)
    (l : Serial.Local) (g : AppState) (l' : Serial.Local) (g' : AppState)
    (evs : list Event) :
  match r with
  | Serial.NoByte => True
  | Serial.GotByte b =>
      b = USB_FRAME_START \/ Serial.receiving_frame l = false
  end ->
  Serial.iteration r now l g = Some (l', g', evs) ->
  packets_per_second g' = packets_per_second g /\
  last_sequence g' = last_sequence g /\
  Serial.last_stats_time l' = Serial.last_stats_time l.
Proof.
  unfold Serial.iteration. destruct r as [|b].
  { by intros _ [= <- <- _]. }
  intros Hskip.
  destruct (Byte.eqb b USB_FRAME_START) eqn:Hb.
  - destruct (_ && _).
    + unfold Serial.publish.
      destruct (Serial.copy_loop _ _ _ _); simpl; [|done].
      intros [= <- <- _]. simpl.
      by destruct (decide (length (Serial.buffer l) < Serial.BUFFER_SIZE)).
    + simpl. intros [= <- <- _]. simpl.
      by destruct (decide (length (Serial.buffer l) < Serial.BUFFER_SIZE)).
  - destruct Hskip as [->|Hr]; [by rewrite byte_eqb_refl in Hb|].
    replace (Serial.receiving_frame _) with false
      by (by destruct (decide _)).
    simpl. intros [= <- <- _]. simpl.
    by destruct (decide (length (Serial.buffer l) < Serial.BUFFER_SIZE)).
Qed.

(** * The specification's claims *)

(** An iteration of the serial loop that completes no frame leaves the
    sample array and the publication count as they are. *)
Lemma serial_iteration_no_frame r now l g l' g' evs :
  Serial.iteration r now l g = Some (l', g', evs) ->
  frames_of evs = [] ->
  spectrum_data g' = spectrum_data g /\
  packets_received g' = packets_received g.
Proof.
  unfold Serial.iteration. destruct r as [|b]; [by intros [= _ <- _]|].
  destruct (Byte.eqb b USB_FRAME_START).
  - destruct (_ && _).
    + destruct (Serial.publish _ _); simpl; [|done].
      by intros [= _ _ <-].
    + simpl. by intros [= _ <- _].
  - destruct (negb _); [by intros [= _ <- _]|].
    destruct (Serial.drain _) as [[l2 e2]|]; simpl; [|done].
    unfold Serial.stats_tick.
    destruct (decide (1000 <= _)%Z); by intros [= _ <- _].
Qed.

Lemma serial_run_no_frame (inputs : list (Serial.Read * Z)) :
  forall l g l' g' evs,
    Serial.run inputs l g = Some (l', g', evs) ->
    frames_of evs = [] ->
    spectrum_data g' = spectrum_data g /\
    packets_received g' = packets_received g.
Proof.
  induction inputs as [|[r now] rest IH]; intros l g l' g' evs.
  { by intros [= _ <- _]. }
  cbn [Serial.run].
  destruct (Serial.iteration r now l g) as [[[l1 g1] e1]|] eqn:Hit;
    simpl; [|done].
  destruct (Serial.run rest l1 g1) as [[[l2 g2] e2]|] eqn:Hrun;
    simpl; [|done].
  intros [= _ <- <-] Hfr. rewrite frames_of_app in Hfr.
  apply app_eq_nil in Hfr as [Hfr1 Hfr2].
  destruct (serial_iteration_no_frame _ _ _ _ _ _ _ Hit Hfr1) as [<- <-].
  by eapply IH.
Qed.

Lemma udp_run_wf (inputs : list (Udp.Recv * Z)) :
  forall (u : Udp.Local) (g : AppState),
    Udp.wf u g ->
    exists u' g', Udp.run inputs u g = Some (u', g') /\ Udp.wf u' g'.
Proof.
  induction inputs as [|[d now] rest IH]; intros u g Hwf; simpl.
  { by exists u, g. }
  destruct (iteration_wf_udp d now u g Hwf) as (u1 & g1 & -> & Hwf1).
  simpl. by apply IH.
Qed.

Lemma udp_wf_init (now : Z) : Udp.wf (Udp.local_init now) app_init.
Proof.
  split.
  - cbn [Udp.local_init Udp.buffer]. apply length_replicate.
  - cbn [app_init spectrum_data]. apply length_replicate.
Qed.

(** A run of the datagram loop that accepts nothing leaves the sample
    array and the publication count as they are. *)
Lemma udp_run_none_accepted (inputs : list (Udp.Recv * Z)) :
  forall (u : Udp.Local) (g : AppState) (u' : Udp.Local) (g' : AppState),
    Udp.wf u g ->
    Udp.none_accepted inputs u g ->
    Udp.run inputs u g = Some (u', g') ->
    spectrum_data g' = spectrum_data g /\
    packets_received g' = packets_received g.
Proof.
  induction inputs as [|[d now] rest IH]; intros u g u' g' Hwf Hnone.
  { by intros [= _ <-]. }
  cbn [Udp.run Udp.none_accepted] in *. destruct Hnone as [Hrej Hnone].
  destruct (iteration_wf_udp d now u g Hwf) as (u1 & g1 & Hit & Hwf1).
  rewrite Hit in Hnone |- *. simpl. intros Hrun.
  destruct (IH u1 g1 u' g' Hwf1 Hnone Hrun) as [-> ->].
  revert Hit. unfold Udp.iteration.
  rewrite decode_rejected; [| |done].
  2: { destruct Hwf as [Hb Hs]. split; simpl; [|done].
       by rewrite store_datagram_length. }
  simpl. unfold Udp.stats_tick.
  destruct (decide _); by intros [= _ <-].
Qed.

(** C6. A read taken before the first publish sees the initial slot.
    Start from any state that has the sample array and the publication
    count the constructor gives, and let either receiver run on any
    input from any state of its own within bounds:
    the run completes, and if it has completed no frame (accepted no
    datagram) the sample array still has exactly [CCD_PIXEL_COUNT]
    entries, every one zero, and the count is zero; [freeze_frame] then
    copies out 3694 zeros whatever the snapshot held before; and the copy
    needs no frame to arrive: left to run, the consumer takes the free
    mutex, copies into whatever array it is given and finishes in
    [CCD_PIXEL_COUNT + 2] steps. *)
Theorem snapshot_before_first_publish
    (g0 : AppState) (l : Serial.Local) (u : Udp.Local)
    (inputs : list (Serial.Read * Z)) (datagrams : list (Udp.Recv * Z)) :
  spectrum_data g0 = spectrum_data app_init ->
  packets_received g0 = packets_received app_init ->
  Serial.wf l g0 -> Udp.wf u g0 ->
  exists l' g1 evs u' g2,
    Serial.run inputs l g0 = Some (l', g1, evs) /\
    Udp.run datagrams u g0 = Some (u', g2) /\
    forall g,
      (g = g1 /\ frames_of evs = []) \/
      (g = g2 /\ Udp.none_accepted datagrams u g0) ->
      length (spectrum_data g) = 3694 /\
      (forall i, i < CCD_PIXEL_COUNT -> spectrum_data g !! i = Some 0%Z) /\
      packets_received g = 0%Z /\
      snapshot_data (freeze_frame g) = replicate CCD_PIXEL_COUNT 0%Z /\
      is_frozen (freeze_frame g) = true /\
      packets_received (freeze_frame g) = 0%Z /\
      forall frame snap : list Z,
        length snap = CCD_PIXEL_COUNT ->
        Slot.run frame (replicate (CCD_PIXEL_COUNT + 2) Slot.Consumer)
          (Slot.init (spectrum_data g) snap) =
        Slot.mkConfig None (replicate CCD_PIXEL_COUNT 0%Z)
                      (replicate CCD_PIXEL_COUNT 0%Z) Slot.Idle Slot.Finished.
Proof.
  intros Hzero Hcount Hwfs Hwfu.
  change (spectrum_data app_init) with (replicate CCD_PIXEL_COUNT 0%Z)
    in Hzero.
  change (packets_received app_init) with 0%Z in Hcount.
  destruct (run_wf inputs l g0 Hwfs) as (l' & g1 & evs & Hrun1 & _).
  destruct (udp_run_wf datagrams u g0 Hwfu) as (u' & g2 & Hrun2 & _).
  exists l', g1, evs, u', g2. split; [done|]. split; [done|].
  intros g Hg.
  assert (Hsame : spectrum_data g = replicate CCD_PIXEL_COUNT 0%Z /\
                  packets_received g = 0%Z).
  { destruct Hg as [[-> Hfr]|[-> Hnone]].
    - destruct (serial_run_no_frame _ _ _ _ _ _ Hrun1 Hfr) as [-> ->].
      done.
    - destruct (udp_run_none_accepted _ _ _ _ _ Hwfu Hnone Hrun2)
        as [-> ->].
      done. }
  destruct Hsame as [Hsp Hn].
  split; [rewrite Hsp; apply length_replicate|].
  split; [intros i Hi; rewrite Hsp; by apply lookup_replicate_2|].
  split; [done|].
  split; [by cbn [freeze_frame snapshot_data]|].
  split; [done|]. split; [done|].
  intros frame snap Hsnap. rewrite Hsp.
  pose proof (consumer_alone frame (replicate CCD_PIXEL_COUNT 0%Z) snap) as H.
  rewrite length_replicate in H. by apply H.
Qed.

Lemma snapshot_before_first_publish_witness :
  exists l' g1 evs u' g2,
    Serial.run
      ((Serial.NoByte, 5%Z)
         :: map (fun b => (Serial.GotByte b, 7%Z))
                [x00; x11; xa5; x01; x00; x5a; xa5; x02])
      (Serial.local_init 0) app_init = Some (l', g1, evs) /\
    Udp.run [(Udp.mkRecv 5 [xaa; x01; x00; x00; x00], 3%Z);
             (Udp.mkRecv (-1) [], 2000%Z)]
      (Udp.local_init 0) app_init = Some (u', g2) /\
    forall g,
      (g = g1 /\ frames_of evs = []) \/
      (g = g2 /\
       Udp.none_accepted [(Udp.mkRecv 5 [xaa; x01; x00; x00; x00], 3%Z);
                          (Udp.mkRecv (-1) [], 2000%Z)]
         (Udp.local_init 0) app_init) ->
      length (spectrum_data g) = 3694 /\
      (forall i, i < CCD_PIXEL_COUNT -> spectrum_data g !! i = Some 0%Z) /\
      packets_received g = 0%Z /\
      snapshot_data (freeze_frame g) = replicate CCD_PIXEL_COUNT 0%Z /\
      is_frozen (freeze_frame g) = true /\
      packets_received (freeze_frame g) = 0%Z /\
      forall frame snap : list Z,
        length snap = CCD_PIXEL_COUNT ->
        Slot.run frame (replicate (CCD_PIXEL_COUNT + 2) Slot.Consumer)
          (Slot.init (spectrum_data g) snap) =
        Slot.mkConfig None (replicate CCD_PIXEL_COUNT 0%Z)
                      (replicate CCD_PIXEL_COUNT 0%Z) Slot.Idle Slot.Finished.
Proof.
  apply (snapshot_before_first_publish app_init (Serial.local_init 0)
           (Udp.local_init 0)).
  - reflexivity.
  - reflexivity.
  - apply wf_init.
  - apply udp_wf_init.
Defined.

(** C10. Every access of the two receiver threads stays inside its vector.
    The temporary pixel array and the window are created with
    [CCD_PIXEL_COUNT] and [Udp.BUFFER_SIZE] entries, the shared array has
    [CCD_PIXEL_COUNT] since the constructor; started on such a state,
    either thread runs any number of iterations on any input without a
    checked read or write falling outside (the run is defined), and it
    ends within the bounds, [pixel_index <= CCD_PIXEL_COUNT] among them. *)
Theorem receiver_accesses_in_bounds
    (g : AppState) (start : Z)
    (inputs : list (Serial.Read * Z)) (datagrams : list (Udp.Recv * Z)) :
  length (spectrum_data g) = CCD_PIXEL_COUNT ->
  (exists l' g' evs,
     Serial.usb_receiver_thread start inputs g = Some (l', g', evs) /\
     Serial.pixel_index l' <= CCD_PIXEL_COUNT /\
     length (Serial.temp_pixels l') = CCD_PIXEL_COUNT /\
     length (spectrum_data g') = CCD_PIXEL_COUNT) /\
  (exists u' g',
     Udp.udp_receiver_thread start datagrams g = Some (u', g') /\
     length (spectrum_data g') = CCD_PIXEL_COUNT).
Proof.
  intros Hg. split.
  - destruct (run_wf inputs (Serial.local_init start) g)
      as (l' & g' & evs & Hrun & Ht & Hs & Hp & _).
    { unfold Serial.wf.
      cbn [Serial.local_init Serial.temp_pixels Serial.pixel_index
           Serial.buffer length].
      rewrite length_replicate. repeat split; try done; lia. }
    by exists l', g', evs.
  - destruct (udp_run_wf datagrams (Udp.local_init start) g)
      as (u' & g' & Hrun & _ & Hs).
    { split; [|done]. cbn [Udp.local_init Udp.buffer].
      apply length_replicate. }
    by exists u', g'.
Qed.

Lemma receiver_accesses_in_bounds_witness :
  (exists l' g' evs,
     Serial.usb_receiver_thread 0
       [(Serial.GotByte x11, 0%Z); (Serial.NoByte, 5%Z);
        (Serial.GotByte xa5, 7%Z)] app_init = Some (l', g', evs) /\
     Serial.pixel_index l' <= CCD_PIXEL_COUNT /\
     length (Serial.temp_pixels l') = CCD_PIXEL_COUNT /\
     length (spectrum_data g') = CCD_PIXEL_COUNT) /\
  (exists u' g',
     Udp.udp_receiver_thread 0 [(Udp.mkRecv 1 [xaa], 3%Z)] app_init
       = Some (u', g') /\
     length (spectrum_data g') = CCD_PIXEL_COUNT).
Proof.
  apply (receiver_accesses_in_bounds app_init 0%Z).
  vm_compute. reflexivity.
Defined.

(** C3. A datagram shorter than the header, or not starting with the magic
    byte, or declaring more pixels than the capacity, changes neither the
    sample array nor [packets_received] nor [last_sequence]; the iteration
    still completes. *)
Theorem udp_rejected_datagram
    (d : Udp.Recv) (now : Z) (u : Udp.Local) (g : AppState) :
  Udp.wf u g ->
  Udp.rejected (Udp.recv_ret d)
               (Udp.store_datagram (Udp.recv_data d) (Udp.buffer u)) ->
  exists u' g',
    Udp.iteration d now u g = Some (u', g') /\
    spectrum_data g' = spectrum_data g /\
    packets_received g' = packets_received g /\
    last_sequence g' = last_sequence g.
Proof.
  intros [Hb Hs] Hrej. unfold Udp.iteration.
  rewrite decode_rejected; [| |done].
  2: { split; simpl; [by rewrite store_datagram_length|done]. }
  simpl. unfold Udp.stats_tick.
  destruct (decide _); eexists _, _; by split.
Qed.

Lemma udp_rejected_datagram_witness :
  exists u' g',
    Udp.iteration (Udp.mkRecv 5 [xaa; x01; x00; x00; x00]) 0
                  (Udp.local_init 0) app_init = Some (u', g') /\
    spectrum_data g' = spectrum_data app_init /\
    packets_received g' = packets_received app_init /\
    last_sequence g' = last_sequence app_init.
Proof.
  apply (udp_rejected_datagram (Udp.mkRecv 5 [xaa; x01; x00; x00; x00]) 0%Z
           (Udp.local_init 0) app_init).
  - apply udp_wf_init.
  - left. vm_compute. reflexivity.
Defined.

(** C9. Called on a stopped channel, a start returns failure exactly when
    the transport could not be opened: no handle for the serial port; no
    Winsock, no socket or no bind for UDP.  After a failure the channel is
    still stopped ([connection_mode] None, [receiver_running] false, no
    receiver thread); only after a success is it streaming, with the
    receiver thread spawned. *)
Theorem start_fails_iff_transport_unavailable
    (g : AppState) (h : option Z) (e : Channel.UdpEnv) :
  Channel.disconnected g ->
  (exists ok g',
     Channel.start_usb_receiver h g = Channel.Returns ok g' /\
     (ok = false <-> h = None) /\
     (ok = false -> Channel.disconnected g') /\
     (ok = true -> Channel.streaming ModeUSB g')) /\
  (exists ok g',
     Channel.start_udp_receiver e g = Channel.Returns ok g' /\
     (ok = false <->
        Channel.wsa_startup_ok e = false \/ Channel.socket_result e = None
        \/ Channel.bind_ok e = false) /\
     (ok = false -> Channel.disconnected g') /\
     (ok = true -> Channel.streaming ModeUDP g')).
Proof.
  intros Hd. split.
  - destruct (start_usb_disconnected h g Hd) as (g' & Heq & Hres).
    exists (bool_decide (h <> None)), g'. split; [done|].
    destruct h as [h|].
    + rewrite bool_decide_true in Hres |- * by done.
      split; [by split|]. split; [done|]. by intros _.
    + rewrite bool_decide_false in Hres |- * by (by intros []).
      split; [by split|]. split; [by intros _|done].
  - destruct (start_udp_disconnected e g Hd) as (g' & Heq & Hres).
    eexists _, g'. split; [exact Heq|].
    destruct e as [[|] [s|] [|]]; simpl in *;
      (split; [split; [try done; intros _; auto | intuition congruence]|]);
      (split; [try done; by intros _ | try done; by intros _]).
Qed.

Lemma start_fails_iff_transport_unavailable_witness :
  (exists ok g',
     Channel.start_usb_receiver (Some 7%Z) app_init = Channel.Returns ok g' /\
     (ok = false <-> Some 7%Z = None) /\
     (ok = false -> Channel.disconnected g') /\
     (ok = true -> Channel.streaming ModeUSB g')) /\
  (exists ok g',
     Channel.start_udp_receiver (Channel.mkUdpEnv true (Some 3%Z) false)
       app_init = Channel.Returns ok g' /\
     (ok = false <->
        Channel.wsa_startup_ok (Channel.mkUdpEnv true (Some 3%Z) false) = false
        \/ Channel.socket_result (Channel.mkUdpEnv true (Some 3%Z) false) = None
        \/ Channel.bind_ok (Channel.mkUdpEnv true (Some 3%Z) false) = false) /\
     (ok = false -> Channel.disconnected g') /\
     (ok = true -> Channel.streaming ModeUDP g')).
Proof.
  apply (start_fails_iff_transport_unavailable app_init (Some 7%Z)
           (Channel.mkUdpEnv true (Some 3%Z) false)).
  repeat split; reflexivity.
Defined.

(** C5. In every reachable state, a start that succeeds was called on a
    disconnected channel ([connection_mode] None, receiver not running, no
    receiver thread) and leaves a streaming one; so while the channel
    streams no start succeeds (it reports failure or the process ends),
    and a run of calls that leads from streaming one transport to
    streaming the other goes through [stop_receiver]. *)
Theorem start_needs_disconnected
    (g g' : AppState) (c : Channel.Call) :
  Channel.reachable g ->
  Channel.is_start c = true ->
  Channel.call c g = Channel.Returns true g' ->
  Channel.disconnected g /\
  (exists kind, Channel.streaming kind g') /\
  (forall kind, ~ Channel.streaming kind g) /\
  (forall cs g'' kind kind',
     Channel.streaming kind g' -> Channel.calls cs g' = Some g'' ->
     Channel.streaming kind' g'' -> kind <> kind' -> Channel.Stop ∈ cs).
Proof.
  intros Hreach Hc Hcall.
  assert (Hd : Channel.disconnected g).
  { destruct (reachable_consistent g Hreach) as [Hd|[k Hs]]; [done|].
    destruct (start_while_streaming c k g Hc Hs) as [Ht|(g1 & Hf & _)];
      rewrite Hcall in *; done. }
  split; [done|]. split; [|split].
  - assert (Hcons : Channel.consistent g').
    { eapply call_consistent; [by left|exact Hcall]. }
    destruct Hcons as [Hd'|Hs']; [|done].
    exfalso. destruct c as [h|e|]; [| |done]; simpl in Hcall.
    + destruct (start_usb_disconnected h g Hd) as (g1 & Heq & Hres).
      rewrite Heq in Hcall. injection Hcall as Hok <-.
      rewrite Hok in Hres. by eapply streaming_not_disconnected.
    + destruct (start_udp_disconnected e g Hd) as (g1 & Heq & Hres).
      rewrite Heq in Hcall. injection Hcall as Hok <-.
      rewrite Hok in Hres. by eapply streaming_not_disconnected.
  - intros kind Hs. by eapply streaming_not_disconnected.
  - intros cs g'' kind kind'. apply switch_needs_stop.
Qed.

Lemma start_needs_disconnected_witness :
  Channel.disconnected app_init /\
  (exists kind,
     Channel.streaming kind
       (set_receiver_thread (Some ModeUSB)
          (set_connection_mode ModeUSB
             (set_receiver_running true
                (set_serial_handle (Some 7%Z) app_init))))) /\
  (forall kind, ~ Channel.streaming kind app_init) /\
  (forall cs g'' kind kind',
     Channel.streaming kind
       (set_receiver_thread (Some ModeUSB)
          (set_connection_mode ModeUSB
             (set_receiver_running true
                (set_serial_handle (Some 7%Z) app_init)))) ->
     Channel.calls cs
       (set_receiver_thread (Some ModeUSB)
          (set_connection_mode ModeUSB
             (set_receiver_running true
                (set_serial_handle (Some 7%Z) app_init)))) = Some g'' ->
     Channel.streaming kind' g'' -> kind <> kind' -> Channel.Stop ∈ cs).
Proof.
  apply (start_needs_disconnected app_init _ (Channel.StartUsb (Some 7%Z))).
  - apply Channel.reach_init.
  - reflexivity.
  - reflexivity.
Defined.

(** The array [publish] leaves is the one the interleaving model calls
    published, for the frame of samples decoded so far. *)
Lemma serial_publish_is_published (l : Serial.Local) (g g' : AppState) :
  Serial.wf l g -> Serial.publish l g = Some g' ->
  spectrum_data g' = Slot.published (Serial.decoded l) (spectrum_data g).
Proof.
  intros (Ht & Hs & Hp & _) Hpub.
  destruct (publish_spec l g Ht Hs Hp) as (g1 & Heq & Hsp & _).
  rewrite Heq in Hpub. injection Hpub as <-.
  rewrite Hsp. unfold Slot.published, Serial.decoded.
  rewrite length_take. by rewrite Nat.min_l by lia.
Qed.

(** C4. Whatever the interleaving of the receiver's publish loop and the
    consumer's copy, both under [data_mutex], a finished copy is the array
    from before the publish or the array after it, whole; and while the
    consumer is still copying, the array it reads from is one of the
    two. *)
Theorem no_torn_snapshot
    (frame old snap : list Z) (sched : list Slot.Thread) :
  length frame <= length old ->
  length snap = length old ->
  let c := Slot.run frame sched (Slot.init old snap) in
  (Slot.consumer_pc c = Slot.Finished ->
   Slot.snapshot c = old \/ Slot.snapshot c = Slot.published frame old) /\
  (forall j, Slot.consumer_pc c = Slot.Locked j ->
   Slot.spectrum c = old \/ Slot.spectrum c = Slot.published frame old).
Proof.
  intros Hfit Hsnap c.
  apply (inv_no_torn frame old snap).
  apply run_inv; [done..|]. by apply init_inv.
Qed.

Lemma no_torn_snapshot_witness :
  let c := Slot.run [7%Z; 8%Z]
             [Slot.Receiver; Slot.Consumer; Slot.Receiver; Slot.Consumer;
              Slot.Receiver; Slot.Receiver; Slot.Consumer; Slot.Consumer;
              Slot.Consumer; Slot.Consumer; Slot.Consumer]
             (Slot.init [1%Z; 2%Z; 3%Z] [0%Z; 0%Z; 0%Z]) in
  (Slot.consumer_pc c = Slot.Finished ->
   Slot.snapshot c = [1%Z; 2%Z; 3%Z] \/
   Slot.snapshot c = Slot.published [7%Z; 8%Z] [1%Z; 2%Z; 3%Z]) /\
  (forall j, Slot.consumer_pc c = Slot.Locked j ->
   Slot.spectrum c = [1%Z; 2%Z; 3%Z] \/
   Slot.spectrum c = Slot.published [7%Z; 8%Z] [1%Z; 2%Z; 3%Z]).
Proof.
  apply (no_torn_snapshot [7%Z; 8%Z] [1%Z; 2%Z; 3%Z] [0%Z; 0%Z; 0%Z]).
  - simpl. lia.
  - reflexivity.
Defined.

Lemma lookup_map {A B} (f : A -> B) (xs : list A) (i : nat) :
  map f xs !! i = option_map f (xs !! i).
Proof.
  revert i. induction xs as [|x xs IH]; intros [|i]; simpl; done.
Qed.

(** What the scenarios below publish, computed. *)
Lemma feed_two_markers :
  option_map (fun out => frames_of (snd out))
    (Serial.feed [x11; x11] (Serial.local_init 0) app_init) = Some [].
Proof. vm_compute. reflexivity. Qed.

Lemma feed_marker_in_data :
  option_map (fun out => frames_of (snd out))
    (Serial.feed [x11; xa5; x01; x00; x5a; xa5; x11; x00; x5a; x11]
       (Serial.local_init 0) app_init) = Some [1].
Proof. vm_compute. reflexivity. Qed.

(** C1, as stated, fails.  With no record between the two markers nothing
    is published, where the claim has one frame of 0 samples; and a record
    whose low byte is 0x11 (sample 17) ends the frame early: the frame
    published has 1 sample, where the claim has 2. *)
Lemma serial_frame_claim_counterexample :
  ~ Serial.decodes_as [x11; x11] [] /\
  ~ Serial.decodes_as
      (USB_FRAME_START :: Serial.encode [(x01, x00); (x11, x00)]
         ++ [USB_FRAME_START])
      [Serial.sample (x01, x00); Serial.sample (x11, x00)].
Proof.
  split; intros (l & g & evs & Hfeed & Hframes & _).
  - pose proof feed_two_markers as H. rewrite Hfeed in H. simpl in H.
    rewrite Hframes in H. discriminate H.
  - pose proof feed_marker_in_data as H.
    change (USB_FRAME_START :: Serial.encode [(x01, x00); (x11, x00)]
              ++ [USB_FRAME_START])
      with [x11; xa5; x01; x00; x5a; xa5; x11; x00; x5a; x11] in Hfeed.
    rewrite Hfeed in H. simpl in H. rewrite Hframes in H. discriminate H.
Qed.

(** C1, amended.  From any state within bounds, a frame-start marker, then
    K >= 1 pixel records none of whose data bytes is 0x11, then a
    frame-start marker: the second marker publishes exactly one frame, of
    min(K, CCD_PIXEL_COUNT) samples; sample [i] is [low | (high << 8)] of
    record [i], the entries from that count on keep their values, and
    [packets_received] goes up by one.  Reads that time out and the clock
    play no part. *)
Theorem serial_frame_published
    (l : Serial.Local) (g : AppState) (recs : list (byte * byte))
    (inputs0 inputs : list (Serial.Read * Z)) :
  Serial.wf l g ->
  recs <> [] ->
  Forall Serial.clean recs ->
  Serial.bytes_of inputs0 = [USB_FRAME_START] ->
  Serial.bytes_of inputs = Serial.encode recs ++ [USB_FRAME_START] ->
  let n := min (length recs) CCD_PIXEL_COUNT in
  exists l1 g1 evs1 l2 g2,
    Serial.run inputs0 l g = Some (l1, g1, evs1) /\
    Serial.run inputs l1 g1 = Some (l2, g2, [FrameComplete n]) /\
    spectrum_data g2 =
      take n (map Serial.sample recs) ++ drop n (spectrum_data g1) /\
    (forall i r, i < n -> recs !! i = Some r ->
       spectrum_data g2 !! i =
         Some (Z.lor (byte_val (fst r)) (Z.shiftl (byte_val (snd r)) 8))) /\
    packets_received g2 = wrap32 (packets_received g1 + 1).
Proof.
  intros Hwf Hne Hclean Hb0 Hb n.
  destruct (run_marker inputs0 l g Hwf Hb0)
    as (l1 & g1 & evs1 & Hrun1 & Hwf1 & Hbuf1 & Hpi1 & Hrf1).
  destruct (run_frame recs inputs l1 g1 Hwf1 Hbuf1 Hpi1 Hrf1 Hne Hclean Hb)
    as (l2 & g2 & Hrun2 & Hsp & Hn & _).
  exists l1, g1, evs1, l2, g2. fold n in Hrun2, Hsp.
  repeat split; try done.
  intros i r Hi Hr. rewrite Hsp.
  assert (Hlen : length (take n (map Serial.sample recs)) = n).
  { rewrite length_take, length_map. unfold n. lia. }
  rewrite lookup_app_l by lia.
  rewrite lookup_take_lt by lia. by rewrite lookup_map, Hr.
Qed.

Lemma serial_frame_published_witness :
  let n := min (length [(x01, x00); (x02, x00)]) CCD_PIXEL_COUNT in
  exists l1 g1 evs1 l2 g2,
    Serial.run [(Serial.GotByte x11, 0%Z)] (Serial.local_init 0) app_init
      = Some (l1, g1, evs1) /\
    Serial.run
      (map (fun b => (Serial.GotByte b, 0%Z))
           [xa5; x01; x00; x5a; xa5; x02; x00; x5a; x11]) l1 g1
      = Some (l2, g2, [FrameComplete n]) /\
    spectrum_data g2 =
      take n (map Serial.sample [(x01, x00); (x02, x00)])
        ++ drop n (spectrum_data g1) /\
    (forall i r, i < n -> [(x01, x00); (x02, x00)] !! i = Some r ->
       spectrum_data g2 !! i =
         Some (Z.lor (byte_val (fst r)) (Z.shiftl (byte_val (snd r)) 8))) /\
    packets_received g2 = wrap32 (packets_received g1 + 1).
Proof.
  apply (serial_frame_published (Serial.local_init 0) app_init
           [(x01, x00); (x02, x00)]).
  - apply wf_init.
  - discriminate.
  - repeat constructor; discriminate.
  - reflexivity.
  - reflexivity.
Defined.

(** The documented scenario, computed at clock 0: the state after the
    first nine bytes, and after the tenth. *)
Lemma scenario_nine_bytes :
  Serial.feed [x11; xa5; x01; x00; x5a; xa5; x02; x00; x5a]
    (Serial.local_init 0) app_init =
  Some (Serial.mkLocal [] 2 true
          (1 :: 2 :: replicate (CCD_PIXEL_COUNT - 2) 0)%Z 0%Z 0%Z 2%Z,
        app_init, []).
Proof. vm_compute. reflexivity. Qed.

Lemma scenario_tenth_byte :
  Serial.feed [x11]
    (Serial.mkLocal [] 2 true
       (1 :: 2 :: replicate (CCD_PIXEL_COUNT - 2) 0)%Z 0%Z 0%Z 2%Z)
    app_init =
  Some (Serial.mkLocal [] 0 true
          (1 :: 2 :: replicate (CCD_PIXEL_COUNT - 2) 0)%Z 0%Z 1%Z 0%Z,
        set_packets_received 1
          (set_spectrum_data
             (1 :: 2 :: replicate (CCD_PIXEL_COUNT - 2) 0)%Z app_init),
        [FrameComplete 2]).
Proof. vm_compute. reflexivity. Qed.

(** C2. Started at any time on the freshly constructed state, however
    the reads are spaced: after the bytes 11 A5 01 00 5A A5 02 00 5A the
    thread has published nothing (the array is all zero, the count 0);
    after the following 11 it has published exactly one frame, of 2
    samples: the array holds 1 and 2 at indices 0 and 1 and zero at every
    other index, and the count is 1; that 11 leaves the decoder at the
    start of a new frame with nothing decoded. *)
Theorem serial_scenario
    (start : Z) (inputs9 inputs1 : list (Serial.Read * Z)) :
  Serial.bytes_of inputs9 = [x11; xa5; x01; x00; x5a; xa5; x02; x00; x5a] ->
  Serial.bytes_of inputs1 = [x11] ->
  exists l9 g9 l g,
    Serial.usb_receiver_thread start inputs9 app_init = Some (l9, g9, []) /\
    spectrum_data g9 = replicate CCD_PIXEL_COUNT 0%Z /\
    packets_received g9 = 0%Z /\
    Serial.usb_receiver_thread start (inputs9 ++ inputs1) app_init
      = Some (l, g, [FrameComplete 2]) /\
    spectrum_data g = (1 :: 2 :: replicate (CCD_PIXEL_COUNT - 2) 0)%Z /\
    packets_received g = 1%Z /\
    Serial.buffer l = [] /\ Serial.pixel_index l = 0 /\
    Serial.receiving_frame l = true.
Proof.
  intros H9 H1. unfold Serial.usb_receiver_thread.
  destruct (run_wf inputs9 (Serial.local_init start) app_init (wf_init start))
    as (l9 & g9 & e9 & Hrun9 & Hwf9).
  pose proof (run_feed_sim inputs9 (Serial.local_init start)
                (Serial.local_init 0) app_init app_init eq_refl) as Hsim9.
  rewrite H9, Hrun9, scenario_nine_bytes in Hsim9.
  destruct Hsim9 as [Hcore9 ->].
  destruct (run_wf inputs1 l9 g9 Hwf9) as (l & g & e & Hrun & Hwf).
  pose proof (run_feed_sim inputs1 l9 _ g9 _ Hcore9) as Hsim.
  rewrite H1, Hrun, scenario_tenth_byte in Hsim.
  destruct Hsim as [Hcore ->].
  unfold Serial.core, Serial.framing in Hcore9, Hcore.
  cbn [Serial.buffer Serial.pixel_index Serial.receiving_frame
       Serial.temp_pixels spectrum_data packets_received app_init
       set_packets_received set_spectrum_data] in Hcore9, Hcore.
  injection Hcore9 as _ _ _ _ Hs9 Hn9.
  injection Hcore as Hb Hp Hr _ Hs Hn.
  exists l9, g9, l, g.
  rewrite run_app, Hrun9. simpl. rewrite Hrun. simpl.
  by repeat split.
Qed.

Lemma serial_scenario_witness :
  exists l9 g9 l g,
    Serial.usb_receiver_thread 0
      (map (fun b => (Serial.GotByte b, 0%Z))
           [x11; xa5; x01; x00; x5a; xa5; x02; x00; x5a])
      app_init = Some (l9, g9, []) /\
    spectrum_data g9 = replicate CCD_PIXEL_COUNT 0%Z /\
    packets_received g9 = 0%Z /\
    Serial.usb_receiver_thread 0
      (map (fun b => (Serial.GotByte b, 0%Z))
           [x11; xa5; x01; x00; x5a; xa5; x02; x00; x5a]
         ++ [(Serial.GotByte x11, 0%Z)])
      app_init = Some (l, g, [FrameComplete 2]) /\
    spectrum_data g = (1 :: 2 :: replicate (CCD_PIXEL_COUNT - 2) 0)%Z /\
    packets_received g = 1%Z /\
    Serial.buffer l = [] /\ Serial.pixel_index l = 0 /\
    Serial.receiving_frame l = true.
Proof.
  apply (serial_scenario 0%Z).
  - reflexivity.
  - reflexivity.
Defined.





(** C8.  The serial loop does not reach the statistics block on every
    iteration.  Two seconds into a window in which 5 frames were counted,
    a read that times out, and likewise a frame-start marker, leave the
    rate, the counter and the window start as they were; the datagram
    loop, in the same situation, sets the rate to 5 / 2 s and restarts the
    window. *)
Theorem serial_tick_skipped_when_idle :
  let l := Serial.mkLocal [] 0 true (replicate CCD_PIXEL_COUNT 0%Z)
                          0%Z 5%Z 0%Z in
  let u := Udp.mkLocal (replicate Udp.BUFFER_SIZE x00) 0%Z 5%Z in
  (1000 <= elapsed_ms 2000000000 (Serial.last_stats_time l))%Z /\
  Serial.iteration Serial.NoByte 2000000000 l app_init
    = Some (l, app_init, []) /\
  (exists l' g' evs,
     Serial.iteration (Serial.GotByte x11) 2000000000 l app_init
       = Some (l', g', evs) /\
     packets_per_second g' = packets_per_second app_init /\
     Serial.packets_since_last l' = 5%Z /\
     Serial.last_stats_time l' = 0%Z) /\
  (exists u' g',
     Udp.iteration (Udp.mkRecv (-1) []) 2000000000 u app_init
       = Some (u', g') /\
     (packets_per_second g' == 5 # 2)%Q /\
     Udp.packets_since_last u' = 0%Z /\
     Udp.last_stats_time u' = 2000000000%Z).
Proof.
  intros l u. split; [vm_compute; discriminate|]. split; [reflexivity|].
  split.
  - eexists _, _, _. split; [vm_compute; reflexivity|]. by repeat split.
  - eexists _, _. split; [vm_compute; reflexivity|]. by repeat split.
Qed.

(** * Further properties of the code *)

(** ** The datagram receiver: accepted datagrams *)

Section UdpMore.
Import Udp.

Lemma udp_copy_loop_values (todo : nat) :
  forall (i : nat) (buf : list byte) (spectrum : list Z),
    length buf = BUFFER_SIZE ->
    length spectrum = CCD_PIXEL_COUNT ->
    i + todo <= CCD_PIXEL_COUNT ->
    exists out,
      copy_loop todo i buf spectrum = Some out /\
      (forall k, i <= k < i + todo -> out !! k = pixel_at buf k) /\
      (forall k, k < i \/ i + todo <= k -> out !! k = spectrum !! k).
Proof.
  induction todo as [|todo IH]; intros i buf spectrum Hb Hs Hi; simpl.
  { exists spectrum. split; [done|]. split; [intros k Hk; lia|done]. }
  destruct (pixel_at_defined buf i Hb) as [v Hv]; [lia|].
  rewrite Hv. simpl. rewrite vec_write_Some by lia. simpl.
  destruct (IH (S i) buf (<[i := v]> spectrum)) as (out & -> & Hin & Hout);
    rewrite ?length_insert; try done; [lia|].
  exists out. split; [done|]. split.
  - intros k Hk. destruct (decide (k = i)) as [->|Hne].
    + rewrite Hout by lia. rewrite Hv. apply list_lookup_insert_eq. lia.
    + apply Hin. lia.
  - intros k Hk. rewrite Hout by lia. apply list_lookup_insert_ne. lia.
Qed.

Lemma store_datagram_lookup (data buf : list byte) (k : nat) :
  store_datagram data buf !! k =
    if decide (k < min (length data) (length buf)) then data !! k
    else buf !! k.
Proof.
  unfold store_datagram.
  assert (Hlen : length (take (length buf) data)
                 = min (length data) (length buf))
    by (rewrite length_take; lia).
  destruct (decide (k < min (length data) (length buf))) as [Hlt|Hge].
  - rewrite lookup_app_l by lia. apply lookup_take_lt. lia.
  - rewrite lookup_app_r by lia. rewrite lookup_drop. f_equal. lia.
Qed.

(** What an accepted datagram does to the shared state. *)
Lemma udp_accepted
    (d : Recv) (now : Z) (u : Local) (g : AppState) (count seq : Z) :
  wf u g ->
  (Z.of_nat HEADER_SIZE <= recv_ret d)%Z ->
  store_datagram (recv_data d) (buffer u) !! 0 = Some MAGIC ->
  header_pixel_count (store_datagram (recv_data d) (buffer u)) = Some count ->
  (count <= Z.of_nat CCD_PIXEL_COUNT)%Z ->
  header_sequence_num (store_datagram (recv_data d) (buffer u)) = Some seq ->
  exists u' g',
    iteration d now u g = Some (u', g') /\
    (forall k, k < Z.to_nat count ->
       spectrum_data g' !! k =
         pixel_at (store_datagram (recv_data d) (buffer u)) k) /\
    (forall k, Z.to_nat count <= k ->
       spectrum_data g' !! k = spectrum_data g !! k) /\
    packets_received g' = wrap32 (packets_received g + 1) /\
    last_sequence g' = seq.
Proof.
  intros [Hb Hs] Hret Hmagic Hcount Hle Hseq.
  unfold iteration, decode. cbn [buffer last_stats_time packets_since_last].
  rewrite !bool_decide_true by (unfold HEADER_SIZE in *; lia).
  rewrite Hmagic. simpl. rewrite ?byte_eqb_refl. rewrite Hcount. simpl.
  rewrite decide_True by done.
  destruct (udp_copy_loop_values (Z.to_nat count) 0
              (store_datagram (recv_data d) (buffer u)) (spectrum_data g))
    as (out & -> & Hin & Hout);
    rewrite ?store_datagram_length; try done; [lia|].
  simpl. rewrite Hseq. simpl. unfold stats_tick.
  destruct (decide _); eexists _, _; (split; [reflexivity|]); simpl;
    (split; [intros k Hk; apply Hin; lia|]);
    (split; [intros k Hk; apply Hout; lia|done]).
Qed.

(** X1. A datagram of at least 13 bytes that starts with 0xAA and declares
    [count <= CCD_PIXEL_COUNT] pixels is accepted: the first [count]
    entries of the sample array become the little-endian 16-bit words
    that follow the header in the buffer, every later entry keeps its
    value, [packets_received] goes up by one and [last_sequence] becomes
    the header's sequence number. *)
Theorem udp_accepted_datagram
    (d : Recv) (now : Z) (u : Local) (g : AppState) (count seq : Z) :
  wf u g ->
  (Z.of_nat HEADER_SIZE <= recv_ret d)%Z ->
  store_datagram (recv_data d) (buffer u) !! 0 = Some MAGIC ->
  header_pixel_count (store_datagram (recv_data d) (buffer u)) = Some count ->
  (count <= Z.of_nat CCD_PIXEL_COUNT)%Z ->
  header_sequence_num (store_datagram (recv_data d) (buffer u)) = Some seq ->
  exists u' g',
    iteration d now u g = Some (u', g') /\
    (forall k, k < Z.to_nat count ->
       spectrum_data g' !! k =
         pixel_at (store_datagram (recv_data d) (buffer u)) k) /\
    (forall k, Z.to_nat count <= k ->
       spectrum_data g' !! k = spectrum_data g !! k) /\
    packets_received g' = wrap32 (packets_received g + 1) /\
    last_sequence g' = seq.
Proof. apply udp_accepted. Qed.

Lemma udp_accepted_datagram_witness :
  exists u' g',
    iteration
      (mkRecv 17 [xaa; x07; x00; x00; x00; x00; x00; x00; x00;
                  x02; x00; xff; xff; x34; x12; x78; x56])
      0 (local_init 0) app_init = Some (u', g') /\
    (forall k, k < Z.to_nat 2 ->
       spectrum_data g' !! k =
         pixel_at
           (store_datagram
              [xaa; x07; x00; x00; x00; x00; x00; x00; x00;
               x02; x00; xff; xff; x34; x12; x78; x56]
              (buffer (local_init 0))) k) /\
    (forall k, Z.to_nat 2 <= k ->
       spectrum_data g' !! k = spectrum_data app_init !! k) /\
    packets_received g' = wrap32 (packets_received app_init + 1) /\
    last_sequence g' = 7%Z.
Proof.
  apply (udp_accepted_datagram
           (mkRecv 17 [xaa; x07; x00; x00; x00; x00; x00; x00; x00;
                       x02; x00; xff; xff; x34; x12; x78; x56])
           0%Z (local_init 0) app_init 2%Z 7%Z).
  - apply udp_wf_init.
  - vm_compute. discriminate.
  - reflexivity.
  - reflexivity.
  - vm_compute. discriminate.
  - reflexivity.
Defined.

(** X2. The declared pixel count is not compared with the number of bytes
    received: for an accepted datagram, a pixel whose two bytes lie at or
    beyond the end of the received data is taken from what earlier
    datagrams left in the buffer. *)
Theorem udp_short_datagram_publishes_stale_pixels
    (d : Recv) (now : Z) (u : Local) (g : AppState) (count seq : Z)
    (k : nat) :
  wf u g ->
  (Z.of_nat HEADER_SIZE <= recv_ret d)%Z ->
  store_datagram (recv_data d) (buffer u) !! 0 = Some MAGIC ->
  header_pixel_count (store_datagram (recv_data d) (buffer u)) = Some count ->
  (count <= Z.of_nat CCD_PIXEL_COUNT)%Z ->
  header_sequence_num (store_datagram (recv_data d) (buffer u)) = Some seq ->
  k < Z.to_nat count ->
  length (recv_data d) <= HEADER_SIZE + 2 * k ->
  exists u' g',
    iteration d now u g = Some (u', g') /\
    spectrum_data g' !! k = pixel_at (buffer u) k.
Proof.
  intros Hwf Hret Hmagic Hcount Hle Hseq Hk Hshort.
  destruct (udp_accepted d now u g count seq)
    as (u' & g' & Hit & Hin & _); try done.
  exists u', g'. split; [done|]. rewrite Hin by done.
  unfold pixel_at. rewrite !store_datagram_lookup.
  by rewrite !decide_False by lia.
Qed.

Lemma udp_short_datagram_publishes_stale_pixels_witness :
  exists u' g',
    iteration
      (mkRecv 13 [xaa; x07; x00; x00; x00; x00; x00; x00; x00;
                  x02; x00; xff; xff])
      0 (local_init 0) app_init = Some (u', g') /\
    spectrum_data g' !! 1 = pixel_at (buffer (local_init 0)) 1.
Proof.
  apply (udp_short_datagram_publishes_stale_pixels
           (mkRecv 13 [xaa; x07; x00; x00; x00; x00; x00; x00; x00;
                       x02; x00; xff; xff])
           0%Z (local_init 0) app_init 2%Z 7%Z 1).
  - apply udp_wf_init.
  - vm_compute. discriminate.
  - reflexivity.
  - reflexivity.
  - vm_compute. discriminate.
  - reflexivity.
  - vm_compute. lia.
  - vm_compute. lia.
Defined.

End UdpMore.

Section UdpChecksum.
Import Udp.

Lemma udp_copy_loop_agree (todo : nat) :
  forall (i : nat) (buf buf' : list byte) (spectrum : list Z),
    (forall k, HEADER_SIZE <= k -> buf !! k = buf' !! k) ->
    copy_loop todo i buf spectrum = copy_loop todo i buf' spectrum.
Proof.
  induction todo as [|todo IH]; intros i buf buf' spectrum Hag; [done|].
  assert (Hp : pixel_at buf i = pixel_at buf' i).
  { unfold pixel_at. by rewrite !Hag by lia. }
  cbn [copy_loop]. rewrite Hp.
  destruct (pixel_at buf' i) as [v|]; simpl; [|done].
  destruct (vec_write spectrum i v); simpl; [|done].
  by apply IH.
Qed.

(** X3. Neither the checksum nor the timestamp of the header is looked at:
    two datagrams of the same length that differ only in bytes 5-8
    (timestamp) and 11-12 (checksum) leave the application state the
    same, whatever these bytes are. *)
Theorem udp_checksum_not_verified
    (ret now : Z) (data data' : list byte) (u : Local) (g : AppState) :
  length data = length data' ->
  (forall k, k <> 5 -> k <> 6 -> k <> 7 -> k <> 8 -> k <> 11 -> k <> 12 ->
     data !! k = data' !! k) ->
  option_map snd (iteration (mkRecv ret data) now u g) =
  option_map snd (iteration (mkRecv ret data') now u g).
Proof.
  intros Hlen Hag.
  assert (Hbuf : forall k,
    k <> 5 -> k <> 6 -> k <> 7 -> k <> 8 -> k <> 11 -> k <> 12 ->
    store_datagram data (buffer u) !! k = store_datagram data' (buffer u) !! k).
  { intros k ? ? ? ? ? ?. rewrite !store_datagram_lookup, <- Hlen.
    destruct (decide _); [by apply Hag|done]. }
  unfold iteration, decode.
  cbn [recv_ret recv_data buffer last_stats_time packets_since_last].
  destruct (bool_decide (0 < ret)%Z && bool_decide (Z.of_nat HEADER_SIZE <= ret)%Z).
  2: { simpl. unfold stats_tick. cbn [last_stats_time packets_since_last].
       by destruct (decide _). }
  unfold header_pixel_count, header_sequence_num.
  rewrite (Hbuf 0), (Hbuf 9), (Hbuf 10), (Hbuf 1), (Hbuf 2), (Hbuf 3), (Hbuf 4)
    by lia.
  set (buf := store_datagram data (buffer u)) in *.
  set (buf' := store_datagram data' (buffer u)) in *.
  destruct (buf' !! 0) as [b0|]; simpl; [|done].
  destruct (Byte.eqb b0 MAGIC).
  2: { simpl. unfold stats_tick. cbn [last_stats_time packets_since_last].
       by destruct (decide _). }
  destruct (buf' !! 9) as [c0|]; simpl; [|done].
  destruct (buf' !! 10) as [c1|]; simpl; [|done].
  destruct (decide (le16 c0 c1 <= Z.of_nat CCD_PIXEL_COUNT)%Z).
  2: { simpl. unfold stats_tick. cbn [last_stats_time packets_since_last].
       by destruct (decide _). }
  rewrite (udp_copy_loop_agree _ 0 buf buf').
  2: { intros k Hk. apply Hbuf; unfold HEADER_SIZE in Hk; lia. }
  destruct (copy_loop _ 0 buf' (spectrum_data g)); simpl; [|done].
  destruct (buf' !! 1) as [s0|]; simpl; [|done].
  destruct (buf' !! 2) as [s1|]; simpl; [|done].
  destruct (buf' !! 3) as [s2|]; simpl; [|done].
  destruct (buf' !! 4) as [s3|]; simpl; [|done].
  unfold stats_tick. cbn [last_stats_time packets_since_last].
  by destruct (decide _).
Qed.

Lemma udp_checksum_not_verified_witness :
  option_map snd
    (iteration
       (mkRecv 15 [xaa; x07; x00; x00; x00; x00; x00; x00; x00;
                   x01; x00; x12; x34; x2a; x00])
       0 (local_init 0) app_init) =
  option_map snd
    (iteration
       (mkRecv 15 [xaa; x07; x00; x00; x00; x99; x99; x99; x99;
                   x01; x00; xff; xff; x2a; x00])
       0 (local_init 0) app_init).
Proof.
  apply (udp_checksum_not_verified 15%Z 0%Z).
  - reflexivity.
  - intros k H5 H6 H7 H8 H11 H12.
    do 13 (destruct k as [|k]; [try reflexivity; lia|]). reflexivity.
Defined.

End UdpChecksum.

(** ** The serial receiver: outside a frame, and what it counts *)

Section SerialMore.
Import Serial.

(** X4. Until the first frame-start marker arrives every byte read is
    thrown away: the locals, the shared state and the statistics are
    exactly what they were, and nothing is published. *)
Theorem serial_bytes_outside_frame_discarded
    (inputs : list (Read * Z)) (l : Local) (g : AppState) :
  receiving_frame l = false ->
  buffer l = [] ->
  Forall (fun b => b <> USB_FRAME_START) (bytes_of inputs) ->
  exists evs,
    run inputs l g = Some (l, g, evs) /\
    frames_of evs = [] /\
    discarded_of evs = length (bytes_of inputs).
Proof.
  intros Hr Hb.
  induction inputs as [|[r now] rest IH]; intros Hclean.
  { by exists []. }
  destruct r as [|b].
  - destruct (IH Hclean) as (evs & Hrun & Hf & Hd).
    exists evs. cbn [run]. unfold iteration. simpl. rewrite Hrun. by simpl.
  - change (bytes_of ((GotByte b, now) :: rest)) with (b :: bytes_of rest)
      in Hclean |- *.
    apply Forall_cons in Hclean as [Hne Hclean].
    destruct (IH Hclean) as (evs & Hrun & Hf & Hd).
    exists (Discarded 1 :: evs). cbn [run]. unfold iteration.
    rewrite Hb. rewrite decide_True by (unfold BUFFER_SIZE; simpl; lia).
    rewrite (byte_eqb_neq _ _ Hne). cbn [receiving_frame set_buffer].
    rewrite Hr. simpl.
    replace (set_buffer [] (set_buffer [b] l)) with l
      by (destruct l; simpl in *; by subst).
    rewrite Hrun. simpl. split; [done|]. split; [done|]. by rewrite Hd.
Qed.

Lemma serial_bytes_outside_frame_discarded_witness :
  exists evs,
    run [(GotByte xa5, 0%Z); (NoByte, 1%Z); (GotByte x5a, 2000000000%Z)]
        (local_init 0) app_init = Some (local_init 0, app_init, evs) /\
    frames_of evs = [] /\
    discarded_of evs =
      length (bytes_of [(GotByte xa5, 0%Z); (NoByte, 1%Z);
                        (GotByte x5a, 2000000000%Z)]).
Proof.
  apply (serial_bytes_outside_frame_discarded
           [(GotByte xa5, 0%Z); (NoByte, 1%Z); (GotByte x5a, 2000000000%Z)]
           (local_init 0) app_init).
  - reflexivity.
  - reflexivity.
  - repeat constructor; discriminate.
Defined.

Lemma wrap32_range (z : Z) : (0 <= wrap32 z < 2 ^ 32)%Z.
Proof. unfold wrap32. apply Z.mod_pos_bound. lia. Qed.

Lemma wrap32_succ (a n : Z) :
  wrap32 (wrap32 (a + 1) + n) = wrap32 (a + (1 + n)).
Proof.
  unfold wrap32. rewrite Zplus_mod_idemp_l. f_equal. lia.
Qed.

Lemma drain_loop_frames (fuel : nat) :
  forall (l l' : Local) (evs : list Event),
    drain_loop fuel l = Some (l', evs) -> frames_of evs = [].
Proof.
  induction fuel as [|fuel IH]; intros l l' evs; [done|]. simpl.
  destruct (decide (4 <= _)); [|by intros [= <- <-]].
  destruct (decide (_ < 4)).
  { intros [= <- <-]. apply frames_of_discard. }
  destruct (drop _ _) as [|b0 [|b1 [|b2 [|b3 rest]]]]; try done.
  destruct (_ && _).
  - destruct (store_pixel _ _); simpl; [|done].
    destruct (drain_loop fuel _) as [[l3 e3]|] eqn:E; simpl; [|done].
    intros [= <- <-]. rewrite frames_of_app, frames_of_discard.
    by eapply IH.
  - destruct (drain_loop fuel _) as [[l3 e3]|] eqn:E; simpl; [|done].
    intros [= <- <-]. rewrite frames_of_app, frames_of_discard.
    simpl. by eapply IH.
Qed.

(** One iteration logs at most one frame; it logs one exactly when it
    publishes, and then the frame has between 1 and [pixel_index]
    samples. *)
Lemma iteration_frames (r : Read) (now : Z) (l : Local) (g : AppState)
    (l' : Local) (g' : AppState) (evs : list Event) :
  iteration r now l g = Some (l', g', evs) ->
  (frames_of evs = [] /\ packets_received g' = packets_received g /\
   spectrum_data g' = spectrum_data g) \/
  (frames_of evs = [pixel_index l] /\ 0 < pixel_index l /\
   packets_received g' = wrap32 (packets_received g + 1)).
Proof.
  unfold iteration. destruct r as [|b].
  { intros [= <- <- <-]. by left. }
  destruct (Byte.eqb b USB_FRAME_START).
  - destruct (receiving_frame _ && bool_decide _) eqn:Hguard.
    + apply andb_prop in Hguard as [_ Hpos%bool_decide_eq_true].
      unfold publish.
      destruct (copy_loop _ _ _ _); simpl; [|done].
      intros [= <- <- <-]. right.
      change (frames_of (FrameComplete ?n :: ?e)) with (n :: frames_of e).
      rewrite frames_of_discard.
      destruct (decide _); simpl in *; by repeat split.
    + simpl. intros [= <- <- <-]. left.
      by rewrite frames_of_discard.
  - destruct (negb _).
    { intros [= <- <- <-]. left. by rewrite frames_of_discard. }
    destruct (drain _) as [[l2 e2]|] eqn:Hdrain; simpl; [|done].
    assert (Hfr : frames_of e2 = []) by (by eapply drain_loop_frames).
    unfold stats_tick. destruct (decide (1000 <= _)%Z); simpl;
      intros [= <- <- <-]; by left.
Qed.

(** X5. [packets_received] counts the frames the thread logs as complete:
    after any run it has grown, modulo 2^32, by the number of "Frame
    complete" lines. *)
Theorem serial_counter_counts_frames (inputs : list (Read * Z)) :
  forall (l : Local) (g : AppState) (l' : Local) (g' : AppState)
         (evs : list Event),
    (0 <= packets_received g < 2 ^ 32)%Z ->
    run inputs l g = Some (l', g', evs) ->
    packets_received g' =
      wrap32 (packets_received g + Z.of_nat (length (frames_of evs))).
Proof.
  induction inputs as [|[r now] rest IH]; intros l g l' g' evs Hrange.
  { intros [= <- <- <-]. simpl. unfold wrap32.
    rewrite Z.add_0_r. symmetry. by apply Z.mod_small. }
  cbn [run].
  destruct (iteration r now l g) as [[[l1 g1] e1]|] eqn:Hit; simpl; [|done].
  destruct (run rest l1 g1) as [[[l2 g2] e2]|] eqn:Hrun; simpl; [|done].
  intros [= <- <- <-]. rewrite frames_of_app, length_app.
  destruct (iteration_frames _ _ _ _ _ _ _ Hit)
    as [(Hf & Hn & _)|(Hf & _ & Hn)].
  - rewrite (IH _ _ _ _ _ (eq_ind_r (fun z => (0 <= z < 2 ^ 32)%Z)
                             Hrange Hn) Hrun).
    rewrite Hn, Hf. simpl. done.
  - rewrite (IH l1 g1 l2 g2 e2); [|rewrite Hn; apply wrap32_range|done].
    rewrite Hn, Hf, wrap32_succ. f_equal. simpl length. lia.
Qed.

Lemma serial_counter_counts_frames_witness :
  packets_received
    (set_packets_received 1
       (set_spectrum_data
          (1 :: 2 :: replicate (CCD_PIXEL_COUNT - 2) 0)%Z app_init)) =
  wrap32 (packets_received app_init
          + Z.of_nat (length (frames_of [FrameComplete 2]))).
Proof.
  apply (serial_counter_counts_frames
           (map (fun b => (GotByte b, 0%Z)) [x11])
           (mkLocal [] 2 true (1 :: 2 :: replicate (CCD_PIXEL_COUNT - 2) 0)%Z
                    0%Z 0%Z 2%Z)
           app_init
           (mkLocal [] 0 true (1 :: 2 :: replicate (CCD_PIXEL_COUNT - 2) 0)%Z
                    0%Z 1%Z 0%Z)).
  - cbn [app_init packets_received]. lia.
  - exact scenario_tenth_byte.
Defined.

(** X6. No frame is ever published empty or longer than the array: every
    "Frame complete" line of a run that starts within the bounds reports
    between 1 and [CCD_PIXEL_COUNT] pixels. *)
Theorem serial_frame_sizes (inputs : list (Read * Z)) :
  forall (l : Local) (g : AppState) (l' : Local) (g' : AppState)
         (evs : list Event),
    wf l g ->
    run inputs l g = Some (l', g', evs) ->
    Forall (fun n => 1 <= n <= CCD_PIXEL_COUNT) (frames_of evs).
Proof.
  induction inputs as [|[r now] rest IH]; intros l g l' g' evs Hwf.
  { intros [= <- <- <-]. constructor. }
  cbn [run].
  destruct (iteration_wf r now l g Hwf) as (l1 & g1 & e1 & Hit & Hwf1).
  rewrite Hit. simpl.
  destruct (run rest l1 g1) as [[[l2 g2] e2]|] eqn:Hrun; simpl; [|done].
  intros [= <- <- <-]. rewrite frames_of_app. apply Forall_app. split.
  - destruct (iteration_frames _ _ _ _ _ _ _ Hit)
      as [(-> & _)|(-> & Hpos & _)]; [constructor|].
    destruct Hwf as (_ & _ & Hp & _).
    apply Forall_cons. split; [lia|constructor].
  - by eapply IH.
Qed.

Lemma serial_frame_sizes_witness :
  Forall (fun n => 1 <= n <= CCD_PIXEL_COUNT) (frames_of [FrameComplete 2]).
Proof.
  apply (serial_frame_sizes
           (map (fun b => (GotByte b, 0%Z)) [x11])
           (mkLocal [] 2 true (1 :: 2 :: replicate (CCD_PIXEL_COUNT - 2) 0)%Z
                    0%Z 0%Z 2%Z)
           app_init
           (mkLocal [] 0 true (1 :: 2 :: replicate (CCD_PIXEL_COUNT - 2) 0)%Z
                    0%Z 1%Z 0%Z)
           (set_packets_received 1
              (set_spectrum_data
                 (1 :: 2 :: replicate (CCD_PIXEL_COUNT - 2) 0)%Z app_init))).
  - unfold wf. vm_compute. repeat split; lia.
  - exact scenario_tenth_byte.
Defined.

End SerialMore.

(** ** The frozen snapshot and the receivers *)

Lemma serial_iteration_snapshot r now l g l' g' evs :
  Serial.iteration r now l g = Some (l', g', evs) ->
  snapshot_data g' = snapshot_data g /\ is_frozen g' = is_frozen g.
Proof.
  unfold Serial.iteration. destruct r as [|b]; [by intros [= _ <- _]|].
  destruct (Byte.eqb b USB_FRAME_START).
  - destruct (_ && _).
    + unfold Serial.publish.
      destruct (Serial.copy_loop _ _ _ _); simpl; [|done].
      by intros [= _ <- _].
    + simpl. by intros [= _ <- _].
  - destruct (negb _); [by intros [= _ <- _]|].
    destruct (Serial.drain _) as [[l2 e2]|]; simpl; [|done].
    unfold Serial.stats_tick.
    destruct (decide (1000 <= _)%Z); by intros [= _ <- _].
Qed.

Lemma udp_iteration_snapshot r now l g l' g' :
  Udp.iteration r now l g = Some (l', g') ->
  snapshot_data g' = snapshot_data g /\ is_frozen g' = is_frozen g.
Proof.
  unfold Udp.iteration.
  destruct (Udp.decode _ _ _) as [[l2 g2]|] eqn:Hdec; simpl; [|done].
  assert (Hg2 : snapshot_data g2 = snapshot_data g /\
                is_frozen g2 = is_frozen g).
  { revert Hdec. unfold Udp.decode.
    destruct (_ && _); [|by intros [= _ <-]].
    destruct (_ !! 0) as [b0|]; simpl; [|done].
    destruct (Byte.eqb b0 Udp.MAGIC); [|by intros [= _ <-]].
    destruct (Udp.header_pixel_count _) as [count|]; simpl; [|done].
    destruct (decide _); [|by intros [= _ <-]].
    destruct (Udp.copy_loop _ _ _ _); simpl; [|done].
    destruct (Udp.header_sequence_num _); simpl; [|done].
    by intros [= _ <-]. }
  unfold Udp.stats_tick. destruct (decide _); by intros [= _ <-].
Qed.

Lemma serial_run_snapshot (inputs : list (Serial.Read * Z)) :
  forall l g l' g' evs,
    Serial.run inputs l g = Some (l', g', evs) ->
    snapshot_data g' = snapshot_data g /\ is_frozen g' = is_frozen g.
Proof.
  induction inputs as [|[r now] rest IH]; intros l g l' g' evs.
  { by intros [= _ <- _]. }
  cbn [Serial.run].
  destruct (Serial.iteration r now l g) as [[[l1 g1] e1]|] eqn:Hit;
    simpl; [|done].
  destruct (Serial.run rest l1 g1) as [[[l2 g2] e2]|] eqn:Hrun;
    simpl; [|done].
  intros [= _ <- _].
  apply serial_iteration_snapshot in Hit as [<- <-]. by eapply IH.
Qed.

Lemma udp_run_snapshot (inputs : list (Udp.Recv * Z)) :
  forall l g l' g',
    Udp.run inputs l g = Some (l', g') ->
    snapshot_data g' = snapshot_data g /\ is_frozen g' = is_frozen g.
Proof.
  induction inputs as [|[r now] rest IH]; intros l g l' g'.
  { by intros [= _ <-]. }
  cbn [Udp.run].
  destruct (Udp.iteration r now l g) as [[l1 g1]|] eqn:Hit; simpl; [|done].
  intros Hrun. apply udp_iteration_snapshot in Hit as [<- <-]. by eapply IH.
Qed.

(** X7. What [freeze_frame] copied out stays as it is while a receiver
    keeps running and publishing: neither thread writes [snapshot_data]
    or [is_frozen]. *)
Theorem frozen_snapshot_survives_receivers
    (g : AppState) (start : Z)
    (inputs : list (Serial.Read * Z)) (datagrams : list (Udp.Recv * Z))
    (l' : Serial.Local) (g1 : AppState) (evs : list Event)
    (u' : Udp.Local) (g2 : AppState) :
  Serial.usb_receiver_thread start inputs (freeze_frame g)
    = Some (l', g1, evs) ->
  Udp.udp_receiver_thread start datagrams (freeze_frame g) = Some (u', g2) ->
  (snapshot_data g1 = spectrum_data g /\ is_frozen g1 = true) /\
  (snapshot_data g2 = spectrum_data g /\ is_frozen g2 = true).
Proof.
  intros H1 H2. split.
  - by apply serial_run_snapshot in H1.
  - by apply udp_run_snapshot in H2.
Qed.

Lemma frozen_snapshot_survives_receivers_witness :
  (snapshot_data
     (set_packets_received 1
        (set_spectrum_data
           (1 :: 2 :: replicate (CCD_PIXEL_COUNT - 2) 0)%Z
           (freeze_frame app_init))) = spectrum_data app_init /\
   is_frozen
     (set_packets_received 1
        (set_spectrum_data
           (1 :: 2 :: replicate (CCD_PIXEL_COUNT - 2) 0)%Z
           (freeze_frame app_init))) = true) /\
  (snapshot_data (freeze_frame app_init) = spectrum_data app_init /\
   is_frozen (freeze_frame app_init) = true).
Proof.
  apply (frozen_snapshot_survives_receivers app_init 0%Z
           (map (fun b => (Serial.GotByte b, 0%Z))
                [x11; xa5; x01; x00; x5a; xa5; x02; x00; x5a; x11])
           []
           (Serial.mkLocal [] 0 true
              (1 :: 2 :: replicate (CCD_PIXEL_COUNT - 2) 0)%Z 0%Z 1%Z 0%Z)
           _ [FrameComplete 2]
           (Udp.local_init 0)).
  - vm_compute. reflexivity.
  - reflexivity.
Defined.

(** ** Stopping and restarting the channel *)

Section ChannelMore.
Import Channel.

(** X8. [stop_receiver] may be called when nothing was started: on a
    disconnected channel it changes nothing at all. *)
Theorem stop_when_not_started_is_noop (g : AppState) :
  disconnected g -> stop_receiver g = g.
Proof.
  intros (Hm & Hr & Ht).
  destruct g as [sp sn fr m run th us sh pr ls pps]. simpl in *. by subst.
Qed.

Lemma stop_when_not_started_is_noop_witness : stop_receiver app_init = app_init.
Proof.
  apply (stop_when_not_started_is_noop app_init). repeat split; reflexivity.
Defined.

(** X9. Whatever state it is called in, [stop_receiver] leaves the channel
    disconnected, has released the handle of the transport
    [connection_mode] named, touches neither the sample arrays nor the
    counters (the last rate stays on display), and calling it again
    changes nothing. *)
Theorem stop_receiver_releases (g : AppState) :
  disconnected (stop_receiver g) /\
  (connection_mode g = ModeUSB -> serial_handle (stop_receiver g) = None) /\
  (connection_mode g = ModeUDP -> udp_socket (stop_receiver g) = None) /\
  spectrum_data (stop_receiver g) = spectrum_data g /\
  snapshot_data (stop_receiver g) = snapshot_data g /\
  packets_received (stop_receiver g) = packets_received g /\
  last_sequence (stop_receiver g) = last_sequence g /\
  packets_per_second (stop_receiver g) = packets_per_second g /\
  stop_receiver (stop_receiver g) = stop_receiver g.
Proof.
  split; [apply stop_disconnects|].
  split; [|split; [|split; [|split; [|split; [|split; [|split]]]]]];
    try (destruct g as [sp sn fr m run [t|] [us|] [sh|] pr ls pps];
         destruct m; simpl; try done; by intros [=]).
Qed.

(** X10. Once [stop_receiver] has returned, a start of either kind
    succeeds as soon as its transport opens, whatever was running before:
    the channel can be switched from one transport to the other. *)
Theorem restart_after_stop (g : AppState) (h s : Z) :
  (exists g',
     start_usb_receiver (Some h) (stop_receiver g) = Returns true g' /\
     streaming ModeUSB g' /\ serial_handle g' = Some h) /\
  (exists g',
     start_udp_receiver (mkUdpEnv true (Some s) true) (stop_receiver g)
       = Returns true g' /\
     streaming ModeUDP g' /\ udp_socket g' = Some s).
Proof.
  pose proof (stop_disconnects g) as (Hm & Hr & Ht).
  destruct (stop_receiver g) as [sp sn fr m run th us sh pr ls pps].
  simpl in *. subst. split.
  - eexists. split; [reflexivity|]. by repeat split.
  - eexists. split; [reflexivity|]. by repeat split.
Qed.

End ChannelMore.

(** ** The mutex, once more *)

(** X11. Under every schedule the two critical sections exclude each
    other: the receiver and the consumer are never both inside;
    the mutex is held exactly while one of them is; and the array is the
    old one until the receiver has entered and the published one once it
    has left. *)
Theorem critical_sections_exclude
    (frame old snap : list Z) (sched : list Slot.Thread) :
  length frame <= length old ->
  length snap = length old ->
  let c := Slot.run frame sched (Slot.init old snap) in
  (forall i j, ~ (Slot.receiver_pc c = Slot.Locked i /\
                  Slot.consumer_pc c = Slot.Locked j)) /\
  (Slot.mutex c = None <->
   (forall i, Slot.receiver_pc c <> Slot.Locked i) /\
   (forall j, Slot.consumer_pc c <> Slot.Locked j)) /\
  (Slot.receiver_pc c = Slot.Idle -> Slot.spectrum c = old) /\
  (Slot.receiver_pc c = Slot.Finished ->
   Slot.spectrum c = Slot.published frame old).
Proof.
  intros Hfit Hsnap c.
  assert (Hinv : Slot.inv frame old snap c).
  { apply run_inv; [done..|]. by apply init_inv. }
  clearbody c. destruct c as [m sp sn rpc cpc].
  unfold Slot.inv in Hinv. simpl in *. destruct Hinv as [_ Hinv].
  destruct m as [[|]|], rpc, cpc; try done; repeat split;
    try done; try (intros; intuition congruence); try tauto;
    intros [H1 H2]; exfalso;
    first [by eapply H1 | by eapply H2].
Qed.

Lemma critical_sections_exclude_witness :
  let c := Slot.run [7%Z; 8%Z]
             [Slot.Receiver; Slot.Consumer; Slot.Receiver; Slot.Consumer]
             (Slot.init [1%Z; 2%Z; 3%Z] [0%Z; 0%Z; 0%Z]) in
  (forall i j, ~ (Slot.receiver_pc c = Slot.Locked i /\
                  Slot.consumer_pc c = Slot.Locked j)) /\
  (Slot.mutex c = None <->
   (forall i, Slot.receiver_pc c <> Slot.Locked i) /\
   (forall j, Slot.consumer_pc c <> Slot.Locked j)) /\
  (Slot.receiver_pc c = Slot.Idle -> Slot.spectrum c = [1%Z; 2%Z; 3%Z]) /\
  (Slot.receiver_pc c = Slot.Finished ->
   Slot.spectrum c = Slot.published [7%Z; 8%Z] [1%Z; 2%Z; 3%Z]).
Proof.
  apply (critical_sections_exclude [7%Z; 8%Z] [1%Z; 2%Z; 3%Z]
           [0%Z; 0%Z; 0%Z]).
  - simpl. lia.
  - reflexivity.
Defined.

(** ** The console log *)

Section ConsoleFacts.
Import Console.

Lemma log_message_length t f (log : list (list byte)) :
  length log <= MAX_LOG_LINES ->
  length (log_message t f log) <= MAX_LOG_LINES.
Proof.
  intros Hlen. unfold log_message.
  destruct (decide _) as [Hgt|Hle].
  - rewrite length_drop, length_app. simpl. lia.
  - lia.
Qed.

Lemma log_message_last t f (log : list (list byte)) :
  length log <= MAX_LOG_LINES ->
  log_message t f log
  = drop (length (log ++ [message t f]) - MAX_LOG_LINES)
         (log ++ [message t f]).
Proof.
  intros Hlen. unfold log_message. rewrite length_app. simpl.
  destruct (decide _) as [Hgt|Hle].
  - by replace (length log + 1 - MAX_LOG_LINES) with 1 by lia.
  - by replace (length log + 1 - MAX_LOG_LINES) with 0 by lia.
Qed.

Lemma drop_newest {A} (L R : list A) (n : nat) :
  drop (length (drop (length L - n) L ++ R) - n) (drop (length L - n) L ++ R)
  = drop (length (L ++ R) - n) (L ++ R).
Proof.
  rewrite <- drop_app_le by lia. rewrite drop_drop. f_equal.
  rewrite length_drop, !length_app. lia.
Qed.

(** X12. The console keeps the newest 200 lines: after any number of
    [log_message] calls the log is the last 200 of all lines logged so
    far, oldest first, each line being the clock text in brackets, a
    space and the first 511 characters of the formatted text. *)
Theorem console_keeps_newest_lines
    (calls : list (list byte * list byte)) (log : list (list byte)) :
  length log <= MAX_LOG_LINES ->
  let all := log ++ map (fun c => message c.1 c.2) calls in
  log_messages calls log = drop (length all - MAX_LOG_LINES) all /\
  length (log_messages calls log) = Nat.min MAX_LOG_LINES (length all) /\
  Forall (fun c => length (message c.1 c.2) <= length c.1 + 514) calls.
Proof.
  intros Hlen all.
  assert (Hlast : log_messages calls log
                  = drop (length all - MAX_LOG_LINES) all).
  { subst all. revert log Hlen.
    induction calls as [|[t f] rest IH]; intros log Hlen.
    - simpl. rewrite app_nil_r.
      by replace (length log - MAX_LOG_LINES) with 0 by lia.
    - cbn [log_messages foldl map fst snd].
      change (foldl _ ?l rest) with (log_messages rest l).
      rewrite IH by by apply log_message_length.
      rewrite log_message_last by done.
      rewrite drop_newest. by rewrite <- app_assoc. }
  split; [done|split].
  - rewrite Hlast, length_drop. lia.
  - apply Forall_forall. intros [t f] _. unfold message, vsnprintf.
    rewrite !length_app, length_take.
    change (length (txt "[")) with 1. change (length (txt "] ")) with 2.
    pose proof (Nat.le_min_l (BUFFER_SIZE - 1) (length f)) as Hmin.
    change (BUFFER_SIZE - 1) with 511 in Hmin |- *. simpl fst. lia.
Qed.

Lemma console_keeps_newest_lines_witness :
  let all := [] ++ map (fun c => message c.1 c.2)
                       [(txt "12:00:00", txt "started")] in
  log_messages [(txt "12:00:00", txt "started")] []
  = drop (length all - MAX_LOG_LINES) all /\
  length (log_messages [(txt "12:00:00", txt "started")] [])
  = Nat.min MAX_LOG_LINES (length all) /\
  Forall (fun c => length (message c.1 c.2) <= length c.1 + 514)
         [(txt "12:00:00", txt "started")].
Proof.
  apply (console_keeps_newest_lines [(txt "12:00:00", txt "started")] []).
  simpl. lia.
Defined.

End ConsoleFacts.

(** ** Peak detection *)

Section PeakFacts.
Import Peaks.
Context {W : Type} (wavelength_from_pixel : Z -> W).

Lemma ccd_pixel_count_Z : Z.of_nat CCD_PIXEL_COUNT = 3694%Z.
Proof. reflexivity. Qed.

Lemma read_defined (data : list Z) (i : Z) :
  (0 <= i < Z.of_nat (length data))%Z -> is_Some (read data i).
Proof.
  intros Hi. unfold read. rewrite decide_True by lia.
  apply lookup_lt_is_Some_2. lia.
Qed.

Lemma is_peak_loop_spec (data : list Z) (i val : Z) (n : nat) :
  forall j,
    (forall k, (j <= k < j + Z.of_nat n)%Z -> k <> i ->
               is_Some (read data k)) ->
    exists b,
      is_peak_loop data i val j n = Some b /\
      (b = true <->
       forall k, (j <= k < j + Z.of_nat n)%Z -> k <> i ->
         exists x, read data k = Some x /\ (x < val)%Z).
Proof.
  induction n as [|n IH]; intros j Hdef.
  { exists true. split; [done|]. split; [|done]. intros _ k Hk. lia. }
  destruct (IH (j + 1)%Z) as (b & Hb & Hiff).
  { intros k Hk. apply Hdef. lia. }
  cbn [is_peak_loop]. destruct (decide (j <> i)) as [Hne|He].
  - destruct (Hdef j ltac:(lia) Hne) as [x Hx]. rewrite Hx. simpl.
    destruct (Z.leb_spec val x) as [Hle|Hlt].
    + exists false. split; [done|]. split; [done|].
      intros Hall. destruct (Hall j ltac:(lia) Hne) as (x' & Hx' & Hlt).
      rewrite Hx in Hx'. injection Hx' as <-. lia.
    + exists b. split; [done|]. rewrite Hiff. split.
      * intros Hall k Hk Hki. destruct (decide (k = j)) as [->|Hkj].
        -- by exists x.
        -- apply Hall; [lia|done].
      * intros Hall k Hk. apply Hall. lia.
  - apply dec_stable in He. subst j.
    exists b. split; [done|]. rewrite Hiff. split.
    + intros Hall k Hk Hki. apply Hall; [lia|done].
    + intros Hall k Hk. apply Hall. lia.
Qed.

Lemma scan_spec (data : list Z) (thr : Q) (d : Z) (n : nat) :
  length data = CCD_PIXEL_COUNT ->
  (0 <= d)%Z ->
  forall i acc,
    (d <= i)%Z ->
    (i + Z.of_nat n = 3694 - d)%Z ->
    exists ps,
      scan wavelength_from_pixel data thr d i n acc = Some (acc ++ ps) /\
      (forall p, p ∈ ps <->
         (i <= pixel_index p < 3694 - d)%Z /\
         local_max data thr d (pixel_index p) (intensity p) /\
         wavelength p = wavelength_from_pixel (pixel_index p)) /\
      StronglySorted peak_order ps.
Proof.
  intros Hlen Hd. induction n as [|n IH]; intros i acc Hi Hn.
  { exists []. rewrite app_nil_r. split; [done|]. split; [|constructor].
    intros p. split; [by intros ?%elem_of_nil|]. lia. }
  destruct (IH (i + 1)%Z) with (acc := acc) as (ps0 & Hps0 & Hin0 & Hs0);
    [lia..|].
  assert (Hlen' : Z.of_nat (length data) = 3694%Z).
  { rewrite Hlen. apply ccd_pixel_count_Z. }
  destruct (read_defined data i ltac:(lia)) as [val Hval].
  assert (Hskip : ~ local_max data thr d i val ->
    forall p, p ∈ ps0 <->
         (i <= pixel_index p < 3694 - d)%Z /\
         local_max data thr d (pixel_index p) (intensity p) /\
         wavelength p = wavelength_from_pixel (pixel_index p)).
  { intros Hno p. rewrite Hin0. split.
    { intros (? & ? & ?). split; [lia|done]. }
    intros (Hr & Hm & Hw). split; [|done].
    destruct (decide (pixel_index p = i)) as [He|]; [|lia].
    exfalso. apply Hno. rewrite He in Hm.
    pose proof Hm as (Hrd & _). rewrite Hval in Hrd. by injection Hrd as ->. }
  cbn [scan]. rewrite Hval. simpl.
  destruct (Qle_bool thr (inject_Z val)) eqn:Hthr; simpl.
  2:{ exists ps0. split; [done|]. split; [|done]. apply Hskip.
      intros (_ & Hle & _). apply Qle_bool_iff in Hle. congruence. }
  destruct (is_peak_loop_spec data i val (Z.to_nat (2 * d + 1)) (i - d)%Z)
    as (b & Hb & Hiff).
  { intros k Hk _. apply read_defined. lia. }
  rewrite Hb. simpl.
  assert (Hmax : b = true <-> local_max data thr d i val).
  { rewrite Hiff. unfold local_max. split.
    - intros Hall. split; [done|]. split; [by apply Qle_bool_iff|].
      intros j Hj. apply Hall. lia.
    - intros (_ & _ & Hall) k Hk. apply Hall. lia. }
  destruct b.
  - destruct (IH (i + 1)%Z
                (acc ++ [mkPeak i (wavelength_from_pixel i) val]))
      as (ps1 & Hps1 & Hin1 & Hs1); [lia..|].
    exists (mkPeak i (wavelength_from_pixel i) val :: ps1).
    split; [by rewrite Hps1, <- app_assoc|]. split.
    + intros p. rewrite elem_of_cons, Hin1. split.
      * intros [->|(Hr & Hm & Hw)]; simpl.
        -- split; [lia|]. split; [by apply Hmax|done].
        -- split; [lia|done].
      * intros (Hr & Hm & Hw).
        destruct (decide (pixel_index p = i)) as [He|]; [left|right].
        -- destruct p as [pi pw pv]. simpl in *. subst pi pw.
           destruct Hm as (Hrd & _). rewrite Hval in Hrd.
           by injection Hrd as ->.
        -- split; [lia|done].
    + constructor; [done|]. apply Forall_forall. intros q Hq.
      apply Hin1 in Hq as (Hr & _). unfold peak_order. simpl. lia.
  - exists ps0. split; [done|]. split; [|done]. apply Hskip.
    intros Hm. apply Hmax in Hm. done.
Qed.

(** What [detect_peaks] reads. *)
Lemma detect_peaks_char (thr : Q) (d : Z) (g : AppState) :
  let data := if is_frozen g then snapshot_data g else spectrum_data g in
  length data = CCD_PIXEL_COUNT ->
  (0 <= d)%Z ->
  exists ps,
    detect_peaks wavelength_from_pixel thr d g = Some ps /\
    (forall p, p ∈ ps <->
       (d <= pixel_index p < 3694 - d)%Z /\
       local_max data thr d (pixel_index p) (intensity p) /\
       wavelength p = wavelength_from_pixel (pixel_index p)) /\
    StronglySorted peak_order ps.
Proof.
  intros data Hlen Hd. unfold detect_peaks. fold data.
  rewrite ccd_pixel_count_Z.
  destruct (decide (3694 - d - d < 0)%Z) as [Hbig|Hsmall].
  - replace (Z.to_nat (3694 - d - d)) with 0 by lia.
    exists []. split; [done|]. split; [|constructor].
    intros p. split; [by intros ?%elem_of_nil|]. lia.
  - destruct (scan_spec data thr d (Z.to_nat (3694 - d - d)) Hlen Hd d [])
      as (ps & Hps & Hin & Hs); [lia..|].
    exists ps. by rewrite Hps.
Qed.

End PeakFacts.

Lemma sorted_lookup {A} (R : A -> A -> Prop) (l : list A) :
  StronglySorted R l ->
  forall a b x y, a < b -> l !! a = Some x -> l !! b = Some y -> R x y.
Proof.
  induction 1 as [|z l Hs IH Hall]; intros a b x y Hab Ha Hb; [done|].
  destruct b as [|b]; [lia|]. destruct a as [|a]; simpl in *.
  - injection Ha as ->. rewrite Forall_forall in Hall. apply Hall.
    by eapply list_elem_of_lookup_2.
  - eapply IH; [|done..]. lia.
Qed.

(** X13. With a non-negative minimum distance [d] and a 3694-entry
    array, [detect_peaks] reads inside the array only and reports, in
    increasing pixel order and each once, exactly the pixels [i] with
    [d <= i < 3694 - d] whose sample reaches the threshold and is strictly
    greater than every other sample at most [d] pixels away; the
    intensity recorded is that sample and the wavelength is
    [wavelength_from_pixel i].  It reads the snapshot when the display is
    frozen and the live array otherwise. *)
Theorem detect_peaks_finds_local_maxima
    {W : Type} (wavelength_from_pixel : Z -> W)
    (thr : Q) (d : Z) (g : AppState) :
  let data := if is_frozen g then snapshot_data g else spectrum_data g in
  length data = CCD_PIXEL_COUNT ->
  (0 <= d)%Z ->
  exists ps,
    Peaks.detect_peaks wavelength_from_pixel thr d g = Some ps /\
    (forall p, p ∈ ps <->
       (d <= Peaks.pixel_index p < 3694 - d)%Z /\
       Peaks.local_max data thr d (Peaks.pixel_index p) (Peaks.intensity p) /\
       Peaks.wavelength p = wavelength_from_pixel (Peaks.pixel_index p)) /\
    StronglySorted Peaks.peak_order ps.
Proof. apply detect_peaks_char. Qed.

Lemma detect_peaks_finds_local_maxima_witness :
  exists ps,
    Peaks.detect_peaks (fun _ => 0%Z) 500 50 app_init = Some ps /\
    (forall p, p ∈ ps <->
       (50 <= Peaks.pixel_index p < 3694 - 50)%Z /\
       Peaks.local_max (spectrum_data app_init) 500 50
         (Peaks.pixel_index p) (Peaks.intensity p) /\
       Peaks.wavelength p = 0%Z) /\
    StronglySorted Peaks.peak_order ps.
Proof.
  apply (detect_peaks_finds_local_maxima (fun _ => 0%Z) 500 50 app_init).
  - reflexivity.
  - lia.
Defined.

(** X14. Two peaks of one detection are more than the minimum distance
    apart, the later one in the list at the higher pixel. *)
Theorem detected_peaks_apart
    {W : Type} (wavelength_from_pixel : Z -> W)
    (thr : Q) (d : Z) (g : AppState) (ps : list (Peaks.Peak W))
    (a b : nat) (p q : Peaks.Peak W) :
  length (if is_frozen g then snapshot_data g else spectrum_data g)
    = CCD_PIXEL_COUNT ->
  (0 <= d)%Z ->
  Peaks.detect_peaks wavelength_from_pixel thr d g = Some ps ->
  ps !! a = Some p -> ps !! b = Some q -> a < b ->
  (Peaks.pixel_index p + d < Peaks.pixel_index q)%Z.
Proof.
  intros Hlen Hd Hdet Ha Hb Hab.
  destruct (detect_peaks_char wavelength_from_pixel thr d g Hlen Hd)
    as (ps' & Hps' & Hin & Hs).
  rewrite Hdet in Hps'. injection Hps' as <-.
  pose proof (sorted_lookup _ _ Hs a b p q Hab Ha Hb) as Hpq.
  unfold Peaks.peak_order in Hpq.
  apply list_elem_of_lookup_2, Hin in Ha as (_ & (Hpv & _ & Hpmax) & _).
  apply list_elem_of_lookup_2, Hin in Hb as (_ & (Hqv & _ & Hqmax) & _).
  destruct (decide (Peaks.pixel_index p + d < Peaks.pixel_index q)%Z)
    as [|Hnear]; [done|exfalso].
  destruct (Hpmax (Peaks.pixel_index q)) as (x & Hx & Hlt); [lia..|].
  destruct (Hqmax (Peaks.pixel_index p)) as (y & Hy & Hlt'); [lia..|].
  rewrite Hqv in Hx. rewrite Hpv in Hy.
  injection Hx as <-. injection Hy as <-. lia.
Qed.

Lemma detected_peaks_apart_witness : (100 + 50 < 200)%Z.
Proof.
  apply (detected_peaks_apart (fun _ => 0%Z) 500 50
           (set_spectrum_data
              (replicate 100 0%Z ++ [1000%Z] ++ replicate 99 0%Z ++ [2000%Z]
                 ++ replicate 3493 0%Z) app_init)
           [Peaks.mkPeak 100%Z 0%Z 1000%Z; Peaks.mkPeak 200%Z 0%Z 2000%Z]
           0 1 (Peaks.mkPeak 100%Z 0%Z 1000%Z)
           (Peaks.mkPeak 200%Z 0%Z 2000%Z)).
  - vm_compute. reflexivity.
  - lia.
  - vm_compute. reflexivity.
  - reflexivity.
  - reflexivity.
  - lia.
Defined.

(** X15. A maximum with a flat top is not a peak: where two pixels at
    most the minimum distance apart hold the same sample, neither is
    reported (a line clipped at the converter's full scale over two
    pixels goes undetected). *)
Theorem flat_top_not_detected
    {W : Type} (wavelength_from_pixel : Z -> W)
    (thr : Q) (d : Z) (g : AppState) (ps : list (Peaks.Peak W))
    (i j : Z) :
  let data := if is_frozen g then snapshot_data g else spectrum_data g in
  length data = CCD_PIXEL_COUNT ->
  (0 <= d)%Z ->
  Peaks.detect_peaks wavelength_from_pixel thr d g = Some ps ->
  i <> j -> (Z.abs (i - j) <= d)%Z ->
  Peaks.read data i = Peaks.read data j ->
  Forall (fun p => Peaks.pixel_index p <> i /\ Peaks.pixel_index p <> j) ps.
Proof.
  intros data Hlen Hd Hdet Hij Hnear Heq.
  destruct (detect_peaks_char wavelength_from_pixel thr d g Hlen Hd)
    as (ps' & Hps' & Hin & _).
  rewrite Hdet in Hps'. injection Hps' as <-.
  apply Forall_forall. intros p Hp.
  apply Hin in Hp as (_ & (Hpv & _ & Hpmax) & _). fold data in Hpv, Hpmax.
  split; intros He; rewrite He in Hpv, Hpmax.
  - destruct (Hpmax j) as (x & Hx & Hlt); [lia|done|].
    rewrite <- Heq, Hpv in Hx. injection Hx as <-. lia.
  - destruct (Hpmax i) as (x & Hx & Hlt); [lia|done|].
    rewrite Heq, Hpv in Hx. injection Hx as <-. lia.
Qed.

Lemma flat_top_not_detected_witness :
  Forall (fun p : Peaks.Peak Z =>
            Peaks.pixel_index p <> 100%Z /\ Peaks.pixel_index p <> 101%Z)
         [Peaks.mkPeak 300%Z 0%Z 2000%Z].
Proof.
  apply (flat_top_not_detected (fun _ => 0%Z) 500 50
           (set_spectrum_data
              (replicate 100 0%Z ++ [4095%Z; 4095%Z] ++ replicate 198 0%Z
                 ++ [2000%Z] ++ replicate 3393 0%Z) app_init)).
  - vm_compute. reflexivity.
  - lia.
  - vm_compute. reflexivity.
  - lia.
  - lia.
  - vm_compute. reflexivity.
Defined.

(** X16. [detect_peaks] relies on the slider for the sign of the minimum
    distance: with a negative [peak_min_distance] its first read is at a
    negative index, outside the array. *)
Theorem detect_peaks_negative_distance
    {W : Type} (wavelength_from_pixel : Z -> W)
    (thr : Q) (d : Z) (g : AppState) :
  (d < 0)%Z ->
  Peaks.detect_peaks wavelength_from_pixel thr d g = None.
Proof.
  intros Hd. unfold Peaks.detect_peaks. rewrite ccd_pixel_count_Z.
  destruct (Z.to_nat (3694 - d - d)) as [|n] eqn:Hn; [lia|].
  cbn [Peaks.scan]. unfold Peaks.read. by rewrite decide_False by lia.
Qed.

Lemma detect_peaks_negative_distance_witness :
  Peaks.detect_peaks (fun _ => 0%Z) 500 (-1) app_init = None.
Proof.
  apply (detect_peaks_negative_distance (fun _ => 0%Z) 500 (-1) app_init).
  lia.
Defined.

(** X17. While the display is frozen, detection does not depend on what
    the receivers do: re-detecting after any run of either receiver gives
    the peaks of the array as it was when [freeze_frame] copied it. *)
Theorem frozen_detection_ignores_receivers
    {W : Type} (wavelength_from_pixel : Z -> W)
    (thr : Q) (d : Z) (g : AppState) (start : Z)
    (inputs : list (Serial.Read * Z)) (datagrams : list (Udp.Recv * Z))
    (l' : Serial.Local) (g1 : AppState) (evs : list Event)
    (u' : Udp.Local) (g2 : AppState) :
  Serial.usb_receiver_thread start inputs (freeze_frame g)
    = Some (l', g1, evs) ->
  Udp.udp_receiver_thread start datagrams (freeze_frame g) = Some (u', g2) ->
  Peaks.detect_peaks wavelength_from_pixel thr d g1
  = Peaks.detect_peaks wavelength_from_pixel thr d (freeze_frame g) /\
  Peaks.detect_peaks wavelength_from_pixel thr d g2
  = Peaks.detect_peaks wavelength_from_pixel thr d (freeze_frame g) /\
  Peaks.detect_peaks wavelength_from_pixel thr d (freeze_frame g)
  = Peaks.scan wavelength_from_pixel (spectrum_data g) thr d d
      (Z.to_nat (Z.of_nat CCD_PIXEL_COUNT - d - d)) [].
Proof.
  intros H1 H2.
  apply serial_run_snapshot in H1 as [Hs1 Hf1].
  apply udp_run_snapshot in H2 as [Hs2 Hf2].
  unfold Peaks.detect_peaks. rewrite Hs1, Hf1, Hs2, Hf2. done.
Qed.

Lemma frozen_detection_ignores_receivers_witness :
  Peaks.detect_peaks (fun _ => 0%Z) 500 50
    (set_packets_received 1
       (set_spectrum_data
          (1 :: 2 :: replicate (CCD_PIXEL_COUNT - 2) 0)%Z
          (freeze_frame app_init)))
  = Peaks.detect_peaks (fun _ => 0%Z) 500 50 (freeze_frame app_init) /\
  Peaks.detect_peaks (fun _ => 0%Z) 500 50 (freeze_frame app_init)
  = Peaks.detect_peaks (fun _ => 0%Z) 500 50 (freeze_frame app_init) /\
  Peaks.detect_peaks (fun _ => 0%Z) 500 50 (freeze_frame app_init)
  = Peaks.scan (fun _ => 0%Z) (spectrum_data app_init) 500 50 50
      (Z.to_nat (Z.of_nat CCD_PIXEL_COUNT - 50 - 50)) [].
Proof.
  apply (frozen_detection_ignores_receivers (fun _ => 0%Z) 500 50
           app_init 0%Z
           (map (fun b => (Serial.GotByte b, 0%Z))
                [x11; xa5; x01; x00; x5a; xa5; x02; x00; x5a; x11])
           []
           (Serial.mkLocal [] 0 true
              (1 :: 2 :: replicate (CCD_PIXEL_COUNT - 2) 0)%Z 0%Z 1%Z 0%Z)
           _ [FrameComplete 2]
           (Udp.local_init 0)).
  - vm_compute. reflexivity.
  - reflexivity.
Defined.

(** ** Project folders *)

Section ProjectFacts.
Import Projects.

Lemma isalnum_ascii (c : byte) :
  isalnum c = true -> isalnum_defined c = true /\ keeps c = true /\
                      Byte.eqb c " " = false.
Proof. destruct c; vm_compute; intros; try done. Qed.

Lemma ascii_defined (c : byte) :
  (byte_val c < 128)%Z -> isalnum_defined c = true.
Proof.
  intros Hc. unfold isalnum_defined. apply orb_true_iff. left. lia.
Qed.

Lemma sanitize_loop_app (a b : list byte) :
  forall acc,
    sanitize_loop (a ++ b) acc = sanitize_loop a acc ≫= sanitize_loop b.
Proof.
  induction a as [|c a IH]; intros acc; [done|].
  cbn [app sanitize_loop].
  destruct (negb _); [done|]. destruct (keeps c); apply IH.
Qed.

Lemma sanitize_loop_ascii (name : list byte) :
  Forall (fun c => (byte_val c < 128)%Z) name ->
  forall acc, exists r,
    sanitize_loop name acc = Some (acc ++ r) /\
    folder_chars r /\ length r <= length name.
Proof.
  induction 1 as [|c name Hc _ IH]; intros acc.
  { exists []. rewrite app_nil_r. repeat split; [constructor|done]. }
  cbn [sanitize_loop]. rewrite (ascii_defined c Hc). cbn [negb].
  destruct (keeps c) eqn:Hk.
  - destruct (IH (acc ++ [if Byte.eqb c " " then "_"%byte else c]))
      as (r & Hr & Hsafe & Hlen).
    exists ((if Byte.eqb c " " then "_"%byte else c) :: r).
    split; [by rewrite Hr, <- app_assoc|]. split; [|simpl; lia].
    apply Forall_cons. split; [|done].
    destruct (Byte.eqb c " ") eqn:Hsp; [by right; left|].
    unfold keeps in Hk. rewrite Hsp, orb_false_r in Hk.
    apply orb_true_iff in Hk as [Hk|Hk].
    + apply orb_true_iff in Hk as [Hk|Hk]; [by left|].
      right. left. by apply Byte.byte_dec_bl.
    + right. right. by apply Byte.byte_dec_bl.
  - destruct (IH acc) as (r & Hr & Hsafe & Hlen).
    exists r. split; [done|]. split; [done|]. simpl. lia.
Qed.

Lemma sanitize_loop_fixed (r : list byte) :
  folder_chars r -> forall acc, sanitize_loop r acc = Some (acc ++ r).
Proof.
  induction 1 as [|c r Hc _ IH]; intros acc.
  { by rewrite app_nil_r. }
  assert (Hc' : isalnum_defined c = true /\ keeps c = true /\
                Byte.eqb c " " = false).
  { destruct Hc as [Hc|[->| ->]]; [by apply isalnum_ascii|done..]. }
  destruct Hc' as (Hd & Hk & Hsp).
  cbn [sanitize_loop]. rewrite Hd, Hk, Hsp. cbn [negb].
  by rewrite IH, <- app_assoc.
Qed.

Lemma unnamed_folder_chars : folder_chars (txt "Unnamed").
Proof. repeat constructor. Qed.

Lemma sanitize_space_underscore (a b : list byte) :
  sanitize_folder_name (a ++ txt " " ++ b)
  = sanitize_folder_name (a ++ txt "_" ++ b).
Proof.
  unfold sanitize_folder_name. rewrite !sanitize_loop_app.
  by destruct (sanitize_loop a []).
Qed.

Lemma create_project_spec (new_name desc now folder : list byte)
    (st : State) :
  sanitize_folder_name new_name = Some folder ->
  let proj := mkProject new_name folder desc now in
  let st' := mkState (projects st ++ [proj])
               (Z.of_nat (length (projects st))) (export_folder st) in
  create_project new_name desc now st
  = Some (st', Some (export_folder st ++ txt "/" ++ folder
                       ++ txt "/project.json", project_json proj)) /\
  get_current_project_folder st'
  = Some (export_folder st ++ txt "/" ++ folder).
Proof.
  intros Hf proj st'. unfold create_project. rewrite Hf.
  cbn [mbind option_bind]. rewrite length_app. cbn [length].
  replace (Z.of_nat (length (projects st) + 1) - 1)%Z
    with (Z.of_nat (length (projects st))) by lia.
  fold proj. fold st'. split.
  - f_equal. f_equal. unfold save_project_json.
    cbn [st' projects current_project_index export_folder].
    rewrite length_app. cbn [length].
    replace (_ || _) with false
      by (symmetry; apply orb_false_iff;
          split; [apply Z.ltb_ge|apply Z.leb_gt]; lia).
    rewrite Nat2Z.id, list_lookup_middle by done. done.
  - unfold get_current_project_folder, project_at.
    cbn [st' projects current_project_index export_folder].
    rewrite bool_decide_false by (by destruct (projects st)).
    replace (_ <? 0)%Z with false by (symmetry; apply Z.ltb_ge; lia).
    cbn [orb]. rewrite decide_True by lia.
    rewrite Nat2Z.id, list_lookup_middle by done. done.
Qed.

(** X18. For a name of ASCII characters [sanitize_folder_name] returns a
    folder name that is never empty, holds letters, digits, [_] and [-]
    only (no space, no path separator, no dot, no colon), is not longer
    than the name or the seven letters of the fallback, and is left as it
    is by a second pass. *)
Theorem sanitize_folder_name_safe (new_name : list byte) :
  Forall (fun c => (byte_val c < 128)%Z) new_name ->
  exists folder,
    sanitize_folder_name new_name = Some folder /\
    folder <> [] /\
    folder_chars folder /\
    length folder <= Nat.max (length new_name) 7 /\
    sanitize_folder_name folder = Some folder.
Proof.
  intros Hascii.
  destruct (sanitize_loop_ascii new_name Hascii []) as (r & Hr & Hsafe & Hlen).
  simpl in Hr. unfold sanitize_folder_name at 1. rewrite Hr.
  cbn [mbind option_bind].
  assert (Hfix : forall f, folder_chars f -> f <> [] ->
                           sanitize_folder_name f = Some f).
  { intros f Hf Hne. unfold sanitize_folder_name.
    rewrite sanitize_loop_fixed by done. simpl.
    by rewrite decide_False. }
  destruct (decide (r = [])) as [->|Hne].
  - exists (txt "Unnamed"). split; [done|]. split; [done|].
    split; [apply unnamed_folder_chars|]. split; [simpl; lia|].
    by apply Hfix; [apply unnamed_folder_chars|].
  - exists r. split; [done|]. split; [done|]. split; [done|].
    split; [lia|]. by apply Hfix.
Qed.

Lemma sanitize_folder_name_safe_witness :
  exists folder,
    sanitize_folder_name (txt "Run 7: He/Ne (a)") = Some folder /\
    folder <> [] /\
    folder_chars folder /\
    length folder <= Nat.max (length (txt "Run 7: He/Ne (a)")) 7 /\
    sanitize_folder_name folder = Some folder.
Proof.
  apply (sanitize_folder_name_safe (txt "Run 7: He/Ne (a)")).
  repeat constructor.
Defined.

(** X19. Folder names are not unique: two projects whose names differ in
    a space against an underscore get the same folder, so creating the
    second writes its [project.json] over that of the first, and both
    projects keep their snapshots in one folder. *)
Theorem project_folders_collide
    (a b d1 d2 t1 t2 : list byte) (st st1 st2 : State)
    (w1 w2 : option (list byte * list byte)) :
  create_project (a ++ txt " " ++ b) d1 t1 st = Some (st1, w1) ->
  create_project (a ++ txt "_" ++ b) d2 t2 st1 = Some (st2, w2) ->
  a ++ txt " " ++ b <> a ++ txt "_" ++ b /\
  exists path text1 text2,
    w1 = Some (path, text1) /\ w2 = Some (path, text2) /\
    get_current_project_folder st1 = get_current_project_folder st2 /\
    is_Some (get_current_project_folder st1).
Proof.
  intros H1 H2. split.
  { intros He. apply app_inv_head in He. discriminate. }
  destruct (sanitize_folder_name (a ++ txt " " ++ b)) as [folder|] eqn:Hf.
  2:{ unfold create_project in H1. by rewrite Hf in H1. }
  pose proof Hf as Hf'. rewrite sanitize_space_underscore in Hf'.
  destruct (create_project_spec _ d1 t1 _ st Hf) as [Hc1 Hg1].
  rewrite Hc1 in H1. injection H1 as Hst1 <-.
  assert (Hg1' : get_current_project_folder st1
                 = Some (export_folder st ++ txt "/" ++ folder))
    by (rewrite <- Hst1; exact Hg1).
  assert (He : export_folder st1 = export_folder st) by by rewrite <- Hst1.
  destruct (create_project_spec _ d2 t2 _ st1 Hf') as [Hc2 Hg2].
  rewrite Hc2 in H2. injection H2 as Hst2 <-.
  assert (Hg2' : get_current_project_folder st2
                 = Some (export_folder st ++ txt "/" ++ folder))
    by (rewrite <- Hst2, <- He; exact Hg2).
  rewrite He.
  do 3 eexists. split; [reflexivity|]. split; [reflexivity|].
  rewrite Hg1', Hg2'. split; [done|by eexists].
Qed.

Lemma project_folders_collide_witness :
  txt "He" ++ txt " " ++ txt "lamp" <> txt "He" ++ txt "_" ++ txt "lamp" /\
  exists path text1 text2,
    Some (txt "snapshots/He_lamp/project.json",
          project_json (mkProject (txt "He lamp") (txt "He_lamp") []
                                  (txt "2025-01-01T10:00:00")))
    = Some (path, text1) /\
    Some (txt "snapshots/He_lamp/project.json",
          project_json (mkProject (txt "He_lamp") (txt "He_lamp") []
                                  (txt "2025-01-02T10:00:00")))
    = Some (path, text2) /\
    get_current_project_folder
      (mkState [mkProject (txt "He lamp") (txt "He_lamp") []
                          (txt "2025-01-01T10:00:00")] 0 (txt "snapshots"))
    = get_current_project_folder
        (mkState [mkProject (txt "He lamp") (txt "He_lamp") []
                            (txt "2025-01-01T10:00:00");
                  mkProject (txt "He_lamp") (txt "He_lamp") []
                            (txt "2025-01-02T10:00:00")] 1
                 (txt "snapshots")) /\
    is_Some (get_current_project_folder
      (mkState [mkProject (txt "He lamp") (txt "He_lamp") []
                          (txt "2025-01-01T10:00:00")] 0 (txt "snapshots"))).
Proof.
  apply (project_folders_collide (txt "He") (txt "lamp") [] []
           (txt "2025-01-01T10:00:00") (txt "2025-01-02T10:00:00")
           state_init).
  - vm_compute. reflexivity.
  - vm_compute. reflexivity.
Defined.


Lemma valid_selection_apply (op : Op) (st st' : State) :
  sort_result op ->
  apply_op op st = Some st' ->
  valid_selection st -> valid_selection st'.
Proof.
  unfold valid_selection.
  intros Hsort Happ [Hge Hlt]. destruct op as [found now sorted|n d now|i].
  - injection Happ as <-. cbn [scan_projects fst projects
                               current_project_index].
    assert (Hlen : length sorted <> 0).
    { simpl in Hsort. apply Permutation_length in Hsort. rewrite Hsort.
      unfold scan_projects_unsorted. destruct (decide (found = [])).
      - done.
      - by destruct found. }
    destruct (Z.leb_spec (Z.of_nat (length sorted))
                         (current_project_index st));
      (split; [lia|right; lia]).
  - simpl in Happ. unfold create_project in Happ.
    destruct (sanitize_folder_name n); [|done].
    injection Happ as <-. cbn [projects current_project_index].
    rewrite length_app. simpl. split; [lia|right; lia].
  - injection Happ as <-. unfold select_project.
    destruct (decide _); cbn [projects current_project_index];
      [split; [lia|right; lia]|done].
Qed.

Lemma valid_selection_run (ops : list Op) :
  Forall sort_result ops ->
  forall st st', run_ops ops st = Some st' ->
                 valid_selection st -> valid_selection st'.
Proof.
  induction 1 as [|op ops Hop _ IH]; intros st st' Hrun Hv.
  { by injection Hrun as <-. }
  cbn [run_ops] in Hrun.
  destruct (apply_op op st) as [st1|] eqn:Happ; [|done].
  simpl in Hrun. eapply IH; [done|]. by eapply valid_selection_apply.
Qed.

(** X21. The selected project always exists.  From the initial state,
    after any number of project scans, project creations and clicks in
    the project list, [current_project_index] is not negative and lies
    inside [projects] unless that is empty:
    [get_current_project_folder] and the panels that read
    [projects[current_project_index]] whenever the list is not empty
    read inside the vector. *)
Theorem project_selection_stays_valid (ops : list Op) (st : State) :
  Forall sort_result ops ->
  run_ops ops state_init = Some st ->
  (0 <= current_project_index st)%Z /\
  is_Some (get_current_project_folder st) /\
  (projects st <> [] -> is_Some (project_at st (current_project_index st))).
Proof.
  intros Hsort Hrun.
  assert (Hv : valid_selection st).
  { eapply valid_selection_run; [done..|]. split; [done|by left]. }
  destruct Hv as [Hge Hlt].
  assert (Hat : projects st <> [] ->
                is_Some (project_at st (current_project_index st))).
  { intros Hne. destruct Hlt as [|Hlt]; [done|].
    unfold project_at. rewrite decide_True by done.
    apply lookup_lt_is_Some_2. lia. }
  split; [done|]. split; [|done].
  unfold get_current_project_folder.
    destruct (bool_decide_reflect (projects st = [])) as [|Hne]; [by eexists|].
    replace (_ <? 0)%Z with false by (symmetry; apply Z.ltb_ge; lia).
    cbn [orb]. destruct (Hat Hne) as [p ->]. by eexists.
Qed.

End ProjectFacts.

Lemma project_selection_stays_valid_witness :
  (0 <= 0)%Z /\
  is_Some (Projects.get_current_project_folder
    (Projects.mkState
       [Projects.default_project (txt "2025-01-01T10:00:00");
        Projects.mkProject (txt "He lamp") (txt "He_lamp") []
                           (txt "2025-01-02T10:00:00")]
       0 (txt "snapshots"))) /\
  (Projects.projects
     (Projects.mkState
        [Projects.default_project (txt "2025-01-01T10:00:00");
         Projects.mkProject (txt "He lamp") (txt "He_lamp") []
                            (txt "2025-01-02T10:00:00")]
        0 (txt "snapshots")) <> [] ->
   is_Some (Projects.project_at
     (Projects.mkState
        [Projects.default_project (txt "2025-01-01T10:00:00");
         Projects.mkProject (txt "He lamp") (txt "He_lamp") []
                            (txt "2025-01-02T10:00:00")]
        0 (txt "snapshots")) 0)).
Proof.
  apply (project_selection_stays_valid
           [Projects.ScanProjects [] (txt "2025-01-01T10:00:00")
              [Projects.default_project (txt "2025-01-01T10:00:00")];
            Projects.CreateProject (txt "He lamp") []
              (txt "2025-01-02T10:00:00");
            Projects.SelectProject 0]
           (Projects.mkState
              [Projects.default_project (txt "2025-01-01T10:00:00");
               Projects.mkProject (txt "He lamp") (txt "He_lamp") []
                                  (txt "2025-01-02T10:00:00")]
              0 (txt "snapshots"))).
  - repeat constructor.
  - vm_compute. reflexivity.
Defined.

(** ** project.json, written and read back *)

Section JsonFacts.
Import Projects.

Lemma starts_with_lacks (q : byte) (k t d : list byte) :
  lacks q d -> starts_with (k ++ q :: t) d = false.
Proof.
  revert d. induction k as [|p k IH]; intros d Hd.
  - destruct Hd as [|c d Hc Hd]; [done|]. simpl.
    rewrite byte_eqb_neq by done. done.
  - destruct Hd as [|c d Hc Hd]; [done|]. simpl.
    rewrite IH by done. apply andb_false_r.
Qed.

Lemma starts_with_aligned (q : byte) (k t seg s : list byte) :
  lacks q k -> lacks q seg ->
  starts_with (k ++ q :: t) (seg ++ q :: s) = true ->
  seg = k /\ starts_with t s = true.
Proof.
  intros Hk. revert seg. induction Hk as [|p k Hp Hk IH]; intros seg Hseg.
  - destruct Hseg as [|c seg Hc Hseg]; simpl.
    + rewrite byte_eqb_refl. done.
    + rewrite byte_eqb_neq by done. done.
  - destruct Hseg as [|c seg Hc Hseg]; simpl.
    + rewrite byte_eqb_neq by done. done.
    + intros [He Hrest]%andb_true_iff.
      apply Byte.byte_dec_bl in He as ->.
      destruct (IH seg Hseg Hrest) as [-> ?]. done.
Qed.

Lemma find_unfold (pat s : list byte) :
  find pat s = if starts_with pat s then Some 0
               else match s with
                    | [] => None
                    | _ :: s' => S <$> find pat s'
                    end.
Proof. by destruct s. Qed.

Lemma find_skip (q : byte) (pat seg s : list byte) :
  lacks q seg ->
  find (q :: pat) (seg ++ s) = (fun n => length seg + n) <$> find (q :: pat) s.
Proof.
  induction 1 as [|c seg Hc Hseg IH].
  { simpl app. by destruct (find _ s). }
  cbn [app]. rewrite find_unfold.
  cbn [starts_with]. rewrite byte_eqb_neq by done. cbn [andb].
  rewrite IH. by destruct (find _ s).
Qed.

Lemma find_lacks (q : byte) (pat s : list byte) :
  lacks q s -> find (q :: pat) s = None.
Proof.
  intros Hs. rewrite <- (app_nil_r s), find_skip by done. done.
Qed.

(** From a quote of the line to the next one. *)
Lemma find_key_step (q : byte) (k t seg s : list byte) :
  lacks q k -> lacks q seg ->
  seg <> k \/ starts_with t s = false ->
  find (q :: k ++ q :: t) (q :: seg ++ q :: s)
  = (fun n => S (length seg) + n) <$> find (q :: k ++ q :: t) (q :: s).
Proof.
  intros Hk Hseg Hno. rewrite find_unfold.
  assert (Hst : starts_with (q :: k ++ q :: t) (q :: seg ++ q :: s) = false).
  { cbn [starts_with]. rewrite byte_eqb_refl. cbn [andb].
    destruct (starts_with (k ++ q :: t) (seg ++ q :: s)) eqn:Hs; [|done].
    destruct (starts_with_aligned q k t seg s Hk Hseg Hs) as [He Ht].
    destruct Hno; [done|congruence]. }
  rewrite Hst. rewrite (find_skip q _ seg (q :: s)) by done.
  by destruct (find _ (q :: s)).
Qed.

(** The last quote of a line that goes on without one. *)
Lemma find_key_open (q : byte) (k t seg : list byte) :
  lacks q seg ->
  find (q :: k ++ q :: t) (q :: seg) = None.
Proof.
  intros Hseg. rewrite find_unfold. cbn [starts_with].
  rewrite byte_eqb_refl, starts_with_lacks by done. cbn [andb].
  by rewrite find_lacks.
Qed.

Lemma rfind_char_app (c : byte) (a b : list byte) :
  rfind_char c (a ++ b)
  = match rfind_char c b with
    | Some k => Some (length a + k)
    | None => rfind_char c a
    end.
Proof.
  induction a as [|x a IH]; simpl.
  - by destruct (rfind_char c b).
  - rewrite IH. by destruct (rfind_char c b).
Qed.

Lemma rfind_char_lacks (c : byte) (s : list byte) :
  lacks c s -> rfind_char c s = None.
Proof.
  induction 1 as [|x s Hx Hs IH]; [done|]. simpl.
  by rewrite IH, byte_eqb_neq.
Qed.

Lemma project_json_lines (proj : Project) :
  project_json proj
  = txt "{" ++ [x0a] ++
    field_line (txt "name") (name proj) (txt ",") ++ [x0a] ++
    field_line (txt "description") (description proj) (txt ",") ++ [x0a] ++
    field_line (txt "created") (created proj) [] ++ [x0a] ++
    txt "}" ++ [x0a].
Proof.
  unfold project_json, field_line. by rewrite <- !app_assoc.
Qed.

Lemma quoted_value_field (k v tail : list byte) (from : nat) :
  lacks x22 tail ->
  find_char x22 (field_line k v tail) from = Some (length k + 6) ->
  quoted_value (field_line k v tail) from
  = if decide (v = []) then None else Some v.
Proof.
  intros Htail Hfind. unfold quoted_value. rewrite Hfind.
  assert (Hline : field_line k v tail
                  = (txt "  " ++ [x22] ++ k ++ [x22] ++ txt ": " ++ [x22])
                      ++ v ++ [x22] ++ tail).
  { unfold field_line. by rewrite <- !app_assoc. }
  assert (Hr : rfind_char x22 (field_line k v tail)
               = Some (length k + 7 + length v)).
  { rewrite Hline, app_assoc, rfind_char_app. cbn [app rfind_char].
    rewrite rfind_char_lacks, byte_eqb_refl by done.
    rewrite !length_app. simpl. rewrite length_app. simpl. f_equal. lia. }
  rewrite Hr. destruct (decide (v = [])) as [->|Hne].
  - rewrite decide_False by (simpl; lia). done.
  - rewrite decide_True by (destruct v; simpl in *; [done|lia]).
    f_equal. unfold substr. rewrite Hline.
    rewrite drop_app_length'
      by (rewrite !length_app; simpl; lia).
    replace (length k + 7 + length v - (length k + 6 + 1)) with (length v)
      by lia.
    by rewrite take_app_length.
Qed.

Lemma find_key_absent (k k' v tail : list byte) :
  lacks x22 k -> lacks x22 k' -> lacks x22 v ->
  k' <> k -> txt ": " <> k ->
  starts_with (txt ":") tail = false ->
  find (key k) (x22 :: tail) = None ->
  find (key k) (field_line k' v tail) = None.
Proof.
  intros Hk Hk' Hv Hne Hsep Htail Hend.
  change (key k) with (x22 :: k ++ x22 :: txt ":") in *.
  change (field_line k' v tail)
    with (txt "  " ++ x22 :: k' ++ x22 :: txt ": " ++ x22 :: v ++ x22 :: tail).
  rewrite find_skip by (repeat constructor; done).
  rewrite find_key_step by (done || by left).
  rewrite find_key_step by (done || (repeat constructor; done) || by left).
  rewrite find_key_step by (done || by right).
  by rewrite Hend.
Qed.

Ltac lacks_text := repeat constructor; done.

Lemma parse_name_line (v : list byte) (p : Project) :
  parse_line (field_line (txt "name") v (txt ",")) p
  = if decide (v = []) then p
    else mkProject v (folder_name p) (description p) (created p).
Proof.
  unfold parse_line.
  replace (find (key (txt "name")) (field_line (txt "name") v (txt ",")))
    with (Some 2) by reflexivity.
  rewrite quoted_value_field; [|lacks_text|reflexivity].
  by destruct (decide (v = [])).
Qed.

Lemma parse_description_line (v : list byte) (p : Project) :
  lacks x22 v ->
  parse_line (field_line (txt "description") v (txt ",")) p
  = if decide (v = []) then p
    else mkProject (name p) (folder_name p) v (created p).
Proof.
  intros Hv. unfold parse_line.
  rewrite find_key_absent; [|lacks_text|lacks_text|done..].
  replace (find (key (txt "description"))
                (field_line (txt "description") v (txt ",")))
    with (Some 2) by reflexivity.
  rewrite quoted_value_field; [|lacks_text|reflexivity].
  by destruct (decide (v = [])).
Qed.

Lemma parse_created_line (v : list byte) (p : Project) :
  lacks x22 v ->
  parse_line (field_line (txt "created") v []) p
  = if decide (v = []) then p
    else mkProject (name p) (folder_name p) (description p) v.
Proof.
  intros Hv. unfold parse_line.
  rewrite find_key_absent; [|lacks_text|lacks_text|done..].
  rewrite find_key_absent; [|lacks_text|lacks_text|done..].
  replace (find (key (txt "created"))
                (field_line (txt "created") v []))
    with (Some 2) by reflexivity.
  rewrite quoted_value_field; [|lacks_text|reflexivity].
  by destruct (decide (v = [])).
Qed.

Lemma lines_from_piece (a rest cur : list byte) :
  lacks x0a a ->
  lines_from (a ++ rest) cur = lines_from rest (cur ++ a).
Proof.
  intros Ha. revert cur. induction Ha as [|c a Hc Ha IH]; intros cur.
  { by rewrite app_nil_r. }
  cbn [app lines_from]. rewrite byte_eqb_neq by done.
  by rewrite IH, <- app_assoc.
Qed.

Lemma lines_from_newline (rest cur : list byte) :
  lines_from ([x0a] ++ rest) cur = cur :: lines_from rest [].
Proof. done. Qed.

Lemma lacks_app (c : byte) (a b : list byte) :
  lacks c a -> lacks c b -> lacks c (a ++ b).
Proof. intros. by apply Forall_app. Qed.

Lemma field_line_lacks_newline (k v tail : list byte) :
  lacks x0a k -> lacks x0a v -> lacks x0a tail ->
  lacks x0a (field_line k v tail).
Proof.
  intros Hk Hv Ht. unfold field_line.
  repeat (apply lacks_app; [done || lacks_text|]). done.
Qed.

Lemma getlines_project_json (proj : Project) :
  lacks x0a (name proj) -> lacks x0a (description proj) ->
  lacks x0a (created proj) ->
  getlines (project_json proj)
  = [txt "{";
     field_line (txt "name") (name proj) (txt ",");
     field_line (txt "description") (description proj) (txt ",");
     field_line (txt "created") (created proj) [];
     txt "}"].
Proof.
  intros Hn Hd Hc. rewrite project_json_lines. unfold getlines.
  rewrite lines_from_piece, lines_from_newline by lacks_text.
  rewrite lines_from_piece, lines_from_newline
    by (apply field_line_lacks_newline; done || lacks_text).
  rewrite lines_from_piece, lines_from_newline
    by (apply field_line_lacks_newline; done || lacks_text).
  rewrite lines_from_piece, lines_from_newline
    by (apply field_line_lacks_newline; done || lacks_text).
  rewrite lines_from_piece by lacks_text.
  done.
Qed.

Lemma parse_line_no_quote (line : list byte) (p : Project) :
  lacks x22 line -> parse_line line p = p.
Proof.
  intros Hl. unfold parse_line, key. cbn [app].
  by rewrite !find_lacks.
Qed.

Lemma parse_line_closing (cur : list byte) (p : Project) :
  lacks x22 cur -> parse_line (cur ++ [x22] ++ txt ",") p = p.
Proof.
  intros Hl. unfold parse_line, key. cbn [app].
  rewrite !find_skip by done. done.
Qed.

(** The lines of a value that goes on after a newline are skipped. *)
Lemma skip_value_lines (rest : list byte) (p : Project) (d2 : list byte) :
  lacks x22 d2 ->
  forall cur, lacks x22 cur ->
    foldl (fun p line => parse_line line p) p
          (lines_from (d2 ++ [x22] ++ txt "," ++ [x0a] ++ rest) cur)
    = foldl (fun p line => parse_line line p) p (lines_from rest []).
Proof.
  induction 1 as [|c d2 Hc Hd2 IH]; intros cur Hcur.
  - change ([] ++ [x22] ++ txt "," ++ [x0a] ++ rest)
      with (([x22] ++ txt ",") ++ [x0a] ++ rest).
    rewrite lines_from_piece, lines_from_newline by lacks_text.
    cbn [foldl]. by rewrite (parse_line_closing cur p Hcur).
  - cbn [app lines_from]. destruct (Byte.eqb c x0a).
    + cbn [foldl]. rewrite parse_line_no_quote by done.
      apply IH. constructor.
    + apply IH. apply Forall_app. split; [done|by constructor].
Qed.

Lemma parse_description_open (d1 : list byte) (p : Project) :
  lacks x22 d1 ->
  parse_line (txt "  " ++ [x22] ++ txt "description" ++ [x22] ++ txt ": "
                ++ [x22] ++ d1) p = p.
Proof.
  intros Hd. unfold parse_line.
  assert (Hname : find (key (txt "name"))
            (txt "  " ++ [x22] ++ txt "description" ++ [x22] ++ txt ": "
               ++ [x22] ++ d1) = None).
  { change (key (txt "name")) with (x22 :: txt "name" ++ x22 :: txt ":").
    change (txt "  " ++ [x22] ++ txt "description" ++ [x22] ++ txt ": "
              ++ [x22] ++ d1)
      with (txt "  " ++ x22 :: txt "description" ++ x22 :: txt ": "
              ++ x22 :: d1).
    rewrite find_skip by lacks_text.
    rewrite find_key_step by (lacks_text || by left).
    rewrite find_key_step by (lacks_text || by left).
    by rewrite find_key_open. }
  rewrite Hname.
  replace (find (key (txt "description")) _) with (Some 2) by reflexivity.
  unfold quoted_value.
  replace (find_char x22 _ (2 + 14)) with (Some 17) by reflexivity.
  change (txt "  " ++ [x22] ++ txt "description" ++ [x22] ++ txt ": "
            ++ [x22] ++ d1)
    with ((txt "  " ++ [x22] ++ txt "description" ++ [x22] ++ txt ": "
            ++ [x22]) ++ d1).
  rewrite rfind_char_app, rfind_char_lacks by done.
  replace (rfind_char x22 _) with (Some 17) by reflexivity.
  by rewrite decide_False by lia.
Qed.

(** X22. A project written by [save_project_json] is read back by
    [load_project_json] as it was, into a project that starts with empty
    fields as in [scan_projects], when its name, description and time
    stamp are single lines and the description and the time stamp hold
    no quote character; the name may hold quotes.  The result of the
    load is [true] exactly when the name is not empty. *)
Theorem project_json_round_trip (proj : Project) (folder : list byte) :
  one_line (name proj) -> one_line (description proj) ->
  one_line (created proj) ->
  lacks x22 (description proj) -> lacks x22 (created proj) ->
  load_project_json (project_json proj) (mkProject [] folder [] [])
  = (negb (bool_decide (name proj = [])),
     mkProject (name proj) folder (description proj) (created proj)).
Proof.
  intros [Hn _] [Hd _] [Hc _] Hdq Hcq. unfold load_project_json.
  rewrite getlines_project_json by done. cbn [foldl].
  rewrite (parse_line_no_quote (txt "{")) by lacks_text.
  rewrite parse_name_line, parse_description_line, parse_created_line
    by done.
  rewrite (parse_line_no_quote (txt "}")) by lacks_text.
  destruct proj as [n f d c]. cbn [name description created] in *.
  by destruct (decide (n = [])) as [->|], (decide (d = [])) as [->|],
              (decide (c = [])) as [->|].
Qed.

Lemma project_json_round_trip_witness :
  load_project_json
    (project_json (mkProject (txt "He lamp") (txt "He_lamp")
                             (txt "first light") (txt "2025-01-01T10:00:00")))
    (mkProject [] (txt "He_lamp") [] [])
  = (negb (bool_decide (txt "He lamp" = [])),
     mkProject (txt "He lamp") (txt "He_lamp") (txt "first light")
               (txt "2025-01-01T10:00:00")).
Proof.
  apply (project_json_round_trip
           (mkProject (txt "He lamp") (txt "He_lamp")
                      (txt "first light") (txt "2025-01-01T10:00:00"))
           (txt "He_lamp")).
  - split; lacks_text.
  - split; lacks_text.
  - split; lacks_text.
  - lacks_text.
  - lacks_text.
Defined.

(** X23. A description of more than one line does not survive: the
    dialog takes the description from a multi-line input, the file is
    read line by line, and a project saved with a newline in its
    description is loaded with an empty description (name and time stamp
    are read as written). *)
Theorem multiline_description_lost
    (n f d1 d2 c folder : list byte) :
  one_line n -> one_line c -> lacks x22 c ->
  one_line d1 -> lacks x22 d1 -> lacks x1a d2 -> lacks x22 d2 ->
  load_project_json
    (project_json (mkProject n f (d1 ++ [x0a] ++ d2) c))
    (mkProject [] folder [] [])
  = (negb (bool_decide (n = [])), mkProject n folder [] c).
Proof.
  intros [Hn _] [Hc _] Hcq [Hd1 _] Hd1q _ Hd2q. unfold load_project_json.
  rewrite project_json_lines. cbn [name description created].
  unfold getlines.
  rewrite lines_from_piece, lines_from_newline by lacks_text.
  rewrite lines_from_piece, lines_from_newline
    by (apply field_line_lacks_newline; done || lacks_text).
  assert (Hdesc : forall rest,
    field_line (txt "description") (d1 ++ [x0a] ++ d2) (txt ",") ++ rest
    = (txt "  " ++ [x22] ++ txt "description" ++ [x22] ++ txt ": "
         ++ [x22] ++ d1)
      ++ [x0a] ++ d2 ++ [x22] ++ txt "," ++ rest).
  { intros rest. unfold field_line. by rewrite <- !app_assoc. }
  rewrite Hdesc.
  rewrite lines_from_piece, lines_from_newline
    by (repeat (apply lacks_app; [done || lacks_text|]); done).
  cbn [foldl]. rewrite !app_nil_l.
  rewrite (parse_line_no_quote (txt "{")) by lacks_text.
  rewrite parse_name_line.
  rewrite (parse_description_open d1) by done.
  rewrite (skip_value_lines _ _ d2 Hd2q []) by constructor.
  rewrite lines_from_piece, lines_from_newline
    by (apply field_line_lacks_newline; done || lacks_text).
  rewrite lines_from_piece by lacks_text.
  rewrite !app_nil_l.
  change (lines_from [x0a] (txt "}")) with [txt "}"]. cbn [foldl].
  rewrite parse_created_line by done.
  rewrite (parse_line_no_quote (txt "}")) by lacks_text.
  by destruct (decide (n = [])) as [->|], (decide (c = [])) as [->|].
Qed.

Lemma multiline_description_lost_witness :
  load_project_json
    (project_json (mkProject (txt "He lamp") (txt "He_lamp")
                             (txt "first light" ++ [x0a] ++ txt "slit 50 um")
                             (txt "2025-01-01T10:00:00")))
    (mkProject [] (txt "He_lamp") [] [])
  = (negb (bool_decide (txt "He lamp" = [])),
     mkProject (txt "He lamp") (txt "He_lamp") []
               (txt "2025-01-01T10:00:00")).
Proof.
  apply (multiline_description_lost (txt "He lamp") (txt "He_lamp")
           (txt "first light") (txt "slit 50 um")
           (txt "2025-01-01T10:00:00") (txt "He_lamp")).
  - split; lacks_text.
  - split; lacks_text.
  - lacks_text.
  - split; lacks_text.
  - lacks_text.
  - lacks_text.
  - lacks_text.
Defined.

End JsonFacts.
